(** * EBNFParser: grammar compiler and recursive-descent match engine

    A shallow embedding of the [EBNFParser] class of the EBNF tool
    (grammar compilation: [parseGrammar], [parseAlternation],
    [parseConcatenation], [parseElement], [tokenize],
    [splitRespectingGroups]; matching: [parse], [parseRule],
    [parseExpression]) together with the properties of its
    specification.

    Conventions of the embedding:
    - a JavaScript string is the list of its UTF-16 code units;
    - the JavaScript numbers that count repetitions or bound them are
      doubles: a finite one is the natural number ([N]) it is equal
      to, [Infinity] is [None]; reading a numeral rounds it to the
      nearest double and the counter of a loop stops growing at 2^53;
    - a thrown [Error] is the [Throw] outcome, carrying the data the
      message interpolates; [null] is [Return None];
    - the engine is defined by recursion on a fuel counter; [OutOfFuel]
      at every amount of fuel is how a computation that never returns
      shows up. Memory limits of the host are not modelled. *)

From Stdlib Require Import Ascii String.
From Stdlib Require Import List Arith NArith ZArith Bool Lia.
Import ListNotations.

Set Warnings "-register-all".

(* ================================================================= *)
(** ** Strings *)

Definition code_unit := N.
Definition jsstring := list code_unit.

(** Literals of the source, written with Rocq strings. *)
Definition str (s : string) : jsstring :=
  map N_of_ascii (list_ascii_of_string s).

Definition DQUOTE : code_unit := 34%N.
Definition SQUOTE : code_unit := 39%N.

(** The brackets of a block comment. *)
Definition COMMENT_OPEN : jsstring := [40%N; 42%N].
Definition COMMENT_CLOSE : jsstring := [42%N; 41%N].

Fixpoint str_eqb (a b : jsstring) : bool :=
  match a, b with
  | [], [] => true
  | x :: a', y :: b' => N.eqb x y && str_eqb a' b'
  | _, _ => false
  end.

(** The relational comparison of two strings: lexicographic on code
    units, a proper prefix being smaller. *)
Fixpoint str_leb (a b : jsstring) : bool :=
  match a, b with
  | [], _ => true
  | _ :: _, [] => false
  | x :: a', y :: b' =>
      if N.ltb x y then true
      else if N.eqb x y then str_leb a' b'
      else false
  end.

(** [s.slice(a, b)] for [0 <= a] and [0 <= b]. *)
Definition slice (s : jsstring) (a b : nat) : jsstring :=
  firstn (b - a) (skipn a s).

(** [s.slice(a)] *)
Definition slice_from (s : jsstring) (a : nat) : jsstring := skipn a s.

(** [s.slice(0, -1)] and [s.slice(1, -1)] *)
Definition drop_last (s : jsstring) : jsstring := firstn (length s - 1) s.
Definition strip_ends (s : jsstring) : jsstring := slice s 1 (length s - 1).

(** [s[i]]: [None] is [undefined]. *)
Definition char_at (s : jsstring) (i : nat) : option code_unit := nth_error s i.

Fixpoint startsWith (s p : jsstring) {struct p} : bool :=
  match p, s with
  | [], _ => true
  | x :: p', y :: s' => N.eqb x y && startsWith s' p'
  | _ :: _, [] => false
  end.

Definition endsWith (s p : jsstring) : bool :=
  startsWith (rev s) (rev p).

Definition includes (s : jsstring) (c : code_unit) : bool :=
  existsb (N.eqb c) s.

(* ================================================================= *)
(** ** Data model *)

(** The expression objects built by the compiler, by their [type]
    field.  [min] and [max] are numbers: [None] is [Infinity].  A
    character range keeps what
    the destructuring [[start, , end] = text] produced: strings, the
    second possibly [undefined]. *)
Inductive Expression : Type :=
| Alternation (alternatives : list Expression)
| Concatenation (elements : list Expression)
| Repetition (min : option N) (max : option N) (element : Expression)
| Optional (element : Expression)
| Terminal (value : jsstring)
| CharacterRange (range_start : jsstring) (range_end : option jsstring)
| NonTerminal (name : jsstring)
| Empty.

(** Parse tree nodes: [{type, value, start, end, children}]. *)
Inductive ParseNode : Type :=
  mkNode { node_type : jsstring;
           node_value : jsstring;
           node_start : nat;
           node_end : nat;
           node_children : list ParseNode }.

(** What [parseExpression] returns when it is not [null]: an object
    with a [position] and either a [node] or a [children] field. *)
Record MatchResult : Type :=
  mkResult { node : option ParseNode;
             children : option (list ParseNode);
             position : nat }.

(** What [parseRule] returns when it is not [null]: [{node, position}]. *)
Record RuleResult : Type :=
  mkRuleResult { rule_node : ParseNode; rule_position : nat }.

Definition as_match (r : RuleResult) : MatchResult :=
  {| node := Some (rule_node r); children := None; position := rule_position r |}.

Inductive Error : Type :=
| NoValidRules                                  (* 'No valid grammar rules found' *)
| NoStartRule                                   (* 'No start rule defined' *)
| ParseFailedAtStart                            (* 'Parse failed at beginning of input' *)
| IncompleteParse (remaining : jsstring) (pos : nat)
                                                (* 'Parse incomplete. Remaining: ... at position ...' *)
| UnknownRule (name : jsstring).                (* 'Unknown rule: ...' *)

Inductive Outcome (A : Type) : Type :=
| Return (a : A)
| Throw (e : Error)
| OutOfFuel.

Arguments Return {A} a.
Arguments Throw {A} e.
Arguments OutOfFuel {A}.

(** The [rules] field: a [Map] from rule name to expression.  A [Map]
    iterates in insertion order and [set] on a present key keeps the
    key's place. *)
Definition RuleMap := list (jsstring * Expression).

Fixpoint map_get (m : RuleMap) (k : jsstring) : option Expression :=
  match m with
  | [] => None
  | (k', v) :: m' => if str_eqb k' k then Some v else map_get m' k
  end.

Fixpoint map_set (m : RuleMap) (k : jsstring) (v : Expression) : RuleMap :=
  match m with
  | [] => [(k, v)]
  | (k', v') :: m' =>
      if str_eqb k' k then (k, v) :: m' else (k', v') :: map_set m' k v
  end.

Definition map_keys (m : RuleMap) : list jsstring := map fst m.
Definition map_size (m : RuleMap) : nat := length m.

(** The state of a constructed parser. *)
Record EBNFParser : Type :=
  mkParser { rules : RuleMap; startRule : option jsstring }.

(* ================================================================= *)
(** ** Character classes and regular expressions of the compiler *)

Local Open Scope N_scope.

(** Line terminators: the characters [.] does not match. *)
Definition is_line_terminator (c : code_unit) : bool :=
  (c =? 10) || (c =? 13) || (c =? 8232) || (c =? 8233).

(** [\s], which is also what [trim] removes: white space and line
    terminators. *)
Definition is_whitespace (c : code_unit) : bool :=
  (c =? 9) || (c =? 11) || (c =? 12) || (c =? 32) || (c =? 160)
  || (c =? 5760) || ((8192 <=? c) && (c <=? 8202))
  || (c =? 8239) || (c =? 8287) || (c =? 12288) || (c =? 65279)
  || is_line_terminator c.

(** [\d] *)
Definition is_digit (c : code_unit) : bool := (48 <=? c) && (c <=? 57).

(** [[a-zA-Z_]] and [[a-zA-Z0-9_]] *)
Definition is_ident_start (c : code_unit) : bool :=
  ((97 <=? c) && (c <=? 122)) || ((65 <=? c) && (c <=? 90)) || (c =? 95).
Definition is_ident_char (c : code_unit) : bool :=
  is_ident_start c || is_digit c.

Definition any_char (c : code_unit) : bool := negb (is_line_terminator c).

Local Close Scope N_scope.

Fixpoint takeWhile (p : code_unit -> bool) (s : jsstring) : jsstring :=
  match s with
  | c :: s' => if p c then c :: takeWhile p s' else []
  | [] => []
  end.

Fixpoint dropWhile (p : code_unit -> bool) (s : jsstring) : jsstring :=
  match s with
  | c :: s' => if p c then dropWhile p s' else s
  | [] => []
  end.

Definition trim (s : jsstring) : jsstring :=
  rev (dropWhile is_whitespace (rev (dropWhile is_whitespace s))).

(** [current.trim()] used as a condition: a non-empty string. *)
Definition truthy (s : jsstring) : bool :=
  match s with [] => false | _ :: _ => true end.

(** [s.split('\n')] *)
Fixpoint split_lines (s : jsstring) : list jsstring :=
  match s with
  | [] => [[]]
  | c :: s' =>
      if N.eqb c 10%N then [] :: split_lines s'
      else match split_lines s' with
           | l :: ls => (c :: l) :: ls
           | [] => [[c]]
           end
  end.

(** The replacement of the block-comment pattern of [parseGrammar]
    (an opening parenthesis-star, a lazy run of [.], a closing
    star-parenthesis; flag [g]) by the empty string.  [comment_body s]
    is the length of the shortest run of [.] after which the closing
    bracket follows; [strip_block_comments s skip] drops [skip]
    characters, then goes on scanning for the next opening bracket. *)
Fixpoint comment_body (s : jsstring) : option nat :=
  match s with
  | [] => None
  | c :: s' =>
      if startsWith s COMMENT_CLOSE then Some 0
      else if any_char c then option_map S (comment_body s')
      else None
  end.

Fixpoint strip_block_comments (s : jsstring) (skip : nat) : jsstring :=
  match s with
  | [] => []
  | c :: s' =>
      match skip with
      | S n => strip_block_comments s' n
      | 0 =>
          if startsWith s COMMENT_OPEN then
            match comment_body (skipn 2 s) with
            | Some n => strip_block_comments s' (n + 3)
            | None => c :: strip_block_comments s' 0
            end
          else c :: strip_block_comments s' 0
      end
  end.

(** [/\/\/.*$/] and [/#.*$/] replaced (once) by the empty string: the
    text is cut at the first occurrence of the marker that only [.]
    characters follow. *)
Fixpoint strip_line_comment (marker : jsstring) (s : jsstring) : jsstring :=
  match s with
  | [] => []
  | c :: s' =>
      if startsWith s marker && forallb any_char (skipn (length marker) s)
      then []
      else c :: strip_line_comment marker s'
  end.

(** The assign operator at the head of [s], one of [::=], [:=] and
    the arrow U+2192: what follows it. *)
Definition match_assign (s : jsstring) : option jsstring :=
  if startsWith s (str "::=") then Some (skipn 3 s)
  else if startsWith s (str ":=") then Some (skipn 2 s)
  else if startsWith s [8594%N] then Some (skipn 1 s)
  else None.

(** [\s*] and the non-empty run of [.] on what follows the operator:
    group 3.  The greedy
    [\s*] takes all the white space; only when nothing is left for
    [.+] does it give back its last character. *)
Definition match_definition (s : jsstring) : option jsstring :=
  match dropWhile is_whitespace s with
  | c :: t => if forallb any_char (c :: t) then Some (c :: t) else None
  | [] =>
      match rev s with
      | c :: _ => if any_char c then Some [c] else None
      | [] => None
      end
  end.

(** [line.match(...)] for the rule pattern: an identifier, [\s*], the
    assign operator, [\s*] and a non-empty run of [.] up to the end;
    groups 1 and 3. *)
Definition ruleMatch (line : jsstring) : option (jsstring * jsstring) :=
  match line with
  | c :: _ =>
      if is_ident_start c then
        match match_assign (dropWhile is_whitespace (dropWhile is_ident_char line)) with
        | Some rest =>
            match match_definition rest with
            | Some definition => Some (takeWhile is_ident_char line, definition)
            | None => None
            end
        | None => None
        end
      else None
  | [] => None
  end.

(** The bounds between the braces: a run of digits, an optional
    comma, a run of digits, matching the whole of [body]; groups 2
    and 3 of the pattern below. *)
Definition match_bounds (body : jsstring) : option (jsstring * jsstring) :=
  let min := takeWhile is_digit body in
  let rest := dropWhile is_digit body in
  let rest' := if startsWith rest (str ",") then skipn 1 rest else rest in
  match dropWhile is_digit rest' with
  | [] => Some (min, takeWhile is_digit rest')
  | _ :: _ => None
  end.

(** [text.match(...)] for the bounded-repetition pattern: a non-empty
    run of [.], an opening brace, the bounds, a closing brace at the
    end; groups 1, 2 and 3.  The opening brace of the pattern can only
    be the last one of the text. *)
Definition repetitionMatch (text : jsstring) : option (jsstring * jsstring * jsstring) :=
  match rev text with
  | c :: r =>
      if N.eqb c 125%N then
        let body := rev (takeWhile (fun c => negb (N.eqb c 123%N)) r) in
        match dropWhile (fun c => negb (N.eqb c 123%N)) r with
        | _ :: e =>
            let element := rev e in
            if truthy element && forallb any_char element then
              match match_bounds body with
              | Some (min, max) => Some (element, min, max)
              | None => None
              end
            else None
        | [] => None
        end
      else None
  | [] => None
  end.

(** 2^53: every natural number up to here is a double. *)
Definition TWO_53 : N := 9007199254740992%N.

(** The double nearest to a natural number, a tie going to the even
    significand, as if exponents had no upper end: from 2^53 on the
    number keeps its 53 leading bits, rounded by what follows them. *)
Definition round_double (n : N) : N :=
  if N.ltb n TWO_53 then n
  else
    let e := (N.log2 n - 52)%N in
    let q := N.shiftr n e in
    let r := N.land n (N.ones e) in
    let half := N.shiftl 1 (e - 1) in
    N.shiftl (if N.ltb half r || (N.eqb r half && N.odd q) then q + 1 else q)%N e.

(** The Number value of a natural number: the nearest double, which
    is [Infinity] from 2^1024 on. *)
Definition number_value (n : N) : option N :=
  let v := round_double n in
  if N.ltb (N.log2 v) 1024 then Some v else None.

(** The natural number a string of decimal digits denotes. *)
Definition decimal (digits : jsstring) : N :=
  fold_left (fun acc c => (acc * 10 + (c - 48))%N) digits 0%N.

(** [parseInt] on a string of decimal digits: the Number value of
    the numeral.  The engines round the exact value of the numeral;
    the language definition would also let them ignore the digits
    after the twentieth significant one. *)
Definition parseInt (digits : jsstring) : option N :=
  number_value (decimal digits).

(** The identifier test of [parseElement]: [[a-zA-Z_]] followed by
    [[a-zA-Z0-9_]] up to the end. *)
Definition is_identifier (text : jsstring) : bool :=
  match text with
  | c :: rest => is_ident_start c && forallb is_ident_char rest
  | [] => false
  end.

(** The iteration of a string that array destructuring uses: by code
    point, a surrogate pair being one element. *)
Definition is_high_surrogate (c : code_unit) : bool := (55296 <=? c)%N && (c <=? 56319)%N.
Definition is_low_surrogate (c : code_unit) : bool := (56320 <=? c)%N && (c <=? 57343)%N.

Fixpoint code_points (s : jsstring) : list jsstring :=
  match s with
  | [] => []
  | a :: s' =>
      match s' with
      | b :: s'' =>
          if is_high_surrogate a && is_low_surrogate b
          then [a; b] :: code_points s''
          else [a] :: code_points s'
      | [] => [[a]]
      end
  end.

(* ================================================================= *)
(** ** Grammar compiler *)

Module Compiler.

(** The local variables of [tokenize]. *)
Record TokenizeState : Type :=
  mkTok { tokens : list jsstring;
          current : jsstring;
          inQuotes : bool;
          quoteChar : option code_unit;
          groupDepth : Z }.

Definition is_quote (c : code_unit) : bool := N.eqb c DQUOTE || N.eqb c SQUOTE.
Definition is_open (c : code_unit) : bool := N.eqb c 40%N || N.eqb c 91%N || N.eqb c 123%N.
Definition is_close (c : code_unit) : bool := N.eqb c 41%N || N.eqb c 93%N || N.eqb c 125%N.

Definition is_quoteChar (q : option code_unit) (c : code_unit) : bool :=
  match q with Some q' => N.eqb c q' | None => false end.

(** One turn of the [while] loop of [tokenize]. *)
Definition tokenize_step (st : TokenizeState) (char : code_unit) : TokenizeState :=
  if negb (inQuotes st) && is_quote char then
    {| tokens := if truthy (trim (current st))
                 then tokens st ++ [trim (current st)] else tokens st;
       current := [char];
       inQuotes := true;
       quoteChar := Some char;
       groupDepth := groupDepth st |}
  else if inQuotes st && is_quoteChar (quoteChar st) char then
    {| tokens := tokens st ++ [current st ++ [char]];
       current := [];
       inQuotes := false;
       quoteChar := None;
       groupDepth := groupDepth st |}
  else if inQuotes st then
    {| tokens := tokens st; current := current st ++ [char];
       inQuotes := inQuotes st; quoteChar := quoteChar st;
       groupDepth := groupDepth st |}
  else if is_open char then
    if truthy (trim (current st)) && Z.eqb (groupDepth st) 0%Z then
      {| tokens := tokens st ++ [trim (current st)]; current := [char];
         inQuotes := inQuotes st; quoteChar := quoteChar st;
         groupDepth := (groupDepth st + 1)%Z |}
    else
      {| tokens := tokens st; current := current st ++ [char];
         inQuotes := inQuotes st; quoteChar := quoteChar st;
         groupDepth := (groupDepth st + 1)%Z |}
  else if is_close char then
    if Z.eqb (groupDepth st - 1)%Z 0%Z then
      {| tokens := tokens st ++ [current st ++ [char]]; current := [];
         inQuotes := inQuotes st; quoteChar := quoteChar st;
         groupDepth := (groupDepth st - 1)%Z |}
    else
      {| tokens := tokens st; current := current st ++ [char];
         inQuotes := inQuotes st; quoteChar := quoteChar st;
         groupDepth := (groupDepth st - 1)%Z |}
  else if Z.ltb 0%Z (groupDepth st) then
    {| tokens := tokens st; current := current st ++ [char];
       inQuotes := inQuotes st; quoteChar := quoteChar st;
       groupDepth := groupDepth st |}
  else if is_whitespace char then
    if truthy (trim (current st)) then
      {| tokens := tokens st ++ [trim (current st)]; current := [];
         inQuotes := inQuotes st; quoteChar := quoteChar st;
         groupDepth := groupDepth st |}
    else st
  else
    {| tokens := tokens st; current := current st ++ [char];
       inQuotes := inQuotes st; quoteChar := quoteChar st;
       groupDepth := groupDepth st |}.

Definition tokenize (text : jsstring) : list jsstring :=
  let st := fold_left tokenize_step text
              {| tokens := []; current := []; inQuotes := false;
                 quoteChar := None; groupDepth := 0%Z |} in
  if truthy (trim (current st)) then tokens st ++ [trim (current st)] else tokens st.

(** The local variables of [splitRespectingGroups]. *)
Record SplitState : Type :=
  mkSplit { parts : list jsstring;
            s_current : jsstring;
            s_groupDepth : Z;
            s_inQuotes : bool;
            s_quoteChar : option code_unit }.

Definition split_step (delimiter : code_unit) (st : SplitState) (char : code_unit)
  : SplitState :=
  if negb (s_inQuotes st) && is_quote char then
    {| parts := parts st; s_current := s_current st ++ [char];
       s_groupDepth := s_groupDepth st; s_inQuotes := true; s_quoteChar := Some char |}
  else if s_inQuotes st && is_quoteChar (s_quoteChar st) char then
    {| parts := parts st; s_current := s_current st ++ [char];
       s_groupDepth := s_groupDepth st; s_inQuotes := false; s_quoteChar := None |}
  else if s_inQuotes st then
    {| parts := parts st; s_current := s_current st ++ [char];
       s_groupDepth := s_groupDepth st; s_inQuotes := s_inQuotes st;
       s_quoteChar := s_quoteChar st |}
  else if is_open char then
    {| parts := parts st; s_current := s_current st ++ [char];
       s_groupDepth := (s_groupDepth st + 1)%Z; s_inQuotes := s_inQuotes st;
       s_quoteChar := s_quoteChar st |}
  else if is_close char then
    {| parts := parts st; s_current := s_current st ++ [char];
       s_groupDepth := (s_groupDepth st - 1)%Z; s_inQuotes := s_inQuotes st;
       s_quoteChar := s_quoteChar st |}
  else if N.eqb char delimiter && Z.eqb (s_groupDepth st) 0%Z then
    {| parts := parts st ++ [trim (s_current st)]; s_current := [];
       s_groupDepth := s_groupDepth st; s_inQuotes := s_inQuotes st;
       s_quoteChar := s_quoteChar st |}
  else
    {| parts := parts st; s_current := s_current st ++ [char];
       s_groupDepth := s_groupDepth st; s_inQuotes := s_inQuotes st;
       s_quoteChar := s_quoteChar st |}.

Definition splitRespectingGroups (text : jsstring) (delimiter : code_unit)
  : list jsstring :=
  let st := fold_left (split_step delimiter) text
              {| parts := []; s_current := []; s_groupDepth := 0%Z;
                 s_inQuotes := false; s_quoteChar := None |} in
  if truthy (trim (s_current st)) then parts st ++ [trim (s_current st)] else parts st.

(** [xs.map(f)] for an [f] that may run out of fuel. *)
Fixpoint map_opt {A B : Type} (f : A -> option B) (xs : list A) : option (list B) :=
  match xs with
  | [] => Some []
  | x :: xs' =>
      match f x, map_opt f xs' with
      | Some y, Some ys => Some (y :: ys)
      | _, _ => None
      end
  end.

(** [parseConcatenation] and [parseAlternation], over the
    [parseElement] they call. *)
Definition parseConcatenation_with (rec : jsstring -> option Expression)
           (text : jsstring) : option Expression :=
  match tokenize text with
  | [element] => rec element
  | elements => option_map Concatenation (map_opt rec elements)
  end.

Definition parseAlternation_with (rec : jsstring -> option Expression)
           (text : jsstring) : option Expression :=
  match splitRespectingGroups text 124%N with
  | [alternative] => parseConcatenation_with rec alternative
  | alternatives =>
      option_map Alternation (map_opt (parseConcatenation_with rec) alternatives)
  end.

(** The bounds of [{min,max}]:
    [min ? parseInt(min) : 0] and
    [max ? parseInt(max) : (min && !max.includes(',') ? parseInt(min) : Infinity)]. *)
Definition bound_min (min : jsstring) : option N :=
  if truthy min then parseInt min else Some 0%N.

Definition bound_max (min max : jsstring) : option N :=
  if truthy max then parseInt max
  else if truthy min && negb (includes max 44%N) then parseInt min
  else None.

Definition char_range (text : jsstring) : Expression :=
  CharacterRange (nth 0 (code_points text) []) (nth_error (code_points text) 2).

(** [parseElement]; [None] when the fuel does not cover the nesting
    of the text. *)
Fixpoint parseElement (fuel : nat) (text0 : jsstring) : option Expression :=
  match fuel with
  | 0 => None
  | S fuel' =>
      let text := trim text0 in
      if endsWith text (str "*") then
        option_map (Repetition (Some 0%N) None) (parseElement fuel' (drop_last text))
      else if endsWith text (str "+") then
        option_map (Repetition (Some 1%N) None) (parseElement fuel' (drop_last text))
      else if endsWith text (str "?") then
        option_map Optional (parseElement fuel' (drop_last text))
      else
        match repetitionMatch text with
        | Some (element, min, max) =>
            option_map (Repetition (bound_min min) (bound_max min max))
                       (parseElement fuel' element)
        | None =>
            if startsWith text (str "(") && endsWith text (str ")") then
              parseAlternation_with (parseElement fuel') (strip_ends text)
            else if startsWith text (str "[") && endsWith text (str "]") then
              option_map Optional
                (parseAlternation_with (parseElement fuel') (strip_ends text))
            else if startsWith text (str "{") && endsWith text (str "}") then
              option_map (Repetition (Some 0%N) None)
                (parseAlternation_with (parseElement fuel') (strip_ends text))
            else if (startsWith text [DQUOTE] && endsWith text [DQUOTE])
                    || (startsWith text [SQUOTE] && endsWith text [SQUOTE]) then
              Some (Terminal (strip_ends text))
            else if includes text 45%N && Nat.eqb (length text) 3 then
              Some (char_range text)
            else if str_eqb text (str "empty") || str_eqb text [949%N]
                    || str_eqb text (str "epsilon") then
              Some Empty
            else if is_identifier text then
              Some (NonTerminal text)
            else Some (Terminal text)
        end
  end.

Definition parseAlternation (text : jsstring) : option Expression :=
  parseAlternation_with (parseElement (S (length text))) text.

Definition parseRuleDefinition (definition : jsstring) : option Expression :=
  parseAlternation definition.

(** The lines [parseGrammar] goes through: comments removed, trimmed,
    empty lines dropped. *)
Definition clean_line (line : jsstring) : jsstring :=
  trim (strip_line_comment (str "#")
          (strip_line_comment (str "//") (strip_block_comments line 0))).

Definition grammar_lines (grammarText : jsstring) : list jsstring :=
  filter truthy (map clean_line (split_lines grammarText)).

(** The body of the [for] loop of [parseGrammar]. *)
Definition register_line (p : option EBNFParser) (line : jsstring) : option EBNFParser :=
  match p with
  | None => None
  | Some p =>
      match ruleMatch line with
      | Some (ruleName, definition) =>
          match parseRuleDefinition definition with
          | Some e =>
              Some {| rules := map_set (rules p) ruleName e;
                      startRule := match startRule p with
                                   | None | Some [] => Some ruleName
                                   | Some s => Some s
                                   end |}
          | None => None
          end
      | None => Some p
      end
  end.

(** [new EBNFParser(grammarText)]: the constructor and [parseGrammar]. *)
Definition parseGrammar (grammarText : jsstring) : Outcome EBNFParser :=
  match fold_left register_line (grammar_lines grammarText)
                  (Some {| rules := []; startRule := None |}) with
  | None => OutOfFuel
  | Some p =>
      if Nat.eqb (map_size (rules p)) 0 then Throw NoValidRules else Return p
  end.

End Compiler.

(* ================================================================= *)
(** ** Match engine *)

Module Engine.
Section WithInput.

Variable the_rules : RuleMap.
Variable input : jsstring.

Definition Matcher := nat -> Expression -> Outcome (option MatchResult).

(** [if (result.node) c.push(result.node);
     if (result.children) c.push(...result.children);] *)
Definition push_result (c : list ParseNode) (result : MatchResult) : list ParseNode :=
  c ++ match node result with Some n => [n] | None => [] end
    ++ match children result with Some cs => cs | None => [] end.

(** [count < expression.max] *)
Definition below_max (count : N) (max : option N) : bool :=
  match max with
  | None => true
  | Some m => N.ltb count m
  end.

(** [count < expression.min] *)
Definition below_min (count : N) (min : option N) : bool :=
  match min with
  | None => true
  | Some m => N.ltb count m
  end.

(** [count++]: the sum is rounded to a double, so that a counter
    that has reached 2^53 stays there. *)
Definition increment (count : N) : N := round_double (count + 1).

Definition empty_match (pos : nat) : MatchResult :=
  {| node := None; children := Some []; position := pos |}.

Fixpoint alternation_loop (rec : Matcher) (pos : nat)
         (alternatives : list Expression) : Outcome (option MatchResult) :=
  match alternatives with
  | [] => Return None
  | alternative :: rest =>
      match rec pos alternative with
      | Return (Some result) => Return (Some result)
      | Return None => alternation_loop rec pos rest
      | Throw e => Throw e
      | OutOfFuel => OutOfFuel
      end
  end.

Fixpoint concatenation_loop (rec : Matcher) (elements : list Expression)
         (currentPos : nat) (cs : list ParseNode) : Outcome (option MatchResult) :=
  match elements with
  | [] => Return (Some {| node := None; children := Some cs; position := currentPos |})
  | element :: rest =>
      match rec currentPos element with
      | Return (Some result) =>
          concatenation_loop rec rest (position result) (push_result cs result)
      | Return None => Return None
      | Throw e => Throw e
      | OutOfFuel => OutOfFuel
      end
  end.

(** The [while (count < expression.max)] loop; [k] bounds the number
    of iterations.  It returns [repChildren], [repPos] and [count] at
    the exit of the loop. *)
Fixpoint repetition_loop (rec : Matcher) (max : option N) (element : Expression)
         (k : nat) (repChildren : list ParseNode) (repPos : nat) (count : N)
  : Outcome (list ParseNode * nat * N) :=
  match k with
  | 0 => OutOfFuel
  | S k' =>
      if below_max count max then
        match rec repPos element with
        | Return (Some result) =>
            repetition_loop rec max element k'
              (push_result repChildren result) (position result) (increment count)
        | Return None => Return (repChildren, repPos, count)
        | Throw e => Throw e
        | OutOfFuel => OutOfFuel
        end
      else Return (repChildren, repPos, count)
  end.

(** [parseRule], over the matcher it calls for the rule's body. *)
Definition parseRule_with (rec : Matcher) (pos : nat) (ruleName : jsstring)
  : Outcome (option RuleResult) :=
  match map_get the_rules ruleName with
  | None => Throw (UnknownRule ruleName)
  | Some rule =>
      match rec pos rule with
      | Return (Some result) =>
          Return (Some
            {| rule_node :=
                 {| node_type := ruleName;
                    node_value := slice input pos (position result);
                    node_start := pos;
                    node_end := position result;
                    node_children :=
                      match children result with Some cs => cs | None => [] end |};
               rule_position := position result |})
      | Return None => Return None
      | Throw e => Throw e
      | OutOfFuel => OutOfFuel
      end
  end.

Definition in_range (char : code_unit) (lo : jsstring) (hi : option jsstring) : bool :=
  match hi with
  | Some hi' => str_leb lo [char] && str_leb [char] hi'
  | None => false
  end.

(** [parseExpression]: the [switch] on [expression.type].  The fuel
    bounds the depth of the calls and, in a repetition, the number of
    turns of the loop. *)
Fixpoint parseExpression (fuel : nat) (pos : nat) (expression : Expression)
  : Outcome (option MatchResult) :=
  match fuel with
  | 0 => OutOfFuel
  | S fuel' =>
      match expression with
      | Alternation alternatives =>
          alternation_loop (parseExpression fuel') pos alternatives
      | Concatenation elements =>
          concatenation_loop (parseExpression fuel') elements pos []
      | Repetition min max element =>
          match repetition_loop (parseExpression fuel') max element fuel' [] pos 0%N with
          | Return (repChildren, repPos, count) =>
              if below_min count min then Return None
              else Return (Some {| node := None; children := Some repChildren;
                                   position := repPos |})
          | Throw e => Throw e
          | OutOfFuel => OutOfFuel
          end
      | Optional element =>
          match parseExpression fuel' pos element with
          | Return (Some optResult) => Return (Some optResult)
          | Return None => Return (Some (empty_match pos))
          | Throw e => Throw e
          | OutOfFuel => OutOfFuel
          end
      | Terminal v =>
          if str_eqb (slice input pos (pos + length v)) v then
            Return (Some
              {| node := Some {| node_type := str "terminal";
                                 node_value := v;
                                 node_start := pos;
                                 node_end := pos + length v;
                                 node_children := [] |};
                 children := None;
                 position := pos + length v |})
          else Return None
      | CharacterRange lo hi =>
          match char_at input pos with
          | Some char =>
              if in_range char lo hi then
                Return (Some
                  {| node := Some {| node_type := str "character";
                                     node_value := [char];
                                     node_start := pos;
                                     node_end := pos + 1;
                                     node_children := [] |};
                     children := None;
                     position := pos + 1 |})
              else Return None
          | None => Return None
          end
      | NonTerminal name =>
          match parseRule_with (parseExpression fuel') pos name with
          | Return (Some r) => Return (Some (as_match r))
          | Return None => Return None
          | Throw e => Throw e
          | OutOfFuel => OutOfFuel
          end
      | Empty => Return (Some (empty_match pos))
      end
  end.

Definition parseRule (fuel : nat) (pos : nat) (ruleName : jsstring)
  : Outcome (option RuleResult) :=
  parseRule_with (parseExpression fuel) pos ruleName.

End WithInput.

(** [parse(input)] *)
Definition parse (fuel : nat) (p : EBNFParser) (input : jsstring) : Outcome ParseNode :=
  match startRule p with
  | None | Some [] => Throw NoStartRule
  | Some start =>
      match parseRule (rules p) input fuel 0 start with
      | Return None => Throw ParseFailedAtStart
      | Return (Some result) =>
          if Nat.ltb (rule_position result) (length input) then
            Throw (IncompleteParse (slice_from input (rule_position result))
                                   (rule_position result))
          else Return (rule_node result)
      | Throw e => Throw e
      | OutOfFuel => OutOfFuel
      end
  end.

End Engine.

(* ================================================================= *)
(** ** The engine with the log of its [parseRule] calls

    The same functions, returning next to their outcome the names
    [parseRule] was called with, in the order of the calls.  The log
    is what "a rule reference is reached" means. *)

Module Traced.
Import Engine.
Section WithInput.

Variable the_rules : RuleMap.
Variable input : jsstring.

Definition Log := list jsstring.
Definition TMatcher := nat -> Expression -> Log * Outcome (option MatchResult).

Fixpoint alternation_loop (rec : TMatcher) (pos : nat)
         (alternatives : list Expression) : Log * Outcome (option MatchResult) :=
  match alternatives with
  | [] => ([], Return None)
  | alternative :: rest =>
      match rec pos alternative with
      | (l, Return (Some result)) => (l, Return (Some result))
      | (l, Return None) =>
          let (l', o) := alternation_loop rec pos rest in (l ++ l', o)
      | (l, Throw e) => (l, Throw e)
      | (l, OutOfFuel) => (l, OutOfFuel)
      end
  end.

Fixpoint concatenation_loop (rec : TMatcher) (elements : list Expression)
         (currentPos : nat) (cs : list ParseNode)
  : Log * Outcome (option MatchResult) :=
  match elements with
  | [] => ([], Return (Some {| node := None; children := Some cs;
                               position := currentPos |}))
  | element :: rest =>
      match rec currentPos element with
      | (l, Return (Some result)) =>
          let (l', o) := concatenation_loop rec rest (position result)
                           (push_result cs result) in
          (l ++ l', o)
      | (l, Return None) => (l, Return None)
      | (l, Throw e) => (l, Throw e)
      | (l, OutOfFuel) => (l, OutOfFuel)
      end
  end.

Fixpoint repetition_loop (rec : TMatcher) (max : option N) (element : Expression)
         (k : nat) (repChildren : list ParseNode) (repPos : nat) (count : N)
  : Log * Outcome (list ParseNode * nat * N) :=
  match k with
  | 0 => ([], OutOfFuel)
  | S k' =>
      if below_max count max then
        match rec repPos element with
        | (l, Return (Some result)) =>
            let (l', o) := repetition_loop rec max element k'
                             (push_result repChildren result) (position result)
                             (increment count) in
            (l ++ l', o)
        | (l, Return None) => (l, Return (repChildren, repPos, count))
        | (l, Throw e) => (l, Throw e)
        | (l, OutOfFuel) => (l, OutOfFuel)
        end
      else ([], Return (repChildren, repPos, count))
  end.

Definition parseRule_with (rec : TMatcher) (pos : nat) (ruleName : jsstring)
  : Log * Outcome (option RuleResult) :=
  match map_get the_rules ruleName with
  | None => ([ruleName], Throw (UnknownRule ruleName))
  | Some rule =>
      let (l, o) := rec pos rule in
      (ruleName :: l,
       match o with
       | Return (Some result) =>
           Return (Some
             {| rule_node :=
                  {| node_type := ruleName;
                     node_value := slice input pos (position result);
                     node_start := pos;
                     node_end := position result;
                     node_children :=
                       match children result with Some cs => cs | None => [] end |};
                rule_position := position result |})
       | Return None => Return None
       | Throw e => Throw e
       | OutOfFuel => OutOfFuel
       end)
  end.

Fixpoint parseExpression (fuel : nat) (pos : nat) (expression : Expression)
  : Log * Outcome (option MatchResult) :=
  match fuel with
  | 0 => ([], OutOfFuel)
  | S fuel' =>
      match expression with
      | Alternation alternatives =>
          alternation_loop (parseExpression fuel') pos alternatives
      | Concatenation elements =>
          concatenation_loop (parseExpression fuel') elements pos []
      | Repetition min max element =>
          let (l, o) := repetition_loop (parseExpression fuel') max element fuel'
                          [] pos 0%N in
          (l,
           match o with
           | Return (repChildren, repPos, count) =>
               if below_min count min then Return None
               else Return (Some {| node := None; children := Some repChildren;
                                    position := repPos |})
           | Throw e => Throw e
           | OutOfFuel => OutOfFuel
           end)
      | Optional element =>
          let (l, o) := parseExpression fuel' pos element in
          (l,
           match o with
           | Return (Some optResult) => Return (Some optResult)
           | Return None => Return (Some (empty_match pos))
           | Throw e => Throw e
           | OutOfFuel => OutOfFuel
           end)
      | NonTerminal name =>
          let (l, o) := parseRule_with (parseExpression fuel') pos name in
          (l,
           match o with
           | Return (Some r) => Return (Some (as_match r))
           | Return None => Return None
           | Throw e => Throw e
           | OutOfFuel => OutOfFuel
           end)
      | Terminal _ | CharacterRange _ _ | Empty =>
          ([], Engine.parseExpression the_rules input 1 pos expression)
      end
  end.

Definition parseRule (fuel : nat) (pos : nat) (ruleName : jsstring)
  : Log * Outcome (option RuleResult) :=
  parseRule_with (parseExpression fuel) pos ruleName.

End WithInput.

(** The names looked up during [parse(input)]. *)
Definition parse_log (fuel : nat) (p : EBNFParser) (input : jsstring) : Log :=
  match startRule p with
  | None | Some [] => []
  | Some start => fst (parseRule (rules p) input fuel 0 start)
  end.

End Traced.

(* ================================================================= *)
(** ** Vocabulary of the properties *)

(** *** Nodes and spans *)

(** A node and all its descendants. *)
Fixpoint subnodes (n : ParseNode) : list ParseNode :=
  n :: flat_map subnodes (node_children n).

(** The nodes a match result carries, with their descendants. *)
Definition result_nodes (r : MatchResult) : list ParseNode :=
  flat_map subnodes
    (match node r with Some n => [n] | None => [] end
       ++ match children r with Some cs => cs | None => [] end).

(** [value == input[start:end]] and [start <= end]. *)
Definition span_ok (input : jsstring) (n : ParseNode) : Prop :=
  node_value n = slice input (node_start n) (node_end n)
  /\ node_start n <= node_end n.

Definition nodes_ok (input : jsstring) (ns : list ParseNode) : Prop :=
  Forall (span_ok input) (flat_map subnodes ns).

(** What holds of a successful match from [pos]. *)
Definition good (input : jsstring) (pos : nat) (r : MatchResult) : Prop :=
  pos <= position r /\ Forall (span_ok input) (result_nodes r).

(** *** Outcomes *)

(** [refines a b]: [a] is [b], or ran out of fuel. *)
Definition refines {A : Type} (a b : Outcome A) : Prop :=
  a = OutOfFuel \/ a = b.

(** [Evaluates ... pos e o]: matching [e] at [pos] ends with [o]. *)
Definition Evaluates (the_rules : RuleMap) (input : jsstring) (pos : nat)
           (e : Expression) (o : Outcome (option MatchResult)) : Prop :=
  exists fuel, Engine.parseExpression the_rules input fuel pos e = o /\ o <> OutOfFuel.

(** A set of positions that the element never leaves and at which it
    never fails nor throws. *)
Definition never_fails_on (the_rules : RuleMap) (input : jsstring)
           (P : nat -> Prop) (element : Expression) : Prop :=
  forall fuel pos, P pos ->
    Engine.parseExpression the_rules input fuel pos element = OutOfFuel
    \/ exists r, Engine.parseExpression the_rules input fuel pos element
                 = Return (Some r)
                 /\ P (position r).

(** Every absent name in the log is the one the outcome throws. *)
Definition throws_unknown (the_rules : RuleMap) {A : Type}
           (lo : Traced.Log * Outcome A) : Prop :=
  forall name, In name (fst lo) -> map_get the_rules name = None ->
               snd lo = Throw (UnknownRule name).

Definition is_leaf (e : Expression) : bool :=
  match e with
  | Terminal _ | CharacterRange _ _ | NonTerminal _ => true
  | _ => false
  end.

(** *** Lines and rules *)

Definition total_length (l : list jsstring) : nat := list_sum (map (@length _) l).

Definition tok_weight (st : Compiler.TokenizeState) : nat :=
  total_length (Compiler.tokens st) + length (Compiler.current st).

Definition split_weight (st : Compiler.SplitState) : nat :=
  total_length (Compiler.parts st) + length (Compiler.s_current st).

Definition assign_operators : list jsstring := [str "::="; str ":="; [8594%N]].

(** A line of the form identifier, assign operator, definition: the
    language of the rule pattern, stated without the matcher. *)
Definition RuleLine (line : jsstring) : Prop :=
  exists name ws1 op ws2 definition,
    line = name ++ ws1 ++ op ++ ws2 ++ definition
    /\ is_identifier name = true
    /\ forallb is_whitespace ws1 = true
    /\ In op assign_operators
    /\ forallb is_whitespace ws2 = true
    /\ definition <> []
    /\ forallb any_char definition = true.

(** The rule names [parseGrammar] registers, in the order of the lines. *)
Definition registered (lines : list jsstring) : list jsstring :=
  flat_map (fun line => match ruleMatch line with
                        | Some (name, _) => [name]
                        | None => []
                        end) lines.

(** The start rule is the first key of the map, and is not the empty
    string. *)
Definition consistent (p : EBNFParser) : Prop :=
  hd_error (map_keys (rules p)) = startRule p /\ startRule p <> Some [].

(** *** Grammars and inputs of the examples *)

Definition quoted (s : string) : jsstring := [DQUOTE] ++ str s ++ [DQUOTE].
Definition newline : jsstring := [10%N].

(** [a ::= "x"] *)
Definition grammar_a : jsstring := str "a ::= " ++ quoted "x".
Definition parser_a : EBNFParser :=
  {| rules := [(str "a", Terminal (str "x"))]; startRule := Some (str "a") |}.

(** [number ::= digit+] with [digit ::= [0-9]] *)
Definition grammar_digits : jsstring :=
  str "number ::= digit+" ++ newline ++ str "digit ::= [0-9]".
Definition parser_digits : EBNFParser :=
  {| rules := [(str "number", Repetition (Some 1%N) None (NonTerminal (str "digit")));
               (str "digit", Optional (CharacterRange (str "0") (Some (str "9"))))];
     startRule := Some (str "number") |}.

(** [number ::= digit+] with [digit ::= 0-9] *)
Definition grammar_digits_range : jsstring :=
  str "number ::= digit+" ++ newline ++ str "digit ::= 0-9".
Definition parser_digits_range : EBNFParser :=
  {| rules := [(str "number", Repetition (Some 1%N) None (NonTerminal (str "digit")));
               (str "digit", CharacterRange (str "0") (Some (str "9")))];
     startRule := Some (str "number") |}.

Definition digit_node (c : string) (i : nat) : ParseNode :=
  {| node_type := str "digit"; node_value := str c;
     node_start := i; node_end := i + 1; node_children := [] |}.

(** [g ::= "hello" | "hi"] *)
Definition grammar_greeting : jsstring :=
  str "g ::= " ++ quoted "hello" ++ str " | " ++ quoted "hi".
Definition parser_greeting : EBNFParser :=
  {| rules := [(str "g", Alternation [Terminal (str "hello"); Terminal (str "hi")])];
     startRule := Some (str "g") |}.

Definition terminal_result (v : string) (p : nat) : MatchResult :=
  {| node := Some {| node_type := str "terminal"; node_value := str v;
                     node_start := p; node_end := p + String.length v;
                     node_children := [] |};
     children := None;
     position := p + String.length v |}.

(** *** Layout of the children *)

(** [tiles p q ns]: the nodes [ns] follow one another from [p] to [q]
    without gap or overlap. *)
Fixpoint tiles (p q : nat) (ns : list ParseNode) : Prop :=
  match ns with
  | [] => p = q
  | n :: ns' => node_start n = p /\ tiles (node_end n) q ns'
  end.

(** A node has no child, or its children tile its span. *)
Definition children_tile (n : ParseNode) : Prop :=
  node_children n = [] \/ tiles (node_start n) (node_end n) (node_children n).

(** A match result from [pos] has a [node] spanning the match, or
    [children] tiling it, never both. *)
Definition shaped (pos : nat) (r : MatchResult) : Prop :=
  match node r, children r with
  | Some n, None => node_start n = pos /\ node_end n = position r
  | None, Some cs => tiles pos (position r) cs
  | _, _ => False
  end.

(** A match that returned a result, as opposed to [null], an
    exception or no return at all. *)
Definition succeeded (o : Outcome (option MatchResult)) : bool :=
  match o with
  | Return (Some _) => true
  | _ => false
  end.

(** What the induction on the engine carries: the end stays inside
    the input, the result has one of its two shapes, and every node
    below has its children in order. *)
Definition laid_out (input : jsstring) (pos : nat) (r : MatchResult) : Prop :=
  (pos <= length input -> position r <= length input)
  /\ shaped pos r
  /\ Forall children_tile (result_nodes r).

Definition children_laid_out (input : jsstring) (pos0 cur : nat)
           (cs : list ParseNode) : Prop :=
  tiles pos0 cur cs /\ Forall children_tile (flat_map subnodes cs).

Definition number_node : ParseNode :=
  {| node_type := str "number"; node_value := str "123";
     node_start := 0; node_end := 3;
     node_children := [digit_node "1" 0; digit_node "2" 1; digit_node "3" 2] |}.

(** *** Occurrences *)

(** [v] occurs in [input] at offset [pos]. *)
Definition occurs_at (input : jsstring) (pos : nat) (v : jsstring) : Prop :=
  exists pre post, input = pre ++ v ++ post /\ length pre = pos.

(** The leaf node of a terminal or character match. *)
Definition leaf_result (tag : string) (v : jsstring) (pos : nat) : MatchResult :=
  {| node := Some {| node_type := str tag; node_value := v;
                     node_start := pos; node_end := pos + length v;
                     node_children := [] |};
     children := None;
     position := pos + length v |}.

(** *** Characters that are not white space *)

Definition visible (s : jsstring) : jsstring :=
  filter (fun c => negb (is_whitespace c)) s.

(** The text [tokenize] holds at a point of its loop: the tokens so
    far, then [current]. *)
Definition tok_text (st : Compiler.TokenizeState) : jsstring :=
  concat (Compiler.tokens st) ++ Compiler.current st.

(** *** The cases of [parseElement]

    [parseElement] on a trimmed text, with its tests on the first and
    the last character written as comparisons of these characters. *)
Definition classify (rec : jsstring -> option Expression) (text : jsstring)
           (a d : code_unit) : option Expression :=
  if N.eqb 42 d then option_map (Repetition (Some 0%N) None) (rec (drop_last text))
  else if N.eqb 43 d then option_map (Repetition (Some 1%N) None) (rec (drop_last text))
  else if N.eqb 63 d then option_map Optional (rec (drop_last text))
  else
    match repetitionMatch text with
    | Some (element, min, max) =>
        option_map (Repetition (Compiler.bound_min min) (Compiler.bound_max min max))
                   (rec element)
    | None =>
        if N.eqb 40 a && N.eqb 41 d then
          Compiler.parseAlternation_with rec (strip_ends text)
        else if N.eqb 91 a && N.eqb 93 d then
          option_map Optional (Compiler.parseAlternation_with rec (strip_ends text))
        else if N.eqb 123 a && N.eqb 125 d then
          option_map (Repetition (Some 0%N) None)
                     (Compiler.parseAlternation_with rec (strip_ends text))
        else if (N.eqb DQUOTE a && N.eqb DQUOTE d)
                || (N.eqb SQUOTE a && N.eqb SQUOTE d) then
          Some (Terminal (strip_ends text))
        else if includes text 45%N && Nat.eqb (length text) 3 then
          Some (Compiler.char_range text)
        else if str_eqb text (str "empty") || str_eqb text [949%N]
                || str_eqb text (str "epsilon") then
          Some Empty
        else if is_identifier text then
          Some (NonTerminal text)
        else Some (Terminal text)
    end.

(** *** The rules of a grammar text *)

(** The definition text of the last line that defines [name]. *)
Fixpoint last_definition (lines : list jsstring) (name : jsstring) : option jsstring :=
  match lines with
  | [] => None
  | line :: rest =>
      match last_definition rest name with
      | Some d => Some d
      | None =>
          match ruleMatch line with
          | Some (n, d) => if str_eqb n name then Some d else None
          | None => None
          end
      end
  end.

(** A list of names without its repetitions, each name at the place
    of its first occurrence. *)
Fixpoint first_occurrences (names : list jsstring) : list jsstring :=
  match names with
  | [] => []
  | n :: rest => n :: filter (fun m => negb (str_eqb n m)) (first_occurrences rest)
  end.

(** The keys of a [Map] after [set]: a new key goes to the end. *)
Definition add_key (ks : list jsstring) (k : jsstring) : list jsstring :=
  if existsb (str_eqb k) ks then ks else ks ++ [k].

(** *** Comments *)

Definition CR : code_unit := 13%N.

(** A marker of line comments: [//] or [#]. *)
Definition line_marker (m : jsstring) : Prop := m = str "//" \/ m = str "#".

(** No position of [body] is the start of [p] in [body ++ tail]. *)
Fixpoint free_of (p body tail : jsstring) : bool :=
  match body with
  | [] => true
  | _ :: b => negb (startsWith (body ++ tail) p) && free_of p b tail
  end.

(** No comment starts inside [body] when [tail] follows it: neither
    marker of line comments and no opening bracket of a block
    comment. *)
Definition comment_free (body tail : jsstring) : bool :=
  free_of (str "//") body tail && free_of (str "#") body tail
  && free_of COMMENT_OPEN body tail.

(** What may follow the text of a line: nothing, or a line comment,
    that is a marker and then characters other than line terminators
    up to the end of the line. *)
Definition line_comment (tail : jsstring) : Prop :=
  tail = []
  \/ exists m rest, line_marker m /\ tail = m ++ rest /\ forallb any_char rest = true.

(** A line that holds comments only: white space, block comments
    closed on the line ([body] runs up to the first closing bracket)
    and, at the end, possibly a line comment. *)
Inductive CommentOnly : jsstring -> Prop :=
| blank_line ws :
    forallb is_whitespace ws = true -> CommentOnly ws
| closed_comment ws body rest :
    forallb is_whitespace ws = true ->
    forallb any_char body = true ->
    free_of COMMENT_CLOSE body (COMMENT_CLOSE ++ rest) = true ->
    CommentOnly rest ->
    CommentOnly (ws ++ COMMENT_OPEN ++ body ++ COMMENT_CLOSE ++ rest)
| commented_line ws m rest :
    forallb is_whitespace ws = true -> line_marker m ->
    forallb any_char rest = true ->
    CommentOnly (ws ++ m ++ rest).

(** Compilation returns a parser whose list of rule names is not
    empty and whose start rule is the first name registered, which is
    also the first name of the list. *)
Definition compiles_from_first_rule (grammarText : jsstring) : Prop :=
  exists p first,
    Compiler.parseGrammar grammarText = Return p
    /\ map_keys (rules p) <> []
    /\ hd_error (registered (Compiler.grammar_lines grammarText)) = Some first
    /\ startRule p = Some first
    /\ hd_error (map_keys (rules p)) = Some first.

(** [a ::= # x]: a definition that is a comment. *)
Definition grammar_commented : jsstring := str "a ::= # x".

(** A block comment over two lines, the second of which reads
    [b ::= c] up to the closing bracket. *)
Definition grammar_block_comment : jsstring :=
  COMMENT_OPEN ++ str " a" ++ newline ++ str "b ::= c " ++ COMMENT_CLOSE.

(* ================================================================= *)
(** ** Basic facts on strings *)

Lemma str_eqb_eq (a b : jsstring) : str_eqb a b = true <-> a = b.
Proof.
  revert b; induction a as [|x a IH]; intros [|y b]; simpl; split; intro H;
    try reflexivity; try discriminate.
  - apply andb_true_iff in H as [Hx Hab].
    apply N.eqb_eq in Hx. apply IH in Hab. congruence.
  - injection H as -> ->. rewrite N.eqb_refl. simpl. now apply IH.
Qed.

Lemma str_eqb_refl (a : jsstring) : str_eqb a a = true.
Proof. now apply str_eqb_eq. Qed.

Lemma slice_length_le (s : jsstring) (a b : nat) : length (slice s a b) <= b - a.
Proof. unfold slice. rewrite length_firstn. lia. Qed.

Lemma slice_one (s : jsstring) (p : nat) (c : code_unit) :
  char_at s p = Some c -> slice s p (p + 1) = [c].
Proof.
  unfold slice, char_at. replace (p + 1 - p) with 1 by lia.
  revert p; induction s as [|x s IH]; intros [|p]; simpl; intro H;
    try discriminate.
  - now injection H as ->.
  - now apply IH.
Qed.

(* ================================================================= *)
(** ** Facts on the match engine *)

Module EngineFacts.
Import Engine.

Lemma refines_refl {A : Type} (a : Outcome A) : refines a a.
Proof. now right. Qed.

#[local] Hint Resolve refines_refl : core.

Ltac out_of_fuel := solve [ now left ].

Section Monotone.

Variable the_rules : RuleMap.
Variable input : jsstring.
Variables rec rec' : Matcher.
Hypothesis Hrec : forall p e, refines (rec p e) (rec' p e).

Lemma alternation_loop_mono pos alts :
  refines (alternation_loop rec pos alts) (alternation_loop rec' pos alts).
Proof.
  induction alts as [|a alts IH]; simpl; auto.
  destruct (Hrec pos a) as [H|H]; rewrite H; [out_of_fuel|].
  destruct (rec' pos a) as [[r|]| |]; auto.
Qed.

Lemma concatenation_loop_mono elements pos cs :
  refines (concatenation_loop rec elements pos cs)
          (concatenation_loop rec' elements pos cs).
Proof.
  revert pos cs; induction elements as [|e els IH]; intros pos cs; simpl; auto.
  destruct (Hrec pos e) as [H|H]; rewrite H; [out_of_fuel|].
  destruct (rec' pos e) as [[r|]| |]; auto.
Qed.

Lemma repetition_loop_mono max element k k' cs pos count :
  k <= k' ->
  refines (repetition_loop rec max element k cs pos count)
          (repetition_loop rec' max element k' cs pos count).
Proof.
  revert k' cs pos count; induction k as [|k IH]; intros k' cs pos count Hk;
    [out_of_fuel|].
  destruct k' as [|k']; [lia|]. simpl.
  destruct (below_max count max); auto.
  destruct (Hrec pos element) as [H|H]; rewrite H; [out_of_fuel|].
  destruct (rec' pos element) as [[r|]| |]; auto.
  apply IH. lia.
Qed.

Lemma parseRule_with_mono pos name :
  refines (parseRule_with the_rules input rec pos name)
          (parseRule_with the_rules input rec' pos name).
Proof.
  unfold parseRule_with. destruct (map_get the_rules name) as [rule|]; auto.
  destruct (Hrec pos rule) as [H|H]; rewrite H; [out_of_fuel|]. auto.
Qed.

End Monotone.

(** More fuel never changes a result that was reached. *)
Lemma parseExpression_mono the_rules input fuel fuel' pos e :
  fuel <= fuel' ->
  refines (parseExpression the_rules input fuel pos e)
          (parseExpression the_rules input fuel' pos e).
Proof.
  revert fuel' pos e; induction fuel as [|fuel IH]; intros fuel' pos e Hle;
    [out_of_fuel|].
  destruct fuel' as [|fuel']; [lia|].
  assert (Hrec : forall p x,
             refines (parseExpression the_rules input fuel p x)
                     (parseExpression the_rules input fuel' p x))
    by (intros; apply IH; lia).
  destruct e as [alts|els|mn mx el|el|v|lo hi|name|]; simpl; auto.
  - now apply alternation_loop_mono.
  - now apply concatenation_loop_mono.
  - destruct (repetition_loop_mono _ _ Hrec mx el fuel fuel' [] pos 0%N
                  ltac:(lia)) as [H|H]; rewrite H; [out_of_fuel|auto].
  - destruct (Hrec pos el) as [H|H]; rewrite H; [out_of_fuel|auto].
  - destruct (parseRule_with_mono the_rules input _ _ Hrec pos name) as [H|H];
      rewrite H; [out_of_fuel|auto].
Qed.

Lemma parseRule_mono the_rules input fuel fuel' pos name :
  fuel <= fuel' ->
  refines (parseRule the_rules input fuel pos name)
          (parseRule the_rules input fuel' pos name).
Proof.
  intro Hle. apply parseRule_with_mono.
  intros; now apply parseExpression_mono.
Qed.

Lemma parse_mono fuel fuel' p input :
  fuel <= fuel' -> refines (parse fuel p input) (parse fuel' p input).
Proof.
  intro Hle. unfold parse.
  destruct (startRule p) as [[|c s]|]; auto.
  destruct (parseRule_mono (rules p) input _ _ 0 (c :: s) Hle) as [H|H];
    rewrite H; [out_of_fuel|auto].
Qed.

(** A result reached with some fuel is the result with any larger
    amount. *)
Lemma parseExpression_stable the_rules input fuel fuel' pos e o :
  parseExpression the_rules input fuel pos e = o -> o <> OutOfFuel ->
  fuel <= fuel' -> parseExpression the_rules input fuel' pos e = o.
Proof.
  intros H Ho Hle.
  destruct (parseExpression_mono the_rules input _ _ pos e Hle) as [H'|H'];
    congruence.
Qed.

(** *** Spans of the nodes *)

Section Spans.

Variable the_rules : RuleMap.
Variable input : jsstring.

Lemma nodes_ok_app ns ms : nodes_ok input ns -> nodes_ok input ms -> nodes_ok input (ns ++ ms).
Proof.
  unfold nodes_ok. intros Hn Hm. rewrite flat_map_app.
  apply Forall_app. now split.
Qed.

Lemma push_result_ok cs r :
  nodes_ok input cs -> Forall (span_ok input) (result_nodes r) ->
  nodes_ok input (push_result cs r).
Proof.
  intros Hcs Hr. unfold push_result. apply nodes_ok_app; assumption.
Qed.

Section Loops.

Variable rec : Matcher.
Hypothesis Hrec : forall p e r, rec p e = Return (Some r) -> good input p r.

Lemma alternation_loop_good pos alts r :
  alternation_loop rec pos alts = Return (Some r) -> good input pos r.
Proof.
  induction alts as [|a alts IH]; simpl; [discriminate|].
  destruct (rec pos a) as [[r'|]| |] eqn:E; try discriminate; auto.
  intro H; injection H as <-. eauto.
Qed.

Lemma concatenation_loop_good elements pos cs r :
  concatenation_loop rec elements pos cs = Return (Some r) ->
  nodes_ok input cs -> good input pos r.
Proof.
  revert pos cs; induction elements as [|e els IH]; intros pos cs; simpl.
  - intro H; injection H as <-. intro Hcs. split; simpl; [lia|].
    unfold result_nodes; simpl. exact Hcs.
  - destruct (rec pos e) as [[r'|]| |] eqn:E; try discriminate.
    intros H Hcs. destruct (Hrec _ _ _ E) as [Hpos Hr'].
    destruct (IH _ _ H (push_result_ok _ _ Hcs Hr')) as [Hpos' Hr].
    split; [lia|assumption].
Qed.

Lemma repetition_loop_good max element k cs pos count cs' pos' count' :
  repetition_loop rec max element k cs pos count = Return (cs', pos', count') ->
  nodes_ok input cs -> pos <= pos' /\ nodes_ok input cs'.
Proof.
  revert cs pos count; induction k as [|k IH]; intros cs pos count; simpl;
    [discriminate|].
  destruct (below_max count max).
  - destruct (rec pos element) as [[r|]| |] eqn:E; try discriminate.
    + intros H Hcs. destruct (Hrec _ _ _ E) as [Hpos Hr].
      destruct (IH _ _ _ H (push_result_ok _ _ Hcs Hr)) as [Hpos' Hcs'].
      split; [lia|assumption].
    + intro H; injection H as <- <- <-. auto.
  - intro H; injection H as <- <- <-. auto.
Qed.

Lemma parseRule_with_good pos name r :
  parseRule_with the_rules input rec pos name = Return (Some r) ->
  pos <= rule_position r /\ Forall (span_ok input) (subnodes (rule_node r)).
Proof.
  unfold parseRule_with.
  destruct (map_get the_rules name) as [rule|]; [|discriminate].
  destruct (rec pos rule) as [[r'|]| |] eqn:E; try discriminate.
  intro H; injection H as <-. destruct (Hrec _ _ _ E) as [Hpos Hr'].
  split; [exact Hpos|]. simpl. constructor.
  - split; simpl; [reflexivity|exact Hpos].
  - unfold result_nodes in Hr'. rewrite flat_map_app in Hr'.
    apply Forall_app in Hr' as [_ Hc].
    destruct (children r'); simpl; [exact Hc|constructor].
Qed.

End Loops.

Lemma parseExpression_good fuel pos e r :
  parseExpression the_rules input fuel pos e = Return (Some r) -> good input pos r.
Proof.
  revert pos e r; induction fuel as [|fuel IH]; intros pos e r; [discriminate|].
  destruct e as [alts|els|mn mx el|el|v|lo hi|name|]; simpl.
  - apply alternation_loop_good. exact IH.
  - intro H. eapply concatenation_loop_good; eauto. constructor.
  - destruct (repetition_loop _ _ _ _ _ _ _) as [[[cs' pos'] count']| |] eqn:E;
      try discriminate.
    destruct (below_min count' mn); [discriminate|].
    intro H; injection H as <-.
    destruct (repetition_loop_good _ IH _ _ _ _ _ _ _ _ _ E) as [Hpos Hcs];
      [constructor|].
    split; [exact Hpos|exact Hcs].
  - destruct (parseExpression _ _ fuel pos el) as [[r'|]| |] eqn:E;
      try discriminate; intro H; injection H as <-.
    + eauto.
    + split; simpl; [lia|constructor].
  - destruct (str_eqb _ v) eqn:E; [|discriminate].
    intro H; injection H as <-. apply str_eqb_eq in E.
    split; simpl; [lia|]. unfold result_nodes; simpl.
    repeat constructor; simpl; [now symmetry|lia].
  - destruct (char_at input pos) as [c|] eqn:E; [|discriminate].
    destruct (in_range c lo hi); [|discriminate].
    intro H; injection H as <-.
    split; simpl; [lia|]. unfold result_nodes; simpl.
    repeat constructor; simpl; [symmetry; now apply slice_one|lia].
  - destruct (parseRule_with _ _ _ pos name) as [[rr|]| |] eqn:E;
      try discriminate.
    intro H; injection H as <-.
    destruct (parseRule_with_good _ IH _ _ _ E) as [Hpos Hn].
    split; [exact Hpos|]. unfold result_nodes; simpl.
    rewrite app_nil_r. exact Hn.
  - intro H; injection H as <-. split; simpl; [lia|constructor].
Qed.

Lemma parseRule_good fuel pos name r :
  parseRule the_rules input fuel pos name = Return (Some r) ->
  pos <= rule_position r /\ Forall (span_ok input) (subnodes (rule_node r)).
Proof.
  apply parseRule_with_good. intros p e r'. apply parseExpression_good.
Qed.

End Spans.

Lemma parse_good fuel p input root :
  parse fuel p input = Return root -> Forall (span_ok input) (subnodes root).
Proof.
  unfold parse. destruct (startRule p) as [[|c s]|]; try discriminate.
  destruct (parseRule _ _ _ _ _) as [[r|]| |] eqn:E; try discriminate.
  destruct (Nat.ltb _ _); [discriminate|].
  intro H; injection H as <-. now apply parseRule_good in E.
Qed.

(** *** Ordered choice *)

Section Alternation.

Variable rec : Matcher.

Lemma alternation_loop_first pos pre a post r :
  Forall (fun e => rec pos e = Return None) pre ->
  rec pos a = Return (Some r) ->
  alternation_loop rec pos (pre ++ a :: post) = Return (Some r).
Proof.
  intros Hpre Ha. induction Hpre as [|e pre He _ IH]; simpl.
  - now rewrite Ha.
  - now rewrite He.
Qed.

Lemma alternation_loop_none pos alts :
  alternation_loop rec pos alts = Return None <->
  Forall (fun e => rec pos e = Return None) alts.
Proof.
  induction alts as [|a alts IH]; simpl.
  - split; [constructor|reflexivity].
  - destruct (rec pos a) as [[r|]| |] eqn:E; split; intro H;
      try discriminate; try (inversion H; congruence).
    + constructor; [assumption|now apply IH].
    + inversion H; subst. now apply IH.
Qed.

Lemma alternation_loop_some pos alts r :
  alternation_loop rec pos alts = Return (Some r) ->
  exists pre a post,
    alts = pre ++ a :: post
    /\ Forall (fun e => rec pos e = Return None) pre
    /\ rec pos a = Return (Some r).
Proof.
  induction alts as [|a alts IH]; simpl; [discriminate|].
  destruct (rec pos a) as [[r'|]| |] eqn:E; try discriminate.
  - intro H; injection H as <-. exists [], a, alts. repeat split; auto.
  - intro H. destruct (IH H) as (pre & b & post & -> & Hpre & Hb).
    exists (a :: pre), b, post. repeat split; auto.
Qed.

End Alternation.

Lemma common_fuel the_rules input pos (l : list Expression) :
  Forall (fun e => Evaluates the_rules input pos e (Return None)) l ->
  exists fuel,
    Forall (fun e => parseExpression the_rules input fuel pos e = Return None) l.
Proof.
  induction 1 as [|e l (f & He & _) _ (g & Hl)].
  - exists 0. constructor.
  - exists (Nat.max f g). constructor.
    + apply (parseExpression_stable _ _ f); [exact He|discriminate|lia].
    + eapply Forall_impl; [|exact Hl]. intros x Hx.
      apply (parseExpression_stable _ _ g); [exact Hx|discriminate|lia].
Qed.

(** *** Repetitions that never end *)

Section Divergence.

Variable the_rules : RuleMap.
Variable input : jsstring.

Lemma repetition_loop_diverges P element fuel :
  never_fails_on the_rules input P element ->
  forall k cs pos count, P pos ->
    repetition_loop (parseExpression the_rules input fuel) None element k cs pos count
    = OutOfFuel.
Proof.
  intros Hel. induction k as [|k IH]; intros cs pos count Hpos; simpl;
    [reflexivity|].
  destruct (Hel fuel pos Hpos) as [H|(r & H & Hr)]; rewrite H;
    [reflexivity|]. now apply IH.
Qed.

Lemma repetition_diverges P mn element pos :
  never_fails_on the_rules input P element -> P pos ->
  forall fuel,
    parseExpression the_rules input fuel pos (Repetition mn None element) = OutOfFuel.
Proof.
  intros Hel Hpos [|fuel]; simpl; [reflexivity|].
  now rewrite (repetition_loop_diverges P element fuel Hel).
Qed.

(** An [Optional] fails only when its element throws. *)
Lemma optional_never_fails element :
  (forall fuel pos e,
      parseExpression the_rules input fuel pos element <> Throw e) ->
  never_fails_on the_rules input (fun _ => True) (Optional element).
Proof.
  intros Hno [|fuel] pos _; simpl; [now left|].
  destruct (parseExpression the_rules input fuel pos element) as [[r|]| |] eqn:E.
  - right; eauto.
  - right; eauto.
  - now apply Hno in E.
  - now left.
Qed.

Lemma terminal_no_throw v fuel pos e :
  parseExpression the_rules input fuel pos (Terminal v) <> Throw e.
Proof.
  destruct fuel; simpl; [discriminate|].
  destruct (str_eqb _ v); discriminate.
Qed.

Lemma character_range_no_throw lo hi fuel pos e :
  parseExpression the_rules input fuel pos (CharacterRange lo hi) <> Throw e.
Proof.
  destruct fuel; simpl; [discriminate|].
  destruct (char_at input pos); [|discriminate].
  destruct (in_range _ lo hi); discriminate.
Qed.

Lemma repetition_loop_no_throw (rec : Matcher) mx element :
  (forall pos e, rec pos element <> Throw e) ->
  forall k cs pos count e,
    repetition_loop rec mx element k cs pos count <> Throw e.
Proof.
  intros Hno. induction k as [|k IH]; intros cs pos count e; simpl;
    [discriminate|].
  destruct (below_max count mx); [|discriminate].
  destruct (rec pos element) as [[r|]| |] eqn:E; try discriminate.
  - apply IH.
  - intro H; injection H as ->. now apply Hno in E.
Qed.

(** A repetition with [min = 0] fails only when its element throws. *)
Lemma repetition_min0_never_fails mx element :
  (forall fuel pos e,
      parseExpression the_rules input fuel pos element <> Throw e) ->
  never_fails_on the_rules input (fun _ => True) (Repetition (Some 0%N) mx element).
Proof.
  intros Hno [|fuel] pos _; simpl; [now left|].
  destruct (repetition_loop _ mx element fuel [] pos 0%N)
    as [[[cs p] c]| |] eqn:E.
  - right. rewrite (proj2 (N.ltb_ge c 0%N) (N.le_0_l c)). eauto.
  - now apply repetition_loop_no_throw in E.
  - now left.
Qed.

End Divergence.

(** *** The log of rule lookups *)

Section Log.

Variable the_rules : RuleMap.
Variable input : jsstring.

Section Erase.

Variable trec : Traced.TMatcher.
Variable rec : Matcher.
Hypothesis Hrec : forall p e, snd (trec p e) = rec p e.

Lemma alternation_loop_erase pos alts :
  snd (Traced.alternation_loop trec pos alts) = alternation_loop rec pos alts.
Proof.
  induction alts as [|a alts IH]; simpl; [reflexivity|].
  rewrite <- (Hrec pos a). destruct (trec pos a) as [l [[r|]| |]]; simpl; auto.
  destruct (Traced.alternation_loop trec pos alts). exact IH.
Qed.

Lemma concatenation_loop_erase elements pos cs :
  snd (Traced.concatenation_loop trec elements pos cs)
  = concatenation_loop rec elements pos cs.
Proof.
  revert pos cs; induction elements as [|e els IH]; intros pos cs; simpl;
    [reflexivity|].
  rewrite <- (Hrec pos e). destruct (trec pos e) as [l [[r|]| |]]; simpl; auto.
  specialize (IH (position r) (push_result cs r)).
  destruct (Traced.concatenation_loop trec els _ _). exact IH.
Qed.

Lemma repetition_loop_erase max element k cs pos count :
  snd (Traced.repetition_loop trec max element k cs pos count)
  = repetition_loop rec max element k cs pos count.
Proof.
  revert cs pos count; induction k as [|k IH]; intros cs pos count; simpl;
    [reflexivity|].
  destruct (below_max count max); [|reflexivity].
  rewrite <- (Hrec pos element).
  destruct (trec pos element) as [l [[r|]| |]]; simpl; auto.
  specialize (IH (push_result cs r) (position r) (increment count)).
  destruct (Traced.repetition_loop trec max element k _ _ _). exact IH.
Qed.

Lemma parseRule_with_erase pos name :
  snd (Traced.parseRule_with the_rules input trec pos name)
  = parseRule_with the_rules input rec pos name.
Proof.
  unfold Traced.parseRule_with, parseRule_with.
  destruct (map_get the_rules name) as [rule|]; [|reflexivity].
  rewrite <- (Hrec pos rule). now destruct (trec pos rule).
Qed.

End Erase.

(** Dropping the log gives the engine. *)
Lemma parseExpression_erase fuel pos e :
  snd (Traced.parseExpression the_rules input fuel pos e)
  = parseExpression the_rules input fuel pos e.
Proof.
  revert pos e; induction fuel as [|fuel IH]; intros pos e; [reflexivity|].
  destruct e as [alts|els|mn mx el|el|v|lo hi|name|]; simpl; try reflexivity.
  - now apply alternation_loop_erase.
  - now apply concatenation_loop_erase.
  - rewrite <- (repetition_loop_erase _ _ IH mx el fuel [] pos 0%N).
    now destruct (Traced.repetition_loop _ mx el fuel [] pos 0%N).
  - rewrite <- (IH pos el). now destruct (Traced.parseExpression _ _ fuel pos el).
  - rewrite <- (parseRule_with_erase _ _ IH pos name).
    now destruct (Traced.parseRule_with _ _ _ pos name).
Qed.

Lemma parseRule_erase fuel pos name :
  snd (Traced.parseRule the_rules input fuel pos name)
  = parseRule the_rules input fuel pos name.
Proof. apply parseRule_with_erase. intros; apply parseExpression_erase. Qed.

Section Reach.

Variable trec : Traced.TMatcher.
Hypothesis Hrec : forall p e, throws_unknown the_rules (trec p e).

Lemma alternation_loop_reach pos alts :
  throws_unknown the_rules (Traced.alternation_loop trec pos alts).
Proof.
  induction alts as [|a alts IH]; simpl; [intros n []|].
  pose proof (Hrec pos a) as Ha.
  destruct (trec pos a) as [l [[r|]| |]]; try exact Ha.
  destruct (Traced.alternation_loop trec pos alts) as [l' o].
  intros n Hin Habs; simpl in *. apply in_app_or in Hin as [Hin|Hin].
  - now specialize (Ha n Hin Habs).
  - now apply IH.
Qed.

Lemma concatenation_loop_reach elements pos cs :
  throws_unknown the_rules (Traced.concatenation_loop trec elements pos cs).
Proof.
  revert pos cs; induction elements as [|e els IH]; intros pos cs; simpl;
    [intros n []|].
  pose proof (Hrec pos e) as He.
  destruct (trec pos e) as [l [[r|]| |]]; try exact He.
  specialize (IH (position r) (push_result cs r)).
  destruct (Traced.concatenation_loop trec els _ _) as [l' o].
  intros n Hin Habs; simpl in *. apply in_app_or in Hin as [Hin|Hin].
  - now specialize (He n Hin Habs).
  - now apply IH.
Qed.

Lemma repetition_loop_reach max element k cs pos count :
  throws_unknown the_rules (Traced.repetition_loop trec max element k cs pos count).
Proof.
  revert cs pos count; induction k as [|k IH]; intros cs pos count; simpl;
    [intros n []|].
  destruct (below_max count max); [|intros n []].
  pose proof (Hrec pos element) as He.
  destruct (trec pos element) as [l [[r|]| |]];
    try (intros n Hin Habs; specialize (He n Hin Habs); simpl in *;
         congruence).
  specialize (IH (push_result cs r) (position r) (increment count)).
  destruct (Traced.repetition_loop trec max element k _ _ _) as [l' o].
  intros n Hin Habs; simpl in *. apply in_app_or in Hin as [Hin|Hin].
  - now specialize (He n Hin Habs).
  - now apply IH.
Qed.

Lemma parseRule_with_reach pos name :
  throws_unknown the_rules (Traced.parseRule_with the_rules input trec pos name).
Proof.
  unfold Traced.parseRule_with.
  destruct (map_get the_rules name) as [rule|] eqn:E.
  - pose proof (Hrec pos rule) as Hr.
    destruct (trec pos rule) as [l o].
    intros n [<-|Hin] Habs; simpl in *; [congruence|].
    specialize (Hr n Hin Habs). simpl in Hr. now subst o.
  - intros n [<-|[]] _. reflexivity.
Qed.

End Reach.

Lemma parseExpression_reach fuel pos e :
  throws_unknown the_rules (Traced.parseExpression the_rules input fuel pos e).
Proof.
  revert pos e; induction fuel as [|fuel IH]; intros pos e; [intros n []|].
  destruct e as [alts|els|mn mx el|el|v|lo hi|name|]; simpl;
    try (intros n []).
  - now apply alternation_loop_reach.
  - now apply concatenation_loop_reach.
  - pose proof (repetition_loop_reach _ IH mx el fuel [] pos 0%N) as H.
    destruct (Traced.repetition_loop _ mx el fuel [] pos 0%N) as [l o].
    intros n Hin Habs. specialize (H n Hin Habs). simpl in *. now subst o.
  - pose proof (IH pos el) as H.
    destruct (Traced.parseExpression _ _ fuel pos el) as [l o].
    intros n Hin Habs. specialize (H n Hin Habs). simpl in *. now subst o.
  - pose proof (parseRule_with_reach _ IH pos name) as H.
    destruct (Traced.parseRule_with _ _ _ pos name) as [l o].
    intros n Hin Habs. specialize (H n Hin Habs). simpl in *. now subst o.
Qed.

Lemma parseRule_reach fuel pos name :
  throws_unknown the_rules (Traced.parseRule the_rules input fuel pos name).
Proof. apply parseRule_with_reach. intros; apply parseExpression_reach. Qed.

End Log.

End EngineFacts.

(* ================================================================= *)
(** ** Facts on the scanning functions *)

Section Scanning.

Variable p : code_unit -> bool.

Lemma takeWhile_dropWhile s : takeWhile p s ++ dropWhile p s = s.
Proof.
  induction s as [|c s IH]; simpl; [reflexivity|].
  destruct (p c); simpl; [now rewrite IH|reflexivity].
Qed.

Lemma forallb_takeWhile s : forallb p (takeWhile p s) = true.
Proof.
  induction s as [|c s IH]; simpl; [reflexivity|].
  destruct (p c) eqn:E; simpl; [now rewrite E|reflexivity].
Qed.

Lemma length_dropWhile s : length (dropWhile p s) <= length s.
Proof.
  induction s as [|c s IH]; simpl; [lia|].
  destruct (p c); simpl; lia.
Qed.

Lemma dropWhile_app s t :
  forallb p s = true -> dropWhile p (s ++ t) = dropWhile p t.
Proof.
  induction s as [|c s IH]; simpl; [reflexivity|].
  intro H. apply andb_true_iff in H as [-> H]. auto.
Qed.

Lemma takeWhile_app s t :
  forallb p s = true -> takeWhile p (s ++ t) = s ++ takeWhile p t.
Proof.
  induction s as [|c s IH]; simpl; [reflexivity|].
  intro H. apply andb_true_iff in H as [-> H]. now rewrite IH.
Qed.

Lemma dropWhile_stop c s : p c = false -> dropWhile p (c :: s) = c :: s.
Proof. simpl. now intros ->. Qed.

Lemma takeWhile_stop c s : p c = false -> takeWhile p (c :: s) = [].
Proof. simpl. now intros ->. Qed.

Lemma dropWhile_nil_forallb s : dropWhile p s = [] -> forallb p s = true.
Proof.
  induction s as [|c s IH]; simpl; [reflexivity|].
  destruct (p c); [exact IH|discriminate].
Qed.

Lemma dropWhile_nil_eq s : forallb p s = true -> dropWhile p s = [].
Proof.
  induction s as [|c s IH]; simpl; [reflexivity|].
  intro H. apply andb_true_iff in H as [-> H]. auto.
Qed.

Lemma takeWhile_all s : forallb p s = true -> takeWhile p s = s.
Proof.
  induction s as [|c s IH]; simpl; [reflexivity|].
  intro H. apply andb_true_iff in H as [-> H]. now rewrite IH.
Qed.

Lemma dropWhile_suffix s : exists pre, s = pre ++ dropWhile p s /\ forallb p pre = true.
Proof.
  exists (takeWhile p s). split; [now rewrite takeWhile_dropWhile|].
  apply forallb_takeWhile.
Qed.

End Scanning.

Lemma length_trim s : length (trim s) <= length s.
Proof.
  unfold trim. rewrite length_rev.
  etransitivity; [apply length_dropWhile|]. rewrite length_rev.
  apply length_dropWhile.
Qed.

Lemma forallb_app_iff {A : Type} (f : A -> bool) (l l' : list A) :
  forallb f (l ++ l') = true <-> forallb f l = true /\ forallb f l' = true.
Proof. rewrite forallb_app. apply andb_true_iff. Qed.

Lemma startsWith_app s t : startsWith (s ++ t) s = true.
Proof.
  induction s as [|c s IH]; simpl; [now destruct t|].
  now rewrite N.eqb_refl.
Qed.

Lemma startsWith_prefix s q : startsWith s q = true -> exists t, s = q ++ t.
Proof.
  revert s; induction q as [|x q IH]; intros s.
  - intros _. now exists s.
  - destruct s as [|y s]; simpl; [discriminate|]. intro H.
    apply andb_true_iff in H as [Hx Hq]. apply N.eqb_eq in Hx as ->.
    destruct (IH _ Hq) as [t ->]. now exists t.
Qed.

Lemma endsWith_length s q : endsWith s q = true -> length q <= length s.
Proof.
  unfold endsWith. intro H. apply startsWith_prefix in H as [t H].
  apply (f_equal (@length _)) in H. rewrite length_app, !length_rev in H. lia.
Qed.

Lemma length_drop_last s : s <> [] -> length (drop_last s) < length s.
Proof.
  unfold drop_last. intro H. rewrite length_firstn.
  destruct s; [congruence|simpl; lia].
Qed.

Lemma length_strip_ends s : 2 <= length s -> length (strip_ends s) + 2 <= length s.
Proof.
  unfold strip_ends, slice. intro H. rewrite length_firstn, length_skipn. lia.
Qed.

(* ================================================================= *)
(** ** Facts on the grammar compiler *)

Module CompilerFacts.
Import Compiler.

(** *** No piece is longer than the text it is cut from *)

Lemma total_length_app l l' : total_length (l ++ l') = total_length l + total_length l'.
Proof. unfold total_length. now rewrite map_app, list_sum_app. Qed.

Lemma total_length_one x : total_length [x] = length x.
Proof. unfold total_length. simpl. lia. Qed.

Lemma total_length_in l x : In x l -> length x <= total_length l.
Proof.
  unfold total_length. induction l as [|y l IH]; simpl; [intros []|].
  intros [->|H]; [lia|]. specialize (IH H). lia.
Qed.

Ltac weigh :=
  repeat match goal with
         | |- context [if ?b then _ else _] => destruct b
         end;
  simpl; rewrite ?total_length_app, ?total_length_one, ?length_app; simpl;
  repeat match goal with
         | |- context [length (trim ?s)] =>
             lazymatch goal with
             | _ : length (trim s) <= length s |- _ => fail
             | _ => pose proof (length_trim s)
             end
         end;
  lia.

Lemma tokenize_step_weight st c : tok_weight (tokenize_step st c) <= tok_weight st + 1.
Proof. unfold tokenize_step, tok_weight. weigh. Qed.

Lemma split_step_weight d st c : split_weight (split_step d st c) <= split_weight st + 1.
Proof. unfold split_step, split_weight. weigh. Qed.

Lemma tokenize_fold_weight text st :
  tok_weight (fold_left tokenize_step text st) <= tok_weight st + length text.
Proof.
  revert st; induction text as [|c text IH]; intro st; simpl; [lia|].
  specialize (IH (tokenize_step st c)).
  pose proof (tokenize_step_weight st c). lia.
Qed.

Lemma split_fold_weight d text st :
  split_weight (fold_left (split_step d) text st) <= split_weight st + length text.
Proof.
  revert st; induction text as [|c text IH]; intro st; simpl; [lia|].
  specialize (IH (split_step d st c)).
  pose proof (split_step_weight d st c). lia.
Qed.

Lemma tokenize_length text tok : In tok (tokenize text) -> length tok <= length text.
Proof.
  unfold tokenize.
  set (st0 := {| tokens := []; current := []; inQuotes := false;
                 quoteChar := None; groupDepth := 0 |}).
  pose proof (tokenize_fold_weight text st0) as Hw.
  unfold tok_weight in Hw; simpl in Hw.
  destruct (truthy _); intro Hin.
  - apply total_length_in in Hin. rewrite total_length_app in Hin.
    rewrite total_length_one in Hin.
    pose proof (length_trim (current (fold_left tokenize_step text st0))). lia.
  - apply total_length_in in Hin. lia.
Qed.

Lemma split_length text d part :
  In part (splitRespectingGroups text d) -> length part <= length text.
Proof.
  unfold splitRespectingGroups.
  set (st0 := {| parts := []; s_current := []; s_groupDepth := 0;
                 s_inQuotes := false; s_quoteChar := None |}).
  pose proof (split_fold_weight d text st0) as Hw.
  unfold split_weight in Hw; simpl in Hw.
  destruct (truthy _); intro Hin.
  - apply total_length_in in Hin. rewrite total_length_app in Hin.
    rewrite total_length_one in Hin.
    pose proof (length_trim (s_current (fold_left (split_step d) text st0))). lia.
  - apply total_length_in in Hin. lia.
Qed.

Lemma repetitionMatch_length text element min max :
  repetitionMatch text = Some (element, min, max) ->
  length element + 2 <= length text.
Proof.
  unfold repetitionMatch.
  destruct (rev text) as [|c r] eqn:E; [discriminate|].
  destruct (N.eqb c 125); [|discriminate].
  set (q := fun c : code_unit => negb (N.eqb c 123)).
  destruct (dropWhile q r) as [|b e] eqn:Ed; [discriminate|].
  destruct (truthy (rev e) && forallb any_char (rev e)); [|discriminate].
  destruct (match_bounds _) as [[mn mx]|]; [|discriminate].
  intro H; injection H as <- _ _. rewrite length_rev.
  apply (f_equal (@length _)) in E. rewrite length_rev in E. simpl in E.
  pose proof (takeWhile_dropWhile q r) as Hr.
  apply (f_equal (@length _)) in Hr. rewrite length_app, Ed in Hr. simpl in Hr.
  lia.
Qed.

(** *** The compiler always returns *)

Lemma map_opt_total {A B : Type} (f : A -> option B) xs :
  (forall x, In x xs -> f x <> None) -> map_opt f xs <> None.
Proof.
  induction xs as [|x xs IH]; simpl; [discriminate|].
  intro H. destruct (f x) eqn:E; [|exfalso; apply (H x); auto].
  assert (Hxs : map_opt f xs <> None) by (apply IH; auto).
  destruct (map_opt f xs); [discriminate|congruence].
Qed.

Lemma option_map_total {A B : Type} (f : A -> B) (x : option A) :
  x <> None -> option_map f x <> None.
Proof. destruct x; simpl; congruence. Qed.

Lemma parseConcatenation_with_total rec text :
  (forall tok, length tok <= length text -> rec tok <> None) ->
  parseConcatenation_with rec text <> None.
Proof.
  intro H. unfold parseConcatenation_with.
  pose proof (tokenize_length text) as Hlen.
  destruct (tokenize text) as [|e [|e' l]].
  - discriminate.
  - apply H, Hlen. now left.
  - apply option_map_total, map_opt_total. intros x Hx. apply H, Hlen, Hx.
Qed.

Lemma parseAlternation_with_total rec text :
  (forall tok, length tok <= length text -> rec tok <> None) ->
  parseAlternation_with rec text <> None.
Proof.
  intro H. unfold parseAlternation_with.
  pose proof (split_length text 124%N) as Hlen.
  assert (Hc : forall part, In part (splitRespectingGroups text 124%N) ->
                            parseConcatenation_with rec part <> None).
  { intros part Hp. apply parseConcatenation_with_total.
    intros tok Ht. apply H. specialize (Hlen part Hp). lia. }
  destruct (splitRespectingGroups text 124%N) as [|a [|a' l]].
  - discriminate.
  - apply Hc. now left.
  - apply option_map_total, map_opt_total. exact Hc.
Qed.

Lemma bracketed_length s a b :
  startsWith s [a] = true -> endsWith s [b] = true -> a <> b -> 2 <= length s.
Proof.
  intros Hs He Hab. destruct s as [|x [|y s]]; simpl; try lia.
  - discriminate.
  - unfold endsWith in He. simpl in *.
    rewrite andb_true_r in Hs, He.
    apply N.eqb_eq in Hs, He. congruence.
Qed.

Lemma parseElement_total fuel text :
  length text < fuel -> parseElement fuel text <> None.
Proof.
  revert text; induction fuel as [|fuel IH]; intros text Hlen; [lia|].
  pose proof (length_trim text) as Htrim.
  assert (Hdrop : forall suffix, endsWith (trim text) [suffix] = true ->
                    parseElement fuel (drop_last (trim text)) <> None).
  { intros suffix Hs. apply IH. apply endsWith_length in Hs. simpl in Hs.
    assert (Hne : trim text <> [])
      by (destruct (trim text); simpl in *; [lia|congruence]).
    pose proof (length_drop_last (trim text) Hne). lia. }
  assert (Hinner : forall a b, startsWith (trim text) [a] = true ->
                     endsWith (trim text) [b] = true -> a <> b ->
                     parseAlternation_with (parseElement fuel) (strip_ends (trim text))
                     <> None).
  { intros a b Ha Hb Hab. apply parseAlternation_with_total.
    intros tok Htok. apply IH.
    pose proof (bracketed_length _ _ _ Ha Hb Hab) as H2.
    pose proof (length_strip_ends _ H2). lia. }
  cbn [parseElement].
  destruct (endsWith (trim text) (str "*")) eqn:E1;
    [now apply option_map_total, (Hdrop 42%N)|].
  destruct (endsWith (trim text) (str "+")) eqn:E2;
    [now apply option_map_total, (Hdrop 43%N)|].
  destruct (endsWith (trim text) (str "?")) eqn:E3;
    [now apply option_map_total, (Hdrop 63%N)|].
  destruct (repetitionMatch (trim text)) as [[[element mn] mx]|] eqn:E4.
  { apply option_map_total, IH. apply repetitionMatch_length in E4. lia. }
  destruct (startsWith (trim text) (str "(") && endsWith (trim text) (str ")")) eqn:E5.
  { apply andb_true_iff in E5 as [Ha Hb]. now apply (Hinner 40%N 41%N). }
  destruct (startsWith (trim text) (str "[") && endsWith (trim text) (str "]")) eqn:E6.
  { apply andb_true_iff in E6 as [Ha Hb].
    now apply option_map_total, (Hinner 91%N 93%N). }
  destruct (startsWith (trim text) (str "{") && endsWith (trim text) (str "}")) eqn:E7.
  { apply andb_true_iff in E7 as [Ha Hb].
    now apply option_map_total, (Hinner 123%N 125%N). }
  repeat match goal with
         | |- context [if ?b then _ else _] => destruct b
         end; discriminate.
Qed.

Lemma parseRuleDefinition_total definition :
  parseRuleDefinition definition <> None.
Proof.
  unfold parseRuleDefinition, parseAlternation.
  apply parseAlternation_with_total. intros tok Htok.
  apply parseElement_total. lia.
Qed.
(** *** The fuel does not matter *)

Lemma map_opt_mono {A B : Type} (f g : A -> option B) xs ys :
  (forall x y, f x = Some y -> g x = Some y) ->
  map_opt f xs = Some ys -> map_opt g xs = Some ys.
Proof.
  intro Hfg. revert ys; induction xs as [|x xs IH]; intros ys; simpl; [auto|].
  destruct (f x) as [y|] eqn:E; [|discriminate].
  destruct (map_opt f xs) as [zs|]; [|discriminate].
  intro H; injection H as <-. now rewrite (Hfg _ _ E), (IH zs eq_refl).
Qed.

Lemma option_map_mono {A B : Type} (f : A -> B) (x x' : option A) y :
  (forall a, x = Some a -> x' = Some a) ->
  option_map f x = Some y -> option_map f x' = Some y.
Proof.
  intro H. destruct x as [a|]; [|discriminate]. now rewrite (H a eq_refl).
Qed.

Lemma parseConcatenation_with_mono rec rec' text e :
  (forall t x, rec t = Some x -> rec' t = Some x) ->
  parseConcatenation_with rec text = Some e ->
  parseConcatenation_with rec' text = Some e.
Proof.
  intro Hrec. unfold parseConcatenation_with.
  destruct (tokenize text) as [|t [|t' l]]; auto;
    apply option_map_mono; intro a; now apply map_opt_mono.
Qed.

Lemma parseAlternation_with_mono rec rec' text e :
  (forall t x, rec t = Some x -> rec' t = Some x) ->
  parseAlternation_with rec text = Some e ->
  parseAlternation_with rec' text = Some e.
Proof.
  intro Hrec. unfold parseAlternation_with.
  assert (Hc : forall t x, parseConcatenation_with rec t = Some x ->
                           parseConcatenation_with rec' t = Some x)
    by (intros t x; now apply parseConcatenation_with_mono).
  destruct (splitRespectingGroups text 124%N) as [|t [|t' l]]; auto;
    apply option_map_mono; intro a; now apply map_opt_mono.
Qed.

(** A result of [parseElement] is its result with any larger fuel. *)
Lemma parseElement_mono fuel fuel' text e :
  fuel <= fuel' ->
  parseElement fuel text = Some e -> parseElement fuel' text = Some e.
Proof.
  revert fuel' text e; induction fuel as [|fuel IH]; intros fuel' text e Hle;
    [discriminate|].
  destruct fuel' as [|fuel']; [lia|].
  assert (Hrec : forall t x, parseElement fuel t = Some x ->
                             parseElement fuel' t = Some x)
    by (intros t x; apply IH; lia).
  assert (Halt : forall t x,
             parseAlternation_with (parseElement fuel) t = Some x ->
             parseAlternation_with (parseElement fuel') t = Some x)
    by (intros t x; now apply parseAlternation_with_mono).
  cbn [parseElement].
  destruct (endsWith (trim text) (str "*"));
    [apply option_map_mono; intro a; apply Hrec|].
  destruct (endsWith (trim text) (str "+"));
    [apply option_map_mono; intro a; apply Hrec|].
  destruct (endsWith (trim text) (str "?"));
    [apply option_map_mono; intro a; apply Hrec|].
  destruct (repetitionMatch (trim text)) as [[[element mn] mx]|];
    [apply option_map_mono; intro a; apply Hrec|].
  destruct (startsWith (trim text) (str "(") && endsWith (trim text) (str ")"));
    [apply Halt|].
  destruct (startsWith (trim text) (str "[") && endsWith (trim text) (str "]"));
    [apply option_map_mono; intro a; apply Halt|].
  destruct (startsWith (trim text) (str "{") && endsWith (trim text) (str "}"));
    [apply option_map_mono; intro a; apply Halt|].
  auto.
Qed.

Lemma parseElement_fuel fuel fuel' text :
  length text < fuel -> length text < fuel' ->
  parseElement fuel text = parseElement fuel' text.
Proof.
  intros Hf Hf'.
  pose proof (parseElement_total fuel text Hf) as Ht.
  pose proof (parseElement_total fuel' text Hf') as Ht'.
  destruct (parseElement fuel text) as [e|] eqn:E; [|congruence].
  destruct (Nat.le_ge_cases fuel fuel') as [Hle|Hle].
  - symmetry. now apply (parseElement_mono fuel fuel').
  - destruct (parseElement fuel' text) as [e'|] eqn:E'; [|congruence].
    apply (parseElement_mono fuel' fuel _ _ Hle) in E'. congruence.
Qed.

(** *** The rule pattern *)

Lemma is_ident_char_range c : is_ident_char c = true -> (48 <= c <= 122)%N.
Proof.
  unfold is_ident_char, is_ident_start, is_digit.
  rewrite !orb_true_iff, !andb_true_iff, !N.leb_le, !N.eqb_eq. lia.
Qed.

Lemma is_whitespace_range c : is_whitespace c = true -> (c <= 32 \/ 160 <= c)%N.
Proof.
  unfold is_whitespace, is_line_terminator.
  rewrite !orb_true_iff, !andb_true_iff, !N.leb_le, !N.eqb_eq. lia.
Qed.

Lemma whitespace_not_ident c : is_whitespace c = true -> is_ident_char c = false.
Proof.
  intro H. apply is_whitespace_range in H.
  destruct (is_ident_char c) eqn:E; [|reflexivity].
  apply is_ident_char_range in E. lia.
Qed.

Lemma ident_start_char c : is_ident_start c = true -> is_ident_char c = true.
Proof. unfold is_ident_char. now intros ->. Qed.

Lemma operator_head op rest :
  In op assign_operators ->
  exists c t, op ++ rest = c :: t
              /\ is_ident_char c = false /\ is_whitespace c = false.
Proof.
  intros [<-|[<-|[<-|[]]]]; simpl; eexists _, _; repeat split; reflexivity.
Qed.

Lemma match_assign_complete op rest :
  In op assign_operators -> match_assign (op ++ rest) = Some rest.
Proof. intros [<-|[<-|[<-|[]]]]; reflexivity. Qed.

Lemma skipn_prefix (q t : jsstring) : skipn (length q) (q ++ t) = t.
Proof. induction q; simpl; auto. Qed.

Lemma match_assign_sound s rest :
  match_assign s = Some rest -> exists op, In op assign_operators /\ s = op ++ rest.
Proof.
  unfold match_assign.
  destruct (startsWith s (str "::=")) eqn:E1;
    [|destruct (startsWith s (str ":=")) eqn:E2;
      [|destruct (startsWith s [8594%N]) eqn:E3; [|discriminate]]];
    intro H; injection H as <-;
    match goal with
    | E : startsWith s ?q = true |- _ =>
        apply startsWith_prefix in E as [t ->]; exists q;
        split; [simpl; auto|]
    end; reflexivity.
Qed.

Lemma match_definition_complete ws2 definition :
  forallb is_whitespace ws2 = true -> definition <> [] ->
  forallb any_char definition = true ->
  match_definition (ws2 ++ definition) <> None.
Proof.
  intros Hws Hne Hany. unfold match_definition.
  rewrite dropWhile_app by exact Hws.
  destruct (dropWhile_suffix is_whitespace definition) as (pre & Hd & _).
  destruct (dropWhile is_whitespace definition) as [|c t].
  - rewrite rev_app_distr.
    destruct (rev definition) as [|x l] eqn:E.
    + apply (f_equal (@rev _)) in E. rewrite rev_involutive in E. now subst.
    + simpl. assert (Hx : any_char x = true).
      { rewrite forallb_forall in Hany. apply Hany, in_rev. rewrite E. now left. }
      rewrite Hx. discriminate.
  - rewrite Hd in Hany. apply forallb_app_iff in Hany as [_ ->]. discriminate.
Qed.

Lemma match_definition_sound s definition :
  match_definition s = Some definition ->
  exists ws2, s = ws2 ++ definition
              /\ forallb is_whitespace ws2 = true
              /\ definition <> []
              /\ forallb any_char definition = true.
Proof.
  unfold match_definition.
  destruct (dropWhile_suffix is_whitespace s) as (pre & Hs & Hpre).
  destruct (dropWhile is_whitespace s) as [|c t] eqn:E.
  - destruct (rev s) as [|x l] eqn:Er; [discriminate|].
    destruct (any_char x) eqn:Hx; [|discriminate].
    intro H; injection H as <-.
    apply (f_equal (@rev _)) in Er. rewrite rev_involutive in Er. simpl in Er.
    exists (rev l). repeat split; [exact Er| |discriminate|simpl; now rewrite Hx].
    apply dropWhile_nil_forallb in E. rewrite Er in E.
    now apply forallb_app_iff in E as [E _].
  - destruct (forallb any_char (c :: t)) eqn:Hany; [|discriminate].
    intro H; injection H as <-. exists pre.
    repeat split; [exact Hs|exact Hpre|discriminate|exact Hany].
Qed.

(** The matcher accepts exactly the lines of the form, and its first
    group is the identifier. *)
Lemma ruleMatch_complete line :
  RuleLine line -> ruleMatch line <> None.
Proof.
  intros (name & ws1 & op & ws2 & def & -> & Hname & Hws1 & Hop & Hws2 & Hne & Hany).
  destruct name as [|c name]; [discriminate|]. simpl in Hname.
  apply andb_true_iff in Hname as [Hc Hname].
  unfold ruleMatch. simpl app. cbv iota. rewrite Hc.
  change (c :: name ++ ws1 ++ op ++ ws2 ++ def)
    with ((c :: name) ++ ws1 ++ op ++ ws2 ++ def).
  rewrite dropWhile_app
    by (simpl; now rewrite (ident_start_char _ Hc), Hname).
  assert (Hstop : dropWhile is_ident_char (ws1 ++ op ++ ws2 ++ def)
                  = ws1 ++ op ++ ws2 ++ def).
  { destruct ws1 as [|w ws1].
    - destruct (operator_head op (ws2 ++ def) Hop) as (x & t & Hx & Hi & _).
      simpl. rewrite Hx. now apply dropWhile_stop.
    - simpl in Hws1. apply andb_true_iff in Hws1 as [Hw _].
      apply dropWhile_stop. now apply whitespace_not_ident. }
  rewrite Hstop, dropWhile_app by exact Hws1.
  assert (Hstop' : dropWhile is_whitespace (op ++ ws2 ++ def) = op ++ ws2 ++ def).
  { destruct (operator_head op (ws2 ++ def) Hop) as (x & t & Hx & _ & Hw).
    rewrite Hx. now apply dropWhile_stop. }
  rewrite Hstop', (match_assign_complete _ _ Hop).
  pose proof (match_definition_complete ws2 def Hws2 Hne Hany) as Hd.
  destruct (match_definition (ws2 ++ def)); [discriminate|congruence].
Qed.

Lemma ruleMatch_sound line name definition :
  ruleMatch line = Some (name, definition) ->
  RuleLine line /\ name <> [].
Proof.
  unfold ruleMatch. destruct line as [|c l]; [discriminate|].
  destruct (is_ident_start c) eqn:Hc; [|discriminate].
  destruct (match_assign _) as [rest|] eqn:Ea; [|discriminate].
  destruct (match_definition rest) as [d|] eqn:Ed; [|discriminate].
  intro H; injection H as Hn Hd. subst definition.
  apply match_assign_sound in Ea as (op & Hop & Ea).
  apply match_definition_sound in Ed as (ws2 & -> & Hws2 & Hne & Hany).
  destruct (dropWhile_suffix is_whitespace (dropWhile is_ident_char (c :: l)))
    as (ws1 & Hr1 & Hws1).
  rewrite Ea in Hr1.
  assert (Hname : name = c :: takeWhile is_ident_char l)
    by (rewrite <- Hn; simpl; now rewrite (ident_start_char _ Hc)).
  split; [|rewrite Hname; discriminate].
  exists name, ws1, op, ws2, d.
  repeat split; auto.
  - rewrite <- Hr1, <- Hn. symmetry.
    exact (takeWhile_dropWhile is_ident_char (c :: l)).
  - rewrite Hname. simpl. rewrite Hc. apply forallb_takeWhile.
Qed.

Lemma ruleMatch_iff line : ruleMatch line <> None <-> RuleLine line.
Proof.
  split; [|apply ruleMatch_complete].
  destruct (ruleMatch line) as [[name d]|] eqn:E; [|congruence].
  intros _. now apply ruleMatch_sound in E.
Qed.

(** The patterns on a few lines and elements. *)
Example ruleMatch_examples :
  ruleMatch (str "a ::= b") = Some (str "a", str "b")
  /\ ruleMatch (str "rule_1:=b c") = Some (str "rule_1", str "b c")
  /\ ruleMatch (str "a" ++ [8594%N] ++ str " b") = Some (str "a", str "b")
  /\ ruleMatch (str "a = b") = None
  /\ ruleMatch (str "1a ::= b") = None
  /\ ruleMatch (str "a ::=") = None.
Proof. repeat split; reflexivity. Qed.

Example repetitionMatch_examples :
  repetitionMatch (str "a{2,}") = Some (str "a", str "2", [])
  /\ repetitionMatch (str "a{2}") = Some (str "a", str "2", [])
  /\ repetitionMatch (str "a{2,5}") = Some (str "a", str "2", str "5")
  /\ repetitionMatch (str "a{,5}") = Some (str "a", [], str "5")
  /\ repetitionMatch (str "a{}") = Some (str "a", [], [])
  /\ repetitionMatch (str "{2}") = None
  /\ repetitionMatch (str "a{b}") = None.
Proof. repeat split; reflexivity. Qed.

(** Numerals as [parseInt] reads them: exactly below 2^53, rounded to
    the nearest double from there on, [Infinity] past the largest
    double. *)
Lemma parseInt_exact digits :
  (decimal digits < TWO_53)%N -> parseInt digits = Some (decimal digits).
Proof.
  intro H. unfold parseInt, number_value, round_double.
  rewrite (proj2 (N.ltb_lt _ _) H).
  assert (Hlog : (N.log2 (decimal digits) < 1024)%N).
  { destruct (N.eq_dec (decimal digits) 0) as [-> |Hne]; [reflexivity|].
    apply N.log2_lt_pow2; [lia|].
    apply N.lt_trans with (1 := H). reflexivity. }
  now rewrite (proj2 (N.ltb_lt _ _) Hlog).
Qed.

Example parseInt_examples :
  parseInt (str "007") = Some 7%N
  /\ parseInt (str "9007199254740992") = Some 9007199254740992%N
  /\ parseInt (str "9007199254740993") = Some 9007199254740992%N
  /\ parseInt (str "9007199254740995") = Some 9007199254740996%N
  /\ parseInt (str "9007199254740994") = Some 9007199254740994%N
  /\ parseInt (str "1" ++ repeat 48%N 308) <> None
  /\ parseInt (str "1" ++ repeat 48%N 309) = None.
Proof.
  repeat split; try (vm_compute; reflexivity).
  vm_compute. discriminate.
Qed.

Example clean_line_examples :
  clean_line (str "a ::= b // first") = str "a ::= b"
  /\ clean_line (str "a ::= b # first") = str "a ::= b"
  /\ clean_line (COMMENT_OPEN ++ str " one " ++ COMMENT_CLOSE ++ str " a ::= b "
                   ++ COMMENT_OPEN ++ str " two " ++ COMMENT_CLOSE)
     = str "a ::= b"
  /\ clean_line (COMMENT_OPEN ++ str " open only") = COMMENT_OPEN ++ str " open only".
Proof. repeat split; reflexivity. Qed.

(** *** Registering rules *)

Lemma map_set_keys m k v n :
  In n (map_keys (map_set m k v)) <-> n = k \/ In n (map_keys m).
Proof.
  induction m as [|[k' v'] m IH]; simpl.
  - intuition.
  - destruct (str_eqb k' k) eqn:E; simpl.
    + apply str_eqb_eq in E. subst. intuition.
    + rewrite IH. intuition.
Qed.

Lemma map_set_head m k v :
  m <> [] -> hd_error (map_keys (map_set m k v)) = hd_error (map_keys m).
Proof.
  destruct m as [|[k' v'] m]; [congruence|]. intros _. simpl.
  destruct (str_eqb k' k) eqn:E; simpl; [|reflexivity].
  apply str_eqb_eq in E. now subst.
Qed.

Lemma register_line_spec p line :
  consistent p ->
  exists p',
    register_line (Some p) line = Some p'
    /\ consistent p'
    /\ match ruleMatch line with
       | Some (name, _) =>
           (forall n, In n (map_keys (rules p')) <-> n = name \/ In n (map_keys (rules p)))
           /\ startRule p' = match startRule p with
                             | Some s => Some s
                             | None => Some name
                             end
       | None => p' = p
       end.
Proof.
  intros [Hhd Hne]. unfold register_line.
  destruct (ruleMatch line) as [[name d]|] eqn:E; [|now exists p].
  apply ruleMatch_sound in E as [_ Hname].
  pose proof (parseRuleDefinition_total d) as Ht.
  destruct (parseRuleDefinition d) as [e|]; [|congruence].
  eexists; split; [reflexivity|]. unfold consistent. simpl.
  assert (Hkeys : forall n, In n (map_keys (map_set (rules p) name e)) <->
                            n = name \/ In n (map_keys (rules p)))
    by (intro n; apply map_set_keys).
  destruct (startRule p) as [[|c s]|] eqn:Es; [now elim Hne| |].
  - split; [split; [|discriminate]|split; [exact Hkeys|reflexivity]].
    rewrite map_set_head; [exact Hhd|].
    intro Hnil. now rewrite Hnil in Hhd.
  - split; [split; [|congruence]|split; [exact Hkeys|reflexivity]].
    destruct (rules p) as [|kv m]; [reflexivity|discriminate].
Qed.

Lemma fold_register_spec lines p :
  consistent p ->
  exists p',
    fold_left register_line lines (Some p) = Some p'
    /\ consistent p'
    /\ (forall n, In n (map_keys (rules p')) <->
                  In n (registered lines) \/ In n (map_keys (rules p)))
    /\ startRule p' = match startRule p with
                      | Some s => Some s
                      | None => hd_error (registered lines)
                      end.
Proof.
  revert p; induction lines as [|line lines IH]; intros p Hp;
    cbn [fold_left].
  - exists p. split; [reflexivity|]. split; [exact Hp|]. split.
    + intro n. simpl. tauto.
    + now destruct (startRule p).
  - destruct (register_line_spec p line Hp) as (p1 & -> & Hp1 & Hline).
    destruct (IH p1 Hp1) as (p' & -> & Hp' & Hkeys & Hstart).
    exists p'. split; [reflexivity|]. split; [exact Hp'|]. split.
    + intro n. unfold registered. cbn [flat_map]. fold (registered lines).
      rewrite Hkeys, in_app_iff.
      destruct (ruleMatch line) as [[name d]|]; [|subst p1; simpl; tauto].
      destruct Hline as [Hk _]. rewrite Hk. simpl. intuition (subst; auto).
    + rewrite Hstart. unfold registered. cbn [flat_map]. fold (registered lines).
      destruct (ruleMatch line) as [[name d]|]; [|now subst p1].
      destruct Hline as [_ ->]. now destruct (startRule p).
Qed.

Lemma registered_nil lines :
  registered lines = [] <-> Forall (fun line => ~ RuleLine line) lines.
Proof.
  unfold registered. induction lines as [|line lines IH]; simpl.
  - split; [constructor|reflexivity].
  - pose proof (ruleMatch_iff line) as Hm.
    destruct (ruleMatch line) as [[name d]|]; simpl; split; intro H.
    + discriminate.
    + inversion H; subst. exfalso. apply H2, Hm. discriminate.
    + constructor; [|now apply IH]. intro Hr. now apply Hm in Hr.
    + inversion H; subst. now apply IH.
Qed.

(** What [parseGrammar] does, in one statement. *)
Lemma parseGrammar_spec grammarText :
  match parseGrammar grammarText with
  | Return p =>
      registered (grammar_lines grammarText) <> []
      /\ startRule p = hd_error (registered (grammar_lines grammarText))
      /\ hd_error (map_keys (rules p)) = startRule p
      /\ (forall n, In n (map_keys (rules p)) <->
                    In n (registered (grammar_lines grammarText)))
  | Throw e => e = NoValidRules /\ registered (grammar_lines grammarText) = []
  | OutOfFuel => False
  end.
Proof.
  unfold parseGrammar.
  destruct (fold_register_spec (grammar_lines grammarText)
              {| rules := []; startRule := None |})
    as (p & -> & [Hhd Hne] & Hkeys & Hstart); [split; [reflexivity|discriminate]|].
  simpl in Hkeys, Hstart.
  assert (Hk : forall n, In n (map_keys (rules p)) <->
                         In n (registered (grammar_lines grammarText)))
    by (intro n; rewrite Hkeys; tauto).
  unfold map_size. destruct (rules p) as [|kv m] eqn:Er; simpl.
  - split; [reflexivity|].
    destruct (registered (grammar_lines grammarText)) as [|n ns]; [reflexivity|].
    exfalso. apply (Hk n). now left.
  - rewrite Er. split; [|split; [exact Hstart|split; [exact Hhd|exact Hk]]].
    intro Hnil. rewrite Hnil in Hk. apply (Hk (fst kv)). now left.
Qed.

(** *** Comments *)

Lemma whitespace_not k c :
  is_whitespace c = true -> (32 < k < 160)%N -> N.eqb k c = false.
Proof.
  intros Hc Hk. apply is_whitespace_range in Hc. apply N.eqb_neq. lia.
Qed.

Lemma strip_block_whitespace ws s :
  forallb is_whitespace ws = true ->
  strip_block_comments (ws ++ s) 0 = ws ++ strip_block_comments s 0.
Proof.
  induction ws as [|c ws IH]; intro H; [reflexivity|].
  simpl in H. apply andb_true_iff in H as [Hc Hws].
  cbn [app strip_block_comments]. unfold COMMENT_OPEN. cbn [startsWith].
  rewrite (whitespace_not 40 c Hc) by lia. cbn [andb]. now rewrite IH.
Qed.

Lemma strip_block_any s k :
  forallb any_char s = true -> forallb any_char (strip_block_comments s k) = true.
Proof.
  revert k; induction s as [|c s IH]; intros k H; [reflexivity|].
  simpl in H. apply andb_true_iff in H as [Hc Hs]. cbn [strip_block_comments].
  destruct k as [|k]; [|now apply IH].
  destruct (startsWith (c :: s) COMMENT_OPEN);
    [destruct (comment_body (skipn 2 (c :: s)))|];
    try (now apply IH); simpl; rewrite Hc; now apply IH.
Qed.

Lemma strip_line_any m s :
  forallb any_char s = true -> forallb any_char (strip_line_comment m s) = true.
Proof.
  induction s as [|c s IH]; intro H; [reflexivity|].
  simpl in H. apply andb_true_iff in H as [Hc Hs]. cbn [strip_line_comment].
  destruct (_ && _); [reflexivity|]. simpl. rewrite Hc. now apply IH.
Qed.

Lemma strip_line_whitespace m ws s :
  line_marker m -> forallb is_whitespace ws = true ->
  strip_line_comment m (ws ++ s) = ws ++ strip_line_comment m s.
Proof.
  intros Hm. induction ws as [|c ws IH]; intro H; [reflexivity|].
  simpl in H. apply andb_true_iff in H as [Hc Hws].
  cbn [app strip_line_comment].
  assert (Hs : startsWith (c :: ws ++ s) m = false).
  { destruct Hm as [->| ->]; cbn [str map list_ascii_of_string startsWith];
      simpl N_of_ascii;
      [rewrite (whitespace_not 47 c Hc) by lia
      |rewrite (whitespace_not 35 c Hc) by lia]; reflexivity. }
  rewrite Hs. cbn [andb]. now rewrite IH.
Qed.

Lemma strip_line_at_marker m s :
  forallb any_char s = true -> strip_line_comment m (m ++ s) = [] \/ m = [].
Proof.
  intro H. destruct m as [|x m]; [now right|left].
  cbn [app strip_line_comment].
  change (x :: m ++ s) with ((x :: m) ++ s).
  now rewrite startsWith_app, skipn_prefix, H.
Qed.

Lemma trim_whitespace ws : forallb is_whitespace ws = true -> trim ws = [].
Proof. intro H. unfold trim. now rewrite (dropWhile_nil_eq _ _ H). Qed.

Lemma strip_line_free m body s :
  free_of m body s = true ->
  strip_line_comment m (body ++ s) = body ++ strip_line_comment m s.
Proof.
  induction body as [|c b IH]; intro H; [reflexivity|].
  cbn [free_of] in H. apply andb_true_iff in H as [H1 H2].
  apply negb_true_iff in H1. cbn [app] in H1.
  cbn [app strip_line_comment]. rewrite H1. cbn [andb]. now rewrite IH.
Qed.

Lemma strip_block_free body s :
  free_of COMMENT_OPEN body s = true ->
  strip_block_comments (body ++ s) 0 = body ++ strip_block_comments s 0.
Proof.
  induction body as [|c b IH]; intro H; [reflexivity|].
  cbn [free_of] in H. apply andb_true_iff in H as [H1 H2].
  apply negb_true_iff in H1. cbn [app] in H1.
  cbn [app strip_block_comments]. rewrite H1. now rewrite IH.
Qed.

Lemma startsWith_firstn (s p : jsstring) :
  startsWith s p = startsWith (firstn (length p) s) p.
Proof.
  revert s; induction p as [|x p IH]; intros [|y s]; simpl; try reflexivity.
  now rewrite <- IH.
Qed.

(** Whether [p] starts [u ++ t] depends on as much of [t] as [p] is
    longer than [u]. *)
Lemma startsWith_tail (u t t' p : jsstring) :
  firstn (length p - length u) t = firstn (length p - length u) t' ->
  startsWith (u ++ t) p = startsWith (u ++ t') p.
Proof.
  revert p; induction u as [|y u IH]; intros p H.
  - rewrite Nat.sub_0_r in H. simpl.
    now rewrite (startsWith_firstn t), (startsWith_firstn t'), H.
  - destruct p as [|x p]; [reflexivity|]. simpl. f_equal. now apply IH.
Qed.

Lemma free_of_tail p body (t t' : jsstring) :
  firstn (length p - 1) t = firstn (length p - 1) t' ->
  free_of p body t = free_of p body t'.
Proof.
  intro H. induction body as [|c b IH]; [reflexivity|].
  cbn [free_of]. rewrite IH. f_equal. f_equal.
  apply (startsWith_tail (c :: b)).
  set (k := length p - length (c :: b)).
  assert (Hk : k = Nat.min k (length p - 1)) by (unfold k; simpl; lia).
  rewrite Hk, <- !firstn_firstn. now rewrite H.
Qed.

Lemma free_of_whitespace m ws t :
  line_marker m \/ m = COMMENT_OPEN ->
  forallb is_whitespace ws = true -> free_of m ws t = true.
Proof.
  intros Hm. induction ws as [|c ws IH]; intro H; [reflexivity|].
  simpl in H. apply andb_true_iff in H as [Hc Hws].
  cbn [free_of]. rewrite (IH Hws), andb_true_r. apply negb_true_iff.
  destruct Hm as [[-> | ->]| ->];
    cbn [app str map list_ascii_of_string startsWith COMMENT_OPEN];
    simpl N_of_ascii;
    [rewrite (whitespace_not 47 c Hc) by lia
    |rewrite (whitespace_not 35 c Hc) by lia
    |rewrite (whitespace_not 40 c Hc) by lia]; reflexivity.
Qed.

Lemma strip_block_marker m rest :
  line_marker m ->
  strip_block_comments (m ++ rest) 0 = m ++ strip_block_comments rest 0.
Proof. intros [-> | ->]; reflexivity. Qed.

(** The two replacements of line comments on a text that is followed
    by nothing or by a line comment: the text is left. *)
Lemma strip_line_comments_tail body t :
  free_of (str "//") body t = true -> free_of (str "#") body t = true ->
  line_comment t ->
  strip_line_comment (str "#") (strip_line_comment (str "//") (body ++ t)) = body.
Proof.
  intros Hs Hh Ht.
  assert (Hh0 : free_of (str "#") body [] = true)
    by (rewrite (free_of_tail (str "#") body [] t); [exact Hh|reflexivity]).
  assert (Hend : strip_line_comment (str "#") (body ++ []) = body)
    by (rewrite strip_line_free by exact Hh0; simpl; apply app_nil_r).
  rewrite strip_line_free by exact Hs.
  destruct Ht as [-> |(m & rest & [-> | ->] & -> & Hrest)].
  - exact Hend.
  - destruct (strip_line_at_marker (str "//") rest Hrest) as [-> |H];
      [exact Hend|discriminate].
  - change (strip_line_comment (str "//") (str "#" ++ rest))
      with (str "#" ++ strip_line_comment (str "//") rest).
    rewrite strip_line_free.
    + destruct (strip_line_at_marker (str "#") _
                  (strip_line_any (str "//") rest Hrest)) as [-> |H];
        [apply app_nil_r|discriminate].
    + rewrite (free_of_tail (str "#") body _ (str "#" ++ rest));
        [exact Hh|reflexivity].
Qed.

(** A text in which no comment starts, followed by nothing or by a
    line comment, is cleaned to the text, trimmed. *)
Lemma clean_line_free body tail :
  comment_free body tail = true -> line_comment tail ->
  clean_line (body ++ tail) = trim body.
Proof.
  unfold comment_free. rewrite !andb_true_iff. intros [[Hs Hh] Ho] Ht.
  unfold clean_line. rewrite strip_block_free by exact Ho. f_equal.
  destruct Ht as [-> |(m & rest & Hm & -> & Hrest)].
  - apply strip_line_comments_tail; [exact Hs|exact Hh|now left].
  - rewrite strip_block_marker by exact Hm.
    assert (Hhd : forall p, length p <= 2 ->
              free_of p body (m ++ rest)
              = free_of p body (m ++ strip_block_comments rest 0)).
    { intros p Hp. apply free_of_tail.
      destruct Hm as [-> | ->]; destruct (length p - 1) as [|[|n]] eqn:E;
        try reflexivity; lia. }
    apply strip_line_comments_tail.
    + rewrite <- Hhd; [exact Hs|simpl; lia].
    + rewrite <- Hhd; [exact Hh|simpl; lia].
    + right. exists m, (strip_block_comments rest 0).
      split; [exact Hm|split; [reflexivity|now apply strip_block_any]].
Qed.

Lemma comment_body_closed body rest :
  forallb any_char body = true ->
  free_of COMMENT_CLOSE body (COMMENT_CLOSE ++ rest) = true ->
  comment_body (body ++ COMMENT_CLOSE ++ rest) = Some (length body).
Proof.
  induction body as [|c b IH]; intros Hany Hfree; [reflexivity|].
  simpl in Hany. apply andb_true_iff in Hany as [Hc Hb].
  cbn [free_of] in Hfree. apply andb_true_iff in Hfree as [H1 H2].
  apply negb_true_iff in H1. cbn [app] in H1.
  cbn [app comment_body]. rewrite H1, Hc, (IH Hb H2). reflexivity.
Qed.

Lemma strip_block_skip pre s :
  strip_block_comments (pre ++ s) (length pre) = strip_block_comments s 0.
Proof.
  induction pre as [|c pre IH]; [reflexivity|]. simpl. exact IH.
Qed.

(** A block comment closed on the line is removed, and the scan goes
    on after its closing bracket. *)
Lemma strip_block_closed body rest :
  forallb any_char body = true ->
  free_of COMMENT_CLOSE body (COMMENT_CLOSE ++ rest) = true ->
  strip_block_comments (COMMENT_OPEN ++ body ++ COMMENT_CLOSE ++ rest) 0
  = strip_block_comments rest 0.
Proof.
  intros Hany Hfree.
  change (COMMENT_OPEN ++ body ++ COMMENT_CLOSE ++ rest)
    with (40%N :: 42%N :: body ++ COMMENT_CLOSE ++ rest).
  cbn [strip_block_comments].
  change (startsWith (40%N :: 42%N :: body ++ COMMENT_CLOSE ++ rest) COMMENT_OPEN)
    with true.
  cbv iota. cbn [skipn]. rewrite (comment_body_closed body rest Hany Hfree).
  replace (length body + 3) with (S (length (body ++ COMMENT_CLOSE)))
    by (rewrite length_app; simpl; lia).
  rewrite app_assoc. apply strip_block_skip.
Qed.

Lemma comment_only_residue raw :
  CommentOnly raw ->
  exists ws t,
    strip_block_comments raw 0 = ws ++ t
    /\ forallb is_whitespace ws = true /\ line_comment t.
Proof.
  induction 1 as [ws Hws|ws body rest Hws Hany Hfree _ (w & t & E & Hw & Ht)
                 |ws m rest Hws Hm Hrest].
  - exists ws, []. split; [|split; [exact Hws|now left]].
    rewrite <- (app_nil_r ws) at 1. now rewrite strip_block_whitespace.
  - exists (ws ++ w), t. split; [|split; [|exact Ht]].
    + rewrite strip_block_whitespace by exact Hws.
      rewrite strip_block_closed by assumption. now rewrite E, app_assoc.
    + rewrite forallb_app. now rewrite Hws, Hw.
  - exists ws, (m ++ strip_block_comments rest 0). split; [|split; [exact Hws|]].
    + rewrite strip_block_whitespace by exact Hws.
      now rewrite strip_block_marker.
    + right. exists m, (strip_block_comments rest 0).
      split; [exact Hm|split; [reflexivity|now apply strip_block_any]].
Qed.

(** Nothing is left of a line that holds comments only. *)
Lemma clean_line_comment_only raw : CommentOnly raw -> clean_line raw = [].
Proof.
  intro H. destruct (comment_only_residue raw H) as (ws & t & E & Hws & Ht).
  unfold clean_line. rewrite E.
  rewrite strip_line_comments_tail;
    [now apply trim_whitespace| | |exact Ht];
    apply free_of_whitespace; auto; left; [now left|now right].
Qed.

(** *** Lines of the text and lines read *)

Lemma RuleLine_truthy line : RuleLine line -> truthy line = true.
Proof.
  intros (name & ws1 & op & ws2 & d & -> & Hname & _).
  destruct name; [discriminate|reflexivity].
Qed.

Lemma cleaned_line_read grammarText raw :
  In raw (split_lines grammarText) -> RuleLine (clean_line raw) ->
  In (clean_line raw) (grammar_lines grammarText).
Proof.
  intros Hin Hline. unfold grammar_lines. apply filter_In.
  split; [now apply in_map|now apply RuleLine_truthy].
Qed.

Lemma no_rule_line_read grammarText :
  Forall (fun line => ~ RuleLine line) (grammar_lines grammarText)
  <-> Forall (fun raw => ~ RuleLine (clean_line raw)) (split_lines grammarText).
Proof.
  unfold grammar_lines. rewrite !Forall_forall. split.
  - intros H raw Hin Hline. apply (H (clean_line raw)); [|exact Hline].
    now apply cleaned_line_read.
  - intros H line Hin Hline. apply filter_In in Hin as [Hin _].
    apply in_map_iff in Hin as (raw & <- & Hraw). now apply (H raw).
Qed.

(** A line read that has the form of a rule makes the compilation
    return, with the first name registered as start rule. *)
Lemma parseGrammar_registers grammarText line :
  In line (grammar_lines grammarText) -> RuleLine line ->
  compiles_from_first_rule grammarText.
Proof.
  intros Hin Hline.
  assert (Hreg : registered (grammar_lines grammarText) <> []).
  { intro Hnil. apply registered_nil in Hnil.
    rewrite Forall_forall in Hnil. now apply (Hnil line). }
  pose proof (parseGrammar_spec grammarText) as Hspec.
  unfold compiles_from_first_rule.
  destruct (parseGrammar grammarText) as [p|e|]; [|now destruct Hspec|contradiction].
  destruct Hspec as (_ & Hstart & Hhd & Hkeys).
  destruct (registered (grammar_lines grammarText)) as [|first others] eqn:E;
    [congruence|].
  exists p, first. split; [reflexivity|]. simpl in Hstart.
  split; [|split; [reflexivity|split; [exact Hstart|congruence]]].
  intro Hnil. rewrite Hnil in Hkeys. apply (Hkeys first). now left.
Qed.

End CompilerFacts.

(* ================================================================= *)
(** ** Properties of the specification *)

Module Properties.
Import Compiler Engine EngineFacts CompilerFacts.

(** *** Rule nodes over a leaf *)

(** Whatever leaf a rule consists of, the node of the rule has no
    child: [parseRule] takes [result.children], which a leaf match
    does not have. *)
Lemma parseRule_leaf_children the_rules input fuel pos name e r :
  map_get the_rules name = Some e -> is_leaf e = true ->
  parseRule the_rules input fuel pos name = Return (Some r) ->
  node_children (rule_node r) = [].
Proof.
  intros Hget Hleaf. unfold parseRule, parseRule_with. rewrite Hget.
  destruct fuel as [|fuel]; [discriminate|].
  destruct e as [alts|els|mn mx el|el|v|lo hi|nm|]; try discriminate; simpl.
  - destruct (str_eqb _ v); [|discriminate].
    intro H; now injection H as <-.
  - destruct (char_at input pos) as [c|]; [|discriminate].
    destruct (in_range c lo hi); [|discriminate].
    intro H; now injection H as <-.
  - destruct (parseRule_with the_rules input _ pos nm) as [[rr|]| |];
      try discriminate.
    intro H; now injection H as <-.
Qed.

(** C1. A rule whose root expression is a leaf: for [a ::= "x"]
    matched against ["x"], the specification expects a rule node with one
    terminal child.  The compiled grammar and the node [parse]
    returns: the rule node has no child at all. *)
Theorem rule_node_of_terminal_has_no_child :
  parseGrammar grammar_a = Return parser_a
  /\ parse 2 parser_a (str "x")
     = Return {| node_type := str "a"; node_value := str "x";
                 node_start := 0; node_end := 1; node_children := [] |}.
Proof. split; reflexivity. Qed.

(** *** Incomplete parses *)

(** C2. When the start rule matches at offset 0 and stops before the
    end of the input, [parse] throws the incomplete-parse error with
    the unconsumed suffix and its offset; for [a ::= "x"] and input
    ["xy"], the suffix is ["y"] at offset 1. *)
Theorem parse_incomplete :
  (forall fuel p input start r,
      startRule p = Some start -> start <> [] ->
      parseRule (rules p) input fuel 0 start = Return (Some r) ->
      rule_position r < length input ->
      parse fuel p input
      = Throw (IncompleteParse (slice_from input (rule_position r)) (rule_position r)))
  /\ parseGrammar grammar_a = Return parser_a
  /\ (forall fuel, 2 <= fuel ->
                   parse fuel parser_a (str "xy") = Throw (IncompleteParse (str "y") 1)).
Proof.
  split; [|split].
  - intros fuel p input start r Hs Hne Hr Hlt. unfold parse. rewrite Hs.
    destruct start as [|c s]; [congruence|]. rewrite Hr.
    apply Nat.ltb_lt in Hlt. now rewrite Hlt.
  - reflexivity.
  - intros fuel Hf.
    destruct (parse_mono 2 fuel parser_a (str "xy") Hf) as [H|H];
      [discriminate H|now rewrite <- H].
Qed.

Lemma parse_incomplete_witness :
  startRule parser_a = Some (str "a")
  /\ str "a" <> []
  /\ parseRule (rules parser_a) (str "xy") 2 0 (str "a")
     = Return (Some {| rule_node := {| node_type := str "a"; node_value := str "x";
                                      node_start := 0; node_end := 1;
                                      node_children := [] |};
                       rule_position := 1 |})
  /\ 1 < length (str "xy")
  /\ parse 2 parser_a (str "xy") = Throw (IncompleteParse (str "y") 1).
Proof.
  assert (H1 : startRule parser_a = Some (str "a")) by reflexivity.
  assert (H2 : str "a" <> []) by discriminate.
  assert (H3 : parseRule (rules parser_a) (str "xy") 2 0 (str "a")
               = Return (Some {| rule_node := {| node_type := str "a";
                                                node_value := str "x";
                                                node_start := 0; node_end := 1;
                                                node_children := [] |};
                                 rule_position := 1 |})) by reflexivity.
  assert (H4 : 1 < length (str "xy")) by (simpl; lia).
  split; [exact H1|split; [exact H2|split; [exact H3|split; [exact H4|]]]].
  exact (proj1 parse_incomplete 2 parser_a (str "xy") (str "a") _ H1 H2 H3 H4).
Defined.

(** *** Repetition over digits *)

Lemma nonterminal_never_fails the_rules input name body :
  map_get the_rules name = Some body ->
  never_fails_on the_rules input (fun _ => True) body ->
  never_fails_on the_rules input (fun _ => True) (NonTerminal name).
Proof.
  intros Hget Hbody [|fuel] pos _; [now left|]. simpl.
  unfold parseRule_with. rewrite Hget.
  destruct (Hbody fuel pos I) as [H|(r & H & _)]; rewrite H; [now left|].
  right. eauto.
Qed.

Lemma digits_never_return fuel :
  parse fuel parser_digits (str "123") = OutOfFuel.
Proof.
  unfold parse. simpl startRule. cbv iota.
  unfold parseRule, parseRule_with.
  change (map_get (rules parser_digits) (str "number"))
    with (Some (Repetition (Some 1%N) None (NonTerminal (str "digit")))).
  cbv iota.
  rewrite (repetition_diverges (rules parser_digits) (str "123")
             (fun _ => True) (Some 1%N) (NonTerminal (str "digit")) 0);
    [reflexivity| |exact I].
  apply nonterminal_never_fails
    with (body := Optional (CharacterRange (str "0") (Some (str "9"))));
    [reflexivity|].
  apply optional_never_fails. intros f q e. apply character_range_no_throw.
Qed.

(** C3, as the specification states it: with [digit ::= [0-9]] the match of
    [number ::= digit+] against ["123"] would return a node.  It never
    does. *)
Lemma digits_bracketed_never_returns :
  ~ (exists fuel p root,
        parseGrammar grammar_digits = Return p
        /\ parse fuel p (str "123") = Return root).
Proof.
  intros (fuel & p & root & Hp & Hroot).
  assert (Hc : parseGrammar grammar_digits = Return parser_digits) by reflexivity.
  rewrite Hc in Hp. injection Hp as <-. clear Hc.
  rewrite digits_never_return in Hroot. discriminate Hroot.
Qed.

(** C3, amended.  The bracketed [[0-9]] compiles to an [Optional] over
    the range, and the match of [digit+] against ["123"] then never
    returns; with the range written bare, [digit ::= 0-9], the match
    returns a node spanning [0,3) with exactly three children, each
    spanning one character. *)
Theorem digits_repetition :
  parseGrammar grammar_digits = Return parser_digits
  /\ (forall fuel, parse fuel parser_digits (str "123") = OutOfFuel)
  /\ parseGrammar grammar_digits_range = Return parser_digits_range
  /\ (forall fuel, 5 <= fuel ->
        parse fuel parser_digits_range (str "123")
        = Return {| node_type := str "number"; node_value := str "123";
                    node_start := 0; node_end := 3;
                    node_children := [digit_node "1" 0; digit_node "2" 1;
                                      digit_node "3" 2] |}).
Proof.
  split; [reflexivity|]. split; [exact digits_never_return|].
  split; [reflexivity|].
  intros fuel Hf.
  destruct (parse_mono 5 fuel parser_digits_range (str "123") Hf) as [H|H];
    [discriminate H|now rewrite <- H].
Qed.

Lemma digits_repetition_witness :
  5 <= 5
  /\ parse 5 parser_digits_range (str "123")
     = Return {| node_type := str "number"; node_value := str "123";
                 node_start := 0; node_end := 3;
                 node_children := [digit_node "1" 0; digit_node "2" 1;
                                   digit_node "3" 2] |}.
Proof.
  split; [lia|].
  exact (proj2 (proj2 (proj2 digits_repetition)) 5 (le_n 5)).
Defined.

(** *** Ordered choice *)

Lemma Evaluates_deterministic the_rules input pos e o o' :
  Evaluates the_rules input pos e o -> Evaluates the_rules input pos e o' -> o = o'.
Proof.
  intros (f & Hf & Ho) (g & Hg & Ho').
  rewrite <- (parseExpression_stable _ _ f (Nat.max f g) _ _ _ Hf Ho ltac:(lia)).
  now rewrite <- (parseExpression_stable _ _ g (Nat.max f g) _ _ _ Hg Ho' ltac:(lia)).
Qed.

(** C7. An alternation returns the result of the first alternative
    that succeeds, whatever the alternatives before it did while
    failing, and fails exactly when every alternative fails. *)
Theorem alternation_ordered_choice the_rules input pos alternatives :
  (forall pre a post r,
      alternatives = pre ++ a :: post ->
      Forall (fun e => Evaluates the_rules input pos e (Return None)) pre ->
      Evaluates the_rules input pos a (Return (Some r)) ->
      Evaluates the_rules input pos (Alternation alternatives) (Return (Some r)))
  /\ (forall r,
         Evaluates the_rules input pos (Alternation alternatives) (Return (Some r)) ->
         exists pre a post,
           alternatives = pre ++ a :: post
           /\ Forall (fun e => Evaluates the_rules input pos e (Return None)) pre
           /\ Evaluates the_rules input pos a (Return (Some r)))
  /\ (Evaluates the_rules input pos (Alternation alternatives) (Return None) <->
      Forall (fun e => Evaluates the_rules input pos e (Return None)) alternatives).
Proof.
  assert (Hev : forall fuel l,
             Forall (fun e => parseExpression the_rules input fuel pos e = Return None) l ->
             Forall (fun e => Evaluates the_rules input pos e (Return None)) l).
  { intros fuel l. apply Forall_impl. intros e He. exists fuel. now split. }
  split; [|split].
  - intros pre a post r -> Hpre (f & Ha & _).
    destruct (common_fuel _ _ _ _ Hpre) as (g & Hg).
    exists (S (Nat.max f g)). split; [|discriminate]. simpl.
    apply alternation_loop_first.
    + eapply Forall_impl; [|exact Hg]. intros x Hx.
      apply (parseExpression_stable _ _ g); [exact Hx|discriminate|lia].
    + apply (parseExpression_stable _ _ f); [exact Ha|discriminate|lia].
  - intros r ([|fuel] & H & _); [discriminate|]. simpl in H.
    apply alternation_loop_some in H as (pre & a & post & -> & Hpre & Ha).
    exists pre, a, post. split; [reflexivity|]. split; [now apply (Hev fuel)|].
    exists fuel. now split.
  - split.
    + intros ([|fuel] & H & _); [discriminate|]. simpl in H.
      apply alternation_loop_none in H. now apply (Hev fuel).
    + intro Hall. destruct (common_fuel _ _ _ _ Hall) as (g & Hg).
      exists (S g). split; [|discriminate]. simpl.
      now apply alternation_loop_none.
Qed.

Lemma alternation_ordered_choice_witness :
  Forall (fun e => Evaluates [] (str "hi") 0 e (Return None)) [Terminal (str "hello")]
  /\ Evaluates [] (str "hi") 0 (Terminal (str "hi")) (Return (Some (terminal_result "hi" 0)))
  /\ Evaluates [] (str "hi") 0
       (Alternation [Terminal (str "hello"); Terminal (str "hi")])
       (Return (Some (terminal_result "hi" 0))).
Proof.
  assert (H1 : Forall (fun e => Evaluates [] (str "hi") 0 e (Return None))
                 [Terminal (str "hello")]).
  { constructor; [|constructor]. exists 1. split; [reflexivity|discriminate]. }
  assert (H2 : Evaluates [] (str "hi") 0 (Terminal (str "hi"))
                 (Return (Some (terminal_result "hi" 0)))).
  { exists 1. split; [reflexivity|discriminate]. }
  split; [exact H1|split; [exact H2|]].
  exact (proj1 (alternation_ordered_choice [] (str "hi") 0
                  [Terminal (str "hello"); Terminal (str "hi")])
           [Terminal (str "hello")] (Terminal (str "hi")) [] _ eq_refl H1 H2).
Defined.

(** The example of the specification, from the grammar text: the
    alternation is compiled in declaration order and ["hi"] is matched
    through the second alternative. *)
Example greeting_hi :
  parseGrammar grammar_greeting = Return parser_greeting
  /\ parse 3 parser_greeting (str "hi")
     = Return {| node_type := str "g"; node_value := str "hi";
                 node_start := 0; node_end := 2; node_children := [] |}.
Proof. split; reflexivity. Qed.

(** *** Spans *)

(** C8. Every node of a successful match, the root and all its
    descendants, has [value] equal to the slice of the input from
    [start] to [end], and [start <= end]: for the results of
    [parseExpression], of [parseRule] and of [parse]. *)
Theorem every_node_spans_its_slice the_rules input fuel :
  (forall pos e r n,
      parseExpression the_rules input fuel pos e = Return (Some r) ->
      In n (result_nodes r) -> span_ok input n)
  /\ (forall pos name r n,
         parseRule the_rules input fuel pos name = Return (Some r) ->
         In n (subnodes (rule_node r)) -> span_ok input n)
  /\ (forall start root n,
         parse fuel {| rules := the_rules; startRule := start |} input = Return root ->
         In n (subnodes root) -> span_ok input n).
Proof.
  split; [|split].
  - intros pos e r n H Hin. apply parseExpression_good in H as [_ H].
    rewrite Forall_forall in H. now apply H.
  - intros pos name r n H Hin. apply parseRule_good in H as [_ H].
    rewrite Forall_forall in H. now apply H.
  - intros start root n H Hin. apply parse_good in H.
    rewrite Forall_forall in H. now apply H.
Qed.

Lemma every_node_spans_its_slice_witness :
  parse 5 parser_digits_range (str "123")
  = Return {| node_type := str "number"; node_value := str "123";
              node_start := 0; node_end := 3;
              node_children := [digit_node "1" 0; digit_node "2" 1;
                                digit_node "3" 2] |}
  /\ In (digit_node "3" 2)
        (subnodes {| node_type := str "number"; node_value := str "123";
                     node_start := 0; node_end := 3;
                     node_children := [digit_node "1" 0; digit_node "2" 1;
                                       digit_node "3" 2] |})
  /\ span_ok (str "123") (digit_node "3" 2).
Proof.
  assert (H1 : parse 5 parser_digits_range (str "123")
               = Return {| node_type := str "number"; node_value := str "123";
                           node_start := 0; node_end := 3;
                           node_children := [digit_node "1" 0; digit_node "2" 1;
                                             digit_node "3" 2] |}) by reflexivity.
  assert (H2 : In (digit_node "3" 2)
                  (subnodes {| node_type := str "number"; node_value := str "123";
                               node_start := 0; node_end := 3;
                               node_children := [digit_node "1" 0; digit_node "2" 1;
                                                 digit_node "3" 2] |}))
    by (simpl; tauto).
  split; [exact H1|split; [exact H2|]].
  exact (proj2 (proj2 (every_node_spans_its_slice
                         (rules parser_digits_range) (str "123") 5))
           (startRule parser_digits_range) _ _ H1 H2).
Defined.

(** *** Unbounded repetition of an element that matches nothing *)

(** The statement below with a weaker premise: it is enough that the
    element, whenever it returns at [pos], succeeds there without
    moving. *)
Lemma repetition_stuck_diverges the_rules input mn element pos :
  (forall fuel,
      parseExpression the_rules input fuel pos element = OutOfFuel
      \/ exists r, parseExpression the_rules input fuel pos element = Return (Some r)
                   /\ position r = pos) ->
  forall fuel,
    parseExpression the_rules input fuel pos (Repetition mn None element) = OutOfFuel.
Proof.
  intro H. apply (repetition_diverges the_rules input (eq pos)); [|reflexivity].
  intros fuel q <-. destruct (H fuel) as [E|(r & E & Hr)]; [now left|].
  right. exists r. now split.
Qed.

(** C9. A repetition without upper bound whose element succeeds at
    the current position without consuming input never returns: no
    amount of fuel lets the loop end. *)
Theorem unbounded_repetition_of_empty_match_diverges
        the_rules input mn element pos r :
  Evaluates the_rules input pos element (Return (Some r)) ->
  position r = pos ->
  forall fuel,
    parseExpression the_rules input fuel pos (Repetition mn None element) = OutOfFuel.
Proof.
  intros (f & Hf & Ho) Hr. apply repetition_stuck_diverges. intro fuel.
  destruct (Nat.le_ge_cases fuel f) as [Hle|Hle].
  - destruct (parseExpression_mono the_rules input fuel f pos element Hle) as [H|H];
      [now left|]. right. exists r. split; congruence.
  - right. exists r. split; [|exact Hr].
    now apply (parseExpression_stable _ _ f).
Qed.

Lemma unbounded_repetition_of_empty_match_diverges_witness :
  Evaluates [] [] 0 Empty (Return (Some (empty_match 0)))
  /\ position (empty_match 0) = 0
  /\ forall fuel, parseExpression [] [] fuel 0 (Repetition (Some 0%N) None Empty) = OutOfFuel.
Proof.
  assert (H1 : Evaluates [] [] 0 Empty (Return (Some (empty_match 0))))
    by (exists 1; split; [reflexivity|discriminate]).
  split; [exact H1|split; [reflexivity|]].
  exact (unbounded_repetition_of_empty_match_diverges [] [] (Some 0%N) Empty 0
           (empty_match 0) H1 eq_refl).
Defined.

(** The elements the specification lists for C9. *)
Lemma repetition_of_empty_diverges the_rules input mn pos fuel :
  parseExpression the_rules input fuel pos (Repetition mn None Empty) = OutOfFuel.
Proof.
  apply repetition_stuck_diverges. intros [|f]; [now left|].
  right. now exists (empty_match pos).
Qed.

Lemma repetition_of_empty_terminal_diverges the_rules input mn pos fuel :
  parseExpression the_rules input fuel pos (Repetition mn None (Terminal [])) = OutOfFuel.
Proof.
  apply repetition_stuck_diverges. intros [|f]; [now left|].
  right. simpl. unfold slice. rewrite Nat.add_0_r, Nat.sub_diag. simpl.
  eexists. split; [reflexivity|]. simpl. lia.
Qed.

Lemma repetition_of_optional_diverges the_rules input mn element pos fuel :
  (forall f q e, parseExpression the_rules input f q element <> Throw e) ->
  parseExpression the_rules input fuel pos (Repetition mn None (Optional element))
  = OutOfFuel.
Proof.
  intro H. apply (repetition_diverges the_rules input (fun _ => True)); [|exact I].
  now apply optional_never_fails.
Qed.

Lemma repetition_of_min0_repetition_diverges the_rules input mn mx element pos fuel :
  (forall f q e, parseExpression the_rules input f q element <> Throw e) ->
  parseExpression the_rules input fuel pos
    (Repetition mn None (Repetition (Some 0%N) mx element)) = OutOfFuel.
Proof.
  intro H. apply (repetition_diverges the_rules input (fun _ => True)); [|exact I].
  now apply repetition_min0_never_fails.
Qed.

(** *** Unknown rules *)

(** C10. Once a match has called [parseRule] with a name that the
    grammar does not define, the match as a whole ends with the
    unknown-rule error for that name, wherever the reference sits:
    for [parseExpression], and for [parse]. *)
Theorem unknown_rule_aborts_match :
  (forall the_rules input fuel pos e name,
      In name (fst (Traced.parseExpression the_rules input fuel pos e)) ->
      map_get the_rules name = None ->
      parseExpression the_rules input fuel pos e = Throw (UnknownRule name))
  /\ (forall fuel p input name,
         In name (Traced.parse_log fuel p input) ->
         map_get (rules p) name = None ->
         parse fuel p input = Throw (UnknownRule name)).
Proof.
  split.
  - intros the_rules input fuel pos e name Hin Habs.
    rewrite <- parseExpression_erase.
    now apply (parseExpression_reach the_rules input fuel pos e name).
  - intros fuel p input name Hin Habs. unfold Traced.parse_log in Hin.
    unfold parse. destruct (startRule p) as [[|c s]|]; try now destruct Hin.
    rewrite <- parseRule_erase.
    now rewrite (parseRule_reach (rules p) input fuel 0 (c :: s) name Hin Habs).
Qed.

Lemma unknown_rule_aborts_match_witness :
  In (str "missing")
     (fst (Traced.parseExpression [] (str "x") 2 0
             (Alternation [NonTerminal (str "missing"); Terminal (str "x")])))
  /\ map_get [] (str "missing") = None
  /\ parseExpression [] (str "x") 2 0
       (Alternation [NonTerminal (str "missing"); Terminal (str "x")])
     = Throw (UnknownRule (str "missing")).
Proof.
  assert (H1 : In (str "missing")
                  (fst (Traced.parseExpression [] (str "x") 2 0
                          (Alternation [NonTerminal (str "missing");
                                        Terminal (str "x")]))))
    by (left; reflexivity).
  split; [exact H1|split; [reflexivity|]].
  exact (proj1 unknown_rule_aborts_match [] (str "x") 2 0 _ _ H1 eq_refl).
Defined.

(** The three places C10 names: an alternative, an [Optional]
    and a repetition with [min = 0]. *)
Section UnknownReference.

Variable the_rules : RuleMap.
Variable input : jsstring.
Variable name : jsstring.
Hypothesis Habsent : map_get the_rules name = None.

Lemma unknown_reference fuel pos :
  parseExpression the_rules input (S fuel) pos (NonTerminal name)
  = Throw (UnknownRule name).
Proof. simpl. unfold parseRule_with. now rewrite Habsent. Qed.

Lemma unknown_in_alternative fuel pos rest :
  parseExpression the_rules input (S (S fuel)) pos
    (Alternation (NonTerminal name :: rest)) = Throw (UnknownRule name).
Proof.
  simpl. unfold parseRule_with. now rewrite Habsent.
Qed.

Lemma unknown_in_optional fuel pos :
  parseExpression the_rules input (S (S fuel)) pos (Optional (NonTerminal name))
  = Throw (UnknownRule name).
Proof. simpl. unfold parseRule_with. now rewrite Habsent. Qed.

Lemma unknown_in_repetition fuel pos mx :
  below_max 0 mx = true ->
  parseExpression the_rules input (S (S (S fuel))) pos
    (Repetition (Some 0%N) mx (NonTerminal name)) = Throw (UnknownRule name).
Proof.
  intro Hmx. simpl. rewrite Hmx. unfold parseRule_with. now rewrite Habsent.
Qed.

End UnknownReference.

(** *** Bounded repetitions *)

Lemma digit_not_brace s :
  forallb (fun c => is_digit c || N.eqb c 44) s = true ->
  forallb (fun c => negb (N.eqb c 123)) s = true.
Proof.
  intro H. rewrite forallb_forall in *. intros c Hc. specialize (H c Hc).
  unfold is_digit in H.
  rewrite orb_true_iff, andb_true_iff, !N.leb_le, N.eqb_eq in H.
  apply negb_true_iff, N.eqb_neq. lia.
Qed.

Lemma match_bounds_digits ds sep ms :
  forallb is_digit ds = true -> forallb is_digit ms = true ->
  sep = str "," \/ (sep = [] /\ ms = []) ->
  match_bounds (ds ++ sep ++ ms) = Some (ds, ms).
Proof.
  intros Hds Hms Hsep. unfold match_bounds.
  rewrite takeWhile_app, dropWhile_app by exact Hds.
  destruct Hsep as [->|[-> ->]]; simpl.
  - now rewrite (dropWhile_nil_eq is_digit ms Hms),
      (takeWhile_all is_digit ms Hms), app_nil_r.
  - now rewrite !app_nil_r.
Qed.

(** The pattern on [e{...}]: the element is [e], the bounds are the two
    runs of digits. *)
Lemma repetitionMatch_bounds e ds sep ms :
  e <> [] -> forallb any_char e = true ->
  forallb is_digit ds = true -> forallb is_digit ms = true ->
  sep = str "," \/ (sep = [] /\ ms = []) ->
  repetitionMatch (e ++ str "{" ++ (ds ++ sep ++ ms) ++ str "}") = Some (e, ds, ms).
Proof.
  intros He Hany Hds Hms Hsep. unfold repetitionMatch.
  assert (Hb : forallb (fun c => negb (N.eqb c 123)) (rev (ds ++ sep ++ ms)) = true).
  { apply digit_not_brace. rewrite forallb_forall. intros c Hc.
    apply in_rev in Hc. rewrite !in_app_iff in Hc.
    rewrite forallb_forall in Hds, Hms.
    destruct Hc as [Hc|[Hc|Hc]].
    - now rewrite (Hds c Hc).
    - destruct Hsep as [->|[-> _]]; [|destruct Hc].
      destruct Hc as [<-|[]]. apply orb_true_r.
    - now rewrite (Hms c Hc). }
  assert (Hm : match_bounds (ds ++ sep ++ ms) = Some (ds, ms))
    by now apply match_bounds_digits.
  remember (ds ++ sep ++ ms) as body.
  rewrite !rev_app_distr. simpl rev. simpl app. cbv iota.
  rewrite N.eqb_refl.
  rewrite <- app_assoc. simpl app.
  rewrite takeWhile_app, dropWhile_app by exact Hb.
  simpl. rewrite app_nil_r, !rev_involutive, Hany, Hm.
  destruct e; [congruence|]. reflexivity.
Qed.

Lemma trim_fixed s c d s' :
  s = c :: s' -> rev s = d :: rev (removelast s) ->
  is_whitespace c = false -> is_whitespace d = false -> trim s = s.
Proof.
  intros -> Hrev Hc Hd. unfold trim.
  rewrite (dropWhile_stop _ _ _ Hc), Hrev, (dropWhile_stop _ _ _ Hd), <- Hrev.
  apply rev_involutive.
Qed.

(** What [parseElement] makes of [e{ds,}], [e{ds}] and [e{ds,ms}], for
    any element text [e] that starts with a visible character and
    stays on one line, and any decimal numerals [ds] and [ms]. *)
Lemma parseElement_bounds fuel e ds sep ms :
  (exists c e', e = c :: e' /\ is_whitespace c = false) ->
  forallb any_char e = true ->
  ds <> [] -> forallb is_digit ds = true -> forallb is_digit ms = true ->
  sep = str "," \/ (sep = [] /\ ms = []) ->
  parseElement (S fuel) (e ++ str "{" ++ (ds ++ sep ++ ms) ++ str "}")
  = option_map
      (Repetition (parseInt ds)
                  (match ms with [] => parseInt ds | _ => parseInt ms end))
      (parseElement fuel e).
Proof.
  intros (c & e' & -> & Hc) Hany Hne Hds Hms Hsep.
  set (text := (c :: e') ++ str "{" ++ (ds ++ sep ++ ms) ++ str "}").
  assert (Hrev : rev text = 125%N :: rev (removelast text)).
  { unfold text. change (str "}") with [125%N]. rewrite !app_assoc.
    rewrite removelast_last, rev_app_distr. reflexivity. }
  assert (Htrim : trim text = text)
    by (apply (trim_fixed text c 125%N (e' ++ str "{" ++ (ds ++ sep ++ ms) ++ str "}"));
        auto).
  cbn [parseElement]. rewrite Htrim.
  assert (Hend : forall x, x <> 125%N -> endsWith text [x] = false).
  { intros x Hx. unfold endsWith. rewrite Hrev. simpl.
    apply N.eqb_neq in Hx. now rewrite Hx. }
  change (str "*") with [42%N]. change (str "+") with [43%N].
  change (str "?") with [63%N].
  rewrite (Hend 42%N), (Hend 43%N), (Hend 63%N) by discriminate.
  unfold text.
  rewrite (repetitionMatch_bounds (c :: e') ds sep ms) by (auto; discriminate).
  f_equal. f_equal.
  - unfold bound_min. now destruct ds.
  - unfold bound_max. destruct ms as [|m ms]; simpl; [|reflexivity].
    now destruct ds.
Qed.

(** C4.  The three bounded forms on the element [a], given to
    [parseElement]: [a{2}] and [a{2,5}] compile as specified;
    [a{2,}], whose upper bound is omitted, compiles to a repetition of
    exactly 2, not to an unbounded one. *)
Theorem omitted_upper_bound_is_not_unbounded :
  parseElement 2 (str "a{2,}")
  = Some (Repetition (Some 2%N) (Some 2%N) (NonTerminal (str "a")))
  /\ parseElement 2 (str "a{2}")
     = Some (Repetition (Some 2%N) (Some 2%N) (NonTerminal (str "a")))
  /\ parseElement 2 (str "a{2,5}")
     = Some (Repetition (Some 2%N) (Some 5%N) (NonTerminal (str "a"))).
Proof. repeat split; reflexivity. Qed.

(** *** Compiling a grammar *)

(** C5, as the specification states it: a text with a line of the form
    identifier, assign operator, definition would compile.  The one
    line of [a ::= # x] has the form, with the definition [# x];
    comments are removed before the form is looked for, nothing is
    left for the definition, and compilation fails. *)
Lemma rule_line_commented_out :
  In grammar_commented (split_lines grammar_commented)
  /\ RuleLine grammar_commented
  /\ parseGrammar grammar_commented = Throw NoValidRules
  /\ ~ compiles_from_first_rule grammar_commented.
Proof.
  split; [now left|]. split; [|split; [reflexivity|]].
  - exists (str "a"), (str " "), (str "::="), (str " "), (str "# x").
    repeat split; try reflexivity; [now left|discriminate].
  - intros (p & first & H & _). discriminate H.
Qed.

(** C5, amended.  The lines that count are the lines of the text once
    their comments are removed and they are trimmed: when one of them
    has the form identifier, assign operator, definition, compilation
    returns a parser whose list of rule names is not empty and whose
    start rule is the first name registered, which is also the first
    name of the list.  In particular a line made of a text in which no
    comment starts, with nothing or a line comment after it, counts
    when the text without the white space around it has the form. *)
Theorem compile_registers_first_rule grammarText raw :
  In raw (split_lines grammarText) ->
  (RuleLine (clean_line raw) -> compiles_from_first_rule grammarText)
  /\ (forall body tail,
         raw = body ++ tail -> comment_free body tail = true ->
         line_comment tail -> RuleLine (trim body) ->
         compiles_from_first_rule grammarText).
Proof.
  intro Hin.
  assert (Hclean : RuleLine (clean_line raw) -> compiles_from_first_rule grammarText).
  { intro Hline. apply (parseGrammar_registers grammarText (clean_line raw));
      [now apply cleaned_line_read|exact Hline]. }
  split; [exact Hclean|].
  intros body tail -> Hfree Htail Hline. apply Hclean.
  now rewrite clean_line_free.
Qed.

Lemma compile_registers_first_rule_witness :
  In (str "  b ::= c // first")
     (split_lines (str "# rules" ++ newline ++ str "  b ::= c // first"
                     ++ newline ++ str "a := b"))
  /\ comment_free (str "  b ::= c ") (str "// first") = true
  /\ line_comment (str "// first")
  /\ RuleLine (trim (str "  b ::= c "))
  /\ compiles_from_first_rule
       (str "# rules" ++ newline ++ str "  b ::= c // first"
          ++ newline ++ str "a := b").
Proof.
  assert (H1 : In (str "  b ::= c // first")
                  (split_lines (str "# rules" ++ newline
                                  ++ str "  b ::= c // first"
                                  ++ newline ++ str "a := b")))
    by (right; left; reflexivity).
  assert (H2 : line_comment (str "// first")).
  { right. exists (str "//"), (str " first").
    split; [now left|split; reflexivity]. }
  assert (H3 : RuleLine (trim (str "  b ::= c "))).
  { exists (str "b"), (str " "), (str "::="), (str " "), (str "c").
    repeat split; try reflexivity; [now left|discriminate]. }
  split; [exact H1|split; [reflexivity|split; [exact H2|split; [exact H3|]]]].
  exact (proj2 (compile_registers_first_rule _ _ H1)
           (str "  b ::= c ") (str "// first") eq_refl eq_refl H2 H3).
Defined.

(** C6, as the specification states it: a text that holds comments only would
    not compile.  A block comment that runs over two lines is not
    removed, as comments are removed line by line; its second line
    reads [b ::= c] up to the closing bracket and is registered as a
    rule. *)
Lemma block_comment_over_lines_is_compiled :
  parseGrammar grammar_block_comment
  = Return {| rules := [(str "b",
                         Concatenation [NonTerminal (str "c");
                                        Terminal COMMENT_CLOSE])];
              startRule := Some (str "b") |}.
Proof. reflexivity. Qed.

(** C6, amended.  Compilation throws exactly when no line of the
    grammar text, once its comments are removed and it is trimmed,
    has the form of a rule definition, and then with the no-rules
    error; it always returns.  In particular it throws on the empty
    text and on a text whose every line holds only white space and
    comments that end on the line they start on, and a reference to a
    rule defined nowhere does not make it throw. *)
Theorem compile_error_iff_no_rule :
  (forall grammarText,
      (parseGrammar grammarText = Throw NoValidRules <->
       Forall (fun raw => ~ RuleLine (clean_line raw)) (split_lines grammarText))
      /\ (forall e, parseGrammar grammarText = Throw e -> e = NoValidRules)
      /\ parseGrammar grammarText <> OutOfFuel
      /\ (Forall CommentOnly (split_lines grammarText) ->
          parseGrammar grammarText = Throw NoValidRules))
  /\ parseGrammar [] = Throw NoValidRules
  /\ parseGrammar (str "a ::= b")
     = Return {| rules := [(str "a", NonTerminal (str "b"))];
                 startRule := Some (str "a") |}.
Proof.
  split; [|split; reflexivity].
  intro grammarText.
  pose proof (parseGrammar_spec grammarText) as Hspec.
  assert (Hiff : parseGrammar grammarText = Throw NoValidRules <->
                 Forall (fun raw => ~ RuleLine (clean_line raw))
                        (split_lines grammarText)).
  { rewrite <- no_rule_line_read, <- registered_nil.
    destruct (parseGrammar grammarText) as [p|e|]; [| |contradiction].
    - destruct Hspec as [Hne _]. split; [discriminate|congruence].
    - destruct Hspec as [-> Hnil]. now split. }
  split; [exact Hiff|]. split; [|split].
  - intros e He. rewrite He in Hspec. now destruct Hspec.
  - intro H. now rewrite H in Hspec.
  - intro Hcomments. apply Hiff.
    apply (Forall_impl _ (P := CommentOnly)); [|exact Hcomments].
    intros raw Hraw Hline. rewrite (clean_line_comment_only raw Hraw) in Hline.
    apply RuleLine_truthy in Hline. discriminate.
Qed.

Lemma compile_error_iff_no_rule_witness :
  Forall CommentOnly
         (split_lines (str "// rules follow" ++ newline
                         ++ COMMENT_OPEN ++ str " none yet " ++ COMMENT_CLOSE
                         ++ newline ++ str "   # nothing"))
  /\ parseGrammar (str "// rules follow" ++ newline
                     ++ COMMENT_OPEN ++ str " none yet " ++ COMMENT_CLOSE
                     ++ newline ++ str "   # nothing") = Throw NoValidRules.
Proof.
  assert (H1 : Forall CommentOnly
                 (split_lines (str "// rules follow" ++ newline
                                 ++ COMMENT_OPEN ++ str " none yet " ++ COMMENT_CLOSE
                                 ++ newline ++ str "   # nothing"))).
  { apply Forall_cons; [|apply Forall_cons; [|apply Forall_cons; [|apply Forall_nil]]].
    - exact (commented_line [] (str "//") (str " rules follow")
               eq_refl (or_introl eq_refl) eq_refl).
    - exact (closed_comment [] (str " none yet ") [] eq_refl eq_refl eq_refl
               (blank_line [] eq_refl)).
    - exact (commented_line (str "   ") (str "#") (str " nothing")
               eq_refl (or_intror eq_refl) eq_refl). }
  split; [exact H1|].
  exact (proj2 (proj2 (proj2 (proj1 compile_error_iff_no_rule _))) H1).
Defined.

End Properties.

(* ================================================================= *)
(** ** Further properties of the code *)

Module Further.
Import Compiler Engine EngineFacts CompilerFacts Properties.

(** *** Where a match ends, and how its nodes are laid out *)

Lemma tiles_app p q r ns ms :
  tiles p q ns -> tiles q r ms -> tiles p r (ns ++ ms).
Proof.
  revert p; induction ns as [|n ns IH]; intros p; simpl.
  - now intros ->.
  - intros [Hs Hn] Hm. split; [exact Hs|]. now apply IH.
Qed.

Lemma slice_full_length (s : jsstring) (pos len : nat) (v : jsstring) :
  slice s pos (pos + len) = v -> length v = len -> pos <= length s ->
  pos + len <= length s.
Proof.
  unfold slice. intros <- Hlen Hpos.
  rewrite length_firstn, length_skipn in Hlen. lia.
Qed.

Section Layout.

Variable the_rules : RuleMap.
Variable input : jsstring.

Lemma push_result_laid_out pos0 cur cs r :
  children_laid_out input pos0 cur cs -> laid_out input cur r ->
  children_laid_out input pos0 (position r) (push_result cs r).
Proof.
  intros [Ht Hc] (_ & Hs & Hn). unfold push_result, shaped, result_nodes in *.
  destruct (node r) as [n|], (children r) as [cs'|]; try contradiction.
  - destruct Hs as [Hs He]. split.
    + apply (tiles_app _ cur); [exact Ht|]. simpl. auto.
    + rewrite flat_map_app. apply Forall_app. split; [exact Hc|exact Hn].
  - split.
    + apply (tiles_app _ cur); [exact Ht|exact Hs].
    + rewrite flat_map_app. apply Forall_app. split; [exact Hc|exact Hn].
Qed.

Section Loops.

Variable rec : Matcher.
Hypothesis Hrec : forall p e r, rec p e = Return (Some r) -> laid_out input p r.

Lemma alternation_loop_laid_out pos alts r :
  alternation_loop rec pos alts = Return (Some r) -> laid_out input pos r.
Proof.
  induction alts as [|a alts IH]; simpl; [discriminate|].
  destruct (rec pos a) as [[r'|]| |] eqn:E; try discriminate; auto.
  intro H; injection H as <-. eauto.
Qed.

Lemma concatenation_loop_laid_out elements pos0 pos cs r :
  concatenation_loop rec elements pos cs = Return (Some r) ->
  children_laid_out input pos0 pos cs ->
  (pos <= length input -> position r <= length input)
  /\ node r = None
  /\ exists cs', children r = Some cs' /\ children_laid_out input pos0 (position r) cs'.
Proof.
  revert pos cs; induction elements as [|e els IH]; intros pos cs; simpl.
  - intro H; injection H as <-. intro Hcs. simpl. eauto.
  - destruct (rec pos e) as [[r'|]| |] eqn:E; try discriminate.
    intros H Hcs. pose proof (Hrec _ _ _ E) as Hr'.
    destruct (IH _ _ H (push_result_laid_out _ _ _ _ Hcs Hr')) as (Hb & Hn & Hc).
    split; [|auto]. intro Hpos. apply Hb. now apply Hr'.
Qed.

Lemma repetition_loop_laid_out max element k pos0 cs pos count cs' pos' count' :
  repetition_loop rec max element k cs pos count = Return (cs', pos', count') ->
  children_laid_out input pos0 pos cs ->
  (pos <= length input -> pos' <= length input)
  /\ children_laid_out input pos0 pos' cs'.
Proof.
  revert cs pos count; induction k as [|k IH]; intros cs pos count; simpl;
    [discriminate|].
  destruct (below_max count max).
  - destruct (rec pos element) as [[r|]| |] eqn:E; try discriminate.
    + intros H Hcs. pose proof (Hrec _ _ _ E) as Hr.
      destruct (IH _ _ _ H (push_result_laid_out _ _ _ _ Hcs Hr)) as [Hb Hc].
      split; [|exact Hc]. intro Hpos. apply Hb. now apply Hr.
    + intro H; injection H as <- <- <-. auto.
  - intro H; injection H as <- <- <-. auto.
Qed.

Lemma parseRule_with_laid_out pos name r :
  parseRule_with the_rules input rec pos name = Return (Some r) ->
  (pos <= length input -> rule_position r <= length input)
  /\ node_type (rule_node r) = name
  /\ node_start (rule_node r) = pos
  /\ node_end (rule_node r) = rule_position r
  /\ Forall children_tile (subnodes (rule_node r)).
Proof.
  unfold parseRule_with.
  destruct (map_get the_rules name) as [rule|]; [|discriminate].
  destruct (rec pos rule) as [[r'|]| |] eqn:E; try discriminate.
  intro H; injection H as <-. destruct (Hrec _ _ _ E) as (Hb & Hs & Hn).
  simpl. repeat split; auto.
  unfold shaped, result_nodes in *.
  destruct (node r') as [n|], (children r') as [cs|]; try contradiction;
    constructor; simpl.
  - now left.
  - constructor.
  - now right.
  - exact Hn.
Qed.

End Loops.

Lemma parseExpression_laid_out fuel pos e r :
  parseExpression the_rules input fuel pos e = Return (Some r) -> laid_out input pos r.
Proof.
  revert pos e r; induction fuel as [|fuel IH]; intros pos e r; [discriminate|].
  destruct e as [alts|els|mn mx el|el|v|lo hi|name|]; simpl.
  - apply alternation_loop_laid_out. exact IH.
  - intro H.
    destruct (concatenation_loop_laid_out _ IH els pos pos [] r H)
      as (Hb & Hn & cs' & Hc & Ht & Hf);
      [split; [reflexivity|constructor]|].
    split; [exact Hb|]. unfold shaped, result_nodes. rewrite Hn, Hc. auto.
  - destruct (repetition_loop _ _ _ _ _ _ _) as [[[cs' pos'] count']| |] eqn:E;
      try discriminate.
    destruct (below_min count' mn); [discriminate|].
    intro H; injection H as <-.
    destruct (repetition_loop_laid_out _ IH _ _ _ pos _ _ _ _ _ _ E)
      as (Hb & Ht & Hf); [split; [reflexivity|constructor]|].
    split; [exact Hb|]. unfold shaped, result_nodes. simpl. auto.
  - destruct (parseExpression _ _ fuel pos el) as [[r'|]| |] eqn:E;
      try discriminate; intro H; injection H as <-.
    + eauto.
    + repeat split; simpl; auto; constructor.
  - destruct (str_eqb _ v) eqn:E; [|discriminate].
    intro H; injection H as <-. apply str_eqb_eq in E.
    split; [|split].
    + simpl. intro Hpos. now apply (slice_full_length input pos (length v) v).
    + unfold shaped. simpl. auto.
    + unfold result_nodes. simpl. repeat constructor.
  - destruct (char_at input pos) as [c|] eqn:E; [|discriminate].
    destruct (in_range c lo hi); [|discriminate].
    intro H; injection H as <-.
    split; [|split].
    + simpl. intros _. unfold char_at in E.
      assert (pos < length input) by (apply nth_error_Some; congruence). lia.
    + unfold shaped. simpl. auto.
    + unfold result_nodes. simpl. repeat constructor.
  - destruct (parseRule_with _ _ _ pos name) as [[rr|]| |] eqn:E;
      try discriminate.
    intro H; injection H as <-.
    destruct (parseRule_with_laid_out _ IH _ _ _ E) as (Hb & _ & Hs & He & Hn).
    split; [exact Hb|split].
    + unfold shaped. simpl. auto.
    + unfold result_nodes. simpl. rewrite app_nil_r. exact Hn.
  - intro H; injection H as <-. repeat split; simpl; auto; constructor.
Qed.

Lemma parseRule_laid_out fuel pos name r :
  parseRule the_rules input fuel pos name = Return (Some r) ->
  (pos <= length input -> rule_position r <= length input)
  /\ node_type (rule_node r) = name
  /\ node_start (rule_node r) = pos
  /\ node_end (rule_node r) = rule_position r
  /\ Forall children_tile (subnodes (rule_node r)).
Proof.
  apply parseRule_with_laid_out. intros p e r'. apply parseExpression_laid_out.
Qed.

End Layout.

(** X1. A parse that returns a tree has consumed the whole input: the
    root is tagged with the start rule, starts at 0, ends at the
    length of the input and its value is the input. *)
Theorem parse_root_covers_input fuel p input root :
  parse fuel p input = Return root ->
  startRule p = Some (node_type root)
  /\ node_start root = 0
  /\ node_end root = length input
  /\ node_value root = input.
Proof.
  unfold parse. destruct (startRule p) as [[|c s]|]; try discriminate.
  destruct (parseRule _ _ _ _ _) as [[r|]| |] eqn:E; try discriminate.
  destruct (Nat.ltb _ _) eqn:Hlt; [discriminate|].
  intro H; injection H as <-. apply Nat.ltb_ge in Hlt.
  destruct (parseRule_laid_out _ _ _ _ _ _ E) as (Hb & Ht & Hs & He & _).
  specialize (Hb (Nat.le_0_l _)).
  assert (Hend : node_end (rule_node r) = length input) by lia.
  apply parseRule_good in E as [_ Hspan].
  destruct (rule_node r) as [ty v st en cs] eqn:En. simpl in *.
  apply Forall_inv in Hspan as [Hv _]. simpl in Hv.
  repeat split; auto; [congruence|].
  rewrite Hv, Hs, Hend. unfold slice. simpl.
  rewrite Nat.sub_0_r. apply firstn_all.
Qed.

Lemma parse_root_covers_input_witness :
  parse 5 parser_digits_range (str "123") = Return number_node
  /\ startRule parser_digits_range = Some (node_type number_node)
  /\ node_start number_node = 0
  /\ node_end number_node = length (str "123")
  /\ node_value number_node = str "123".
Proof.
  assert (H : parse 5 parser_digits_range (str "123") = Return number_node)
    by reflexivity.
  split; [exact H|].
  exact (parse_root_covers_input 5 parser_digits_range (str "123") number_node H).
Defined.

(** X2. A match started inside the input never moves backwards and
    never ends beyond the end of the input. *)
Theorem match_stays_inside the_rules input fuel pos e r :
  parseExpression the_rules input fuel pos e = Return (Some r) ->
  pos <= length input ->
  pos <= position r /\ position r <= length input.
Proof.
  intros H Hpos. split.
  - now apply parseExpression_good in H as [H _].
  - apply parseExpression_laid_out in H as [H _]. now apply H.
Qed.

Lemma match_stays_inside_witness :
  parseExpression [] (str "hi") 3 1
    (Concatenation [Terminal (str "i"); Optional (Terminal (str "!"))])
  = Return (Some {| node := None;
                    children := Some [{| node_type := str "terminal";
                                         node_value := str "i";
                                         node_start := 1; node_end := 2;
                                         node_children := [] |}];
                    position := 2 |})
  /\ 1 <= length (str "hi")
  /\ 1 <= 2 /\ 2 <= length (str "hi").
Proof.
  assert (H : parseExpression [] (str "hi") 3 1
                (Concatenation [Terminal (str "i"); Optional (Terminal (str "!"))])
              = Return (Some {| node := None;
                                children := Some [{| node_type := str "terminal";
                                                     node_value := str "i";
                                                     node_start := 1; node_end := 2;
                                                     node_children := [] |}];
                                position := 2 |})) by reflexivity.
  assert (H1 : 1 <= length (str "hi")) by (simpl; lia).
  split; [exact H|split; [exact H1|]].
  exact (match_stays_inside [] (str "hi") 3 1 _ _ H H1).
Defined.

(** X3. In every tree [parseRule] or [parse] returns, each node either
    has no child or has children that follow one another without gap
    or overlap from the start of the node to its end. *)
Theorem children_tile_their_parent the_rules input fuel :
  (forall pos name r n,
      parseRule the_rules input fuel pos name = Return (Some r) ->
      In n (subnodes (rule_node r)) -> children_tile n)
  /\ (forall start root n,
         parse fuel {| rules := the_rules; startRule := start |} input = Return root ->
         In n (subnodes root) -> children_tile n).
Proof.
  split.
  - intros pos name r n H Hin.
    apply parseRule_laid_out in H as (_ & _ & _ & _ & H).
    rewrite Forall_forall in H. now apply H.
  - intros start root n. unfold parse. simpl.
    destruct start as [[|c s]|]; try discriminate.
    destruct (parseRule _ _ _ _ _) as [[r|]| |] eqn:E; try discriminate.
    destruct (Nat.ltb _ _); [discriminate|].
    intro H; injection H as <-. intro Hin.
    apply parseRule_laid_out in E as (_ & _ & _ & _ & H).
    rewrite Forall_forall in H. now apply H.
Qed.

Lemma children_tile_their_parent_witness :
  parse 5 parser_digits_range (str "123") = Return number_node
  /\ In number_node (subnodes number_node)
  /\ children_tile number_node.
Proof.
  assert (H : parse 5 parser_digits_range (str "123") = Return number_node)
    by reflexivity.
  assert (H1 : In number_node (subnodes number_node)) by (left; reflexivity).
  split; [exact H|split; [exact H1|]].
  exact (proj2 (children_tile_their_parent (rules parser_digits_range) (str "123") 5)
           (startRule parser_digits_range) _ _ H H1).
Defined.

(** *** Greedy repetition *)

(** The loop of a repetition without upper bound is left only where
    the element fails. *)
Lemma repetition_loop_exit (rec : Matcher) element k cs pos count cs' pos' count' :
  repetition_loop rec None element k cs pos count = Return (cs', pos', count') ->
  rec pos' element = Return None.
Proof.
  revert cs pos count; induction k as [|k IH]; intros cs pos count; simpl;
    [discriminate|].
  destruct (rec pos element) as [[r|]| |] eqn:E; try discriminate.
  - apply IH.
  - intro H; injection H as _ <- _. exact E.
Qed.

(** X4. A repetition without upper bound is greedy: where it stops,
    its element no longer matches. *)
Theorem unbounded_repetition_stops_at_failure the_rules input pos mn element r :
  Evaluates the_rules input pos (Repetition mn None element) (Return (Some r)) ->
  Evaluates the_rules input (position r) element (Return None).
Proof.
  intros ([|fuel] & H & _); [discriminate|]. simpl in H.
  destruct (repetition_loop _ _ _ _ _ _ _) as [[[cs' pos'] count']| |] eqn:E;
    try discriminate.
  destruct (below_min count' mn); [discriminate|].
  injection H as <-. simpl.
  apply repetition_loop_exit in E. exists fuel. split; [exact E|discriminate].
Qed.

Lemma unbounded_repetition_stops_at_failure_witness :
  Evaluates [] (str "aab") 0 (Repetition (Some 0%N) None (Terminal (str "a")))
    (Return (Some {| node := None;
                     children := Some [{| node_type := str "terminal";
                                          node_value := str "a";
                                          node_start := 0; node_end := 1;
                                          node_children := [] |};
                                       {| node_type := str "terminal";
                                          node_value := str "a";
                                          node_start := 1; node_end := 2;
                                          node_children := [] |}];
                     position := 2 |}))
  /\ Evaluates [] (str "aab") 2 (Terminal (str "a")) (Return None).
Proof.
  assert (H : Evaluates [] (str "aab") 0 (Repetition (Some 0%N) None (Terminal (str "a")))
                (Return (Some {| node := None;
                                 children := Some [{| node_type := str "terminal";
                                                      node_value := str "a";
                                                      node_start := 0; node_end := 1;
                                                      node_children := [] |};
                                                   {| node_type := str "terminal";
                                                      node_value := str "a";
                                                      node_start := 1; node_end := 2;
                                                      node_children := [] |}];
                                 position := 2 |})))
    by (exists 4; split; [reflexivity|discriminate]).
  split; [exact H|].
  exact (unbounded_repetition_stops_at_failure [] (str "aab") 0 (Some 0%N) _ _ H).
Defined.

Lemma concatenation_loop_adjacent (rec : Matcher) pre x y post pos cs r :
  concatenation_loop rec (pre ++ x :: y :: post) pos cs = Return (Some r) ->
  exists p rx ry,
    rec p x = Return (Some rx) /\ rec (position rx) y = Return (Some ry).
Proof.
  revert pos cs; induction pre as [|e pre IH]; intros pos cs; simpl.
  - destruct (rec pos x) as [[rx|]| |] eqn:Ex; try discriminate.
    destruct (rec (position rx) y) as [[ry|]| |] eqn:Ey; try discriminate.
    intros _. eauto.
  - destruct (rec pos e) as [[re|]| |]; try discriminate. apply IH.
Qed.

(** X5. No backtracking into a quantifier: a concatenation in which an
    unbounded repetition of an element is directly followed by that
    same element never succeeds, on any input, at any position,
    whatever comes before and after. *)
Theorem repetition_then_same_element_never_matches
        the_rules input fuel pos pre mn element post :
  succeeded
    (parseExpression the_rules input fuel pos
       (Concatenation (pre ++ Repetition mn None element :: element :: post)))
  = false.
Proof.
  destruct fuel as [|fuel]; [reflexivity|]. simpl.
  destruct (concatenation_loop _ _ _ _) as [[r|]| |] eqn:E; try reflexivity.
  exfalso.
  apply concatenation_loop_adjacent in E as (p & rx & ry & Hx & Hy).
  destruct fuel as [|fuel]; [discriminate|]. simpl in Hx.
  destruct (repetition_loop _ _ _ _ _ _ _) as [[[cs' pos'] count']| |] eqn:El;
    try discriminate.
  destruct (below_min count' mn); [discriminate|].
  injection Hx as <-. cbn [position] in Hy.
  apply repetition_loop_exit in El.
  pose proof (parseExpression_stable the_rules input fuel (S fuel) _ _ _ El) as Hs.
  rewrite Hs in Hy; [discriminate|discriminate|lia].
Qed.

(** *** Bounded repetition and the counter of the loop *)

Lemma increment_below count :
  (count < TWO_53)%N -> increment count = (count + 1)%N.
Proof.
  intro H. unfold increment, round_double.
  destruct (N.ltb_spec (count + 1) TWO_53) as [Hlt|Hge]; [reflexivity|].
  replace (count + 1)%N with TWO_53 by lia. reflexivity.
Qed.

Lemma increment_stalls : increment TWO_53 = TWO_53.
Proof. reflexivity. Qed.

Lemma increment_bounded count :
  (count <= TWO_53)%N -> (increment count <= TWO_53)%N.
Proof.
  intro H. destruct (N.eq_dec count TWO_53) as [->|Hne].
  - rewrite increment_stalls. lia.
  - rewrite increment_below by lia. lia.
Qed.

Lemma bounded_loop_returns the_rules input m element :
  (m <= TWO_53)%N ->
  (forall p, exists o, Evaluates the_rules input p element o) ->
  forall n cs pos count,
    (N.to_nat m - N.to_nat count <= n) ->
    exists F K o,
      repetition_loop (parseExpression the_rules input F) (Some m) element K
        cs pos count = o
      /\ o <> OutOfFuel.
Proof.
  intros Hm Hel. induction n as [|n IH]; intros cs pos count Hn.
  - exists 0, 1, (Return (cs, pos, count)). split; [|discriminate]. simpl.
    assert (Hge : (count <? m)%N = false) by (apply N.ltb_ge; lia).
    now rewrite Hge.
  - destruct (N.ltb count m) eqn:Hlt.
    + assert (Hinc : increment count = (count + 1)%N)
        by (apply increment_below; apply N.ltb_lt in Hlt; lia).
      destruct (Hel pos) as (o1 & f & Hf & Ho1).
      destruct o1 as [[r|]|e|]; [| | |congruence].
      * destruct (IH (push_result cs r) (position r) (count + 1)%N ltac:(lia))
          as (F & K & o & Hloop & Ho).
        exists (Nat.max f F), (S K), o. split; [|exact Ho]. simpl. rewrite Hlt.
        rewrite (parseExpression_stable _ _ f (Nat.max f F) _ _ _ Hf Ho1 ltac:(lia)).
        rewrite Hinc.
        destruct (repetition_loop_mono
                    (parseExpression the_rules input F)
                    (parseExpression the_rules input (Nat.max f F))
                    (fun p e => parseExpression_mono the_rules input F (Nat.max f F)
                                  p e ltac:(lia))
                    (Some m) element K K (push_result cs r) (position r)
                    (count + 1)%N (le_n K)) as [H|H]; congruence.
      * exists f, 1, (Return (cs, pos, count)). split; [|discriminate].
        simpl. now rewrite Hlt, Hf.
      * exists f, 1, (Throw e). split; [|discriminate].
        simpl. now rewrite Hlt, Hf.
    + exists 0, 1, (Return (cs, pos, count)). split; [|discriminate].
      simpl. now rewrite Hlt.
Qed.

(** X6. A repetition whose upper bound is at most 2^53 returns
    whenever its element does, also when the element matches without
    consuming input: the counter reaches the bound. *)
Theorem bounded_repetition_returns the_rules input pos mn m element :
  (m <= TWO_53)%N ->
  (forall p, exists o, Evaluates the_rules input p element o) ->
  exists o, Evaluates the_rules input pos (Repetition mn (Some m) element) o.
Proof.
  intros Hm Hel.
  destruct (bounded_loop_returns the_rules input m element Hm Hel
              (N.to_nat m) [] pos 0%N ltac:(lia)) as (F & K & o & Hloop & Ho).
  set (G := Nat.max F K).
  assert (HG : repetition_loop (parseExpression the_rules input G) (Some m) element G
                 [] pos 0%N = o).
  { destruct (repetition_loop_mono
                (parseExpression the_rules input F)
                (parseExpression the_rules input G)
                (fun p e => parseExpression_mono the_rules input F G p e
                              ltac:(unfold G; lia))
                (Some m) element K G [] pos 0%N ltac:(unfold G; lia)) as [H|H];
      congruence. }
  destruct o as [[[cs' pos'] count']|e|]; [| |congruence].
  - eexists. exists (S G). simpl. rewrite HG. split; [reflexivity|].
    destruct (below_min count' mn); discriminate.
  - exists (Throw e), (S G). simpl. rewrite HG. split; [reflexivity|discriminate].
Qed.

Lemma bounded_repetition_returns_witness :
  (3 <= TWO_53)%N
  /\ (forall p, exists o, Evaluates [] [] p Empty o)
  /\ exists o, Evaluates [] [] 0 (Repetition (Some 0%N) (Some 3%N) Empty) o.
Proof.
  assert (H0 : (3 <= TWO_53)%N) by (unfold TWO_53; lia).
  assert (H : forall p, exists o, Evaluates [] [] p Empty o).
  { intro p. exists (Return (Some (empty_match p))), 1.
    split; [reflexivity|discriminate]. }
  split; [exact H0|split; [exact H|]].
  exact (bounded_repetition_returns [] [] 0 (Some 0%N) 3 Empty H0 H).
Defined.

Lemma stalled_loop_diverges the_rules input P m element fuel :
  (TWO_53 < m)%N ->
  never_fails_on the_rules input P element ->
  forall k cs pos count, (count <= TWO_53)%N -> P pos ->
    repetition_loop (parseExpression the_rules input fuel) (Some m) element k
      cs pos count = OutOfFuel.
Proof.
  intros Hm Hel. induction k as [|k IH]; intros cs pos count Hc Hpos; simpl;
    [reflexivity|].
  rewrite (proj2 (N.ltb_lt count m)) by lia.
  destruct (Hel fuel pos Hpos) as [H|(r & H & Hr)]; rewrite H; [reflexivity|].
  apply IH; [now apply increment_bounded|exact Hr].
Qed.

(** X21. The counter of the loop is a double and stops growing
    at 2^53, so an upper bound above 2^53 is never reached: a
    repetition with such a bound whose element succeeds at the
    current position without consuming input never returns, like the
    unbounded one. *)
Theorem bound_above_counter_is_never_reached the_rules input mn m element pos r :
  (TWO_53 < m)%N ->
  Evaluates the_rules input pos element (Return (Some r)) ->
  position r = pos ->
  forall fuel,
    parseExpression the_rules input fuel pos (Repetition mn (Some m) element)
    = OutOfFuel.
Proof.
  intros Hm (f & Hf & Ho) Hr [|fuel]; [reflexivity|]. simpl.
  rewrite (stalled_loop_diverges the_rules input (eq pos) m element fuel Hm);
    [reflexivity| |unfold TWO_53; lia|reflexivity].
  intros g q <-.
  destruct (Nat.le_ge_cases g f) as [Hle|Hle].
  - destruct (parseExpression_mono the_rules input g f pos element Hle) as [H|H];
      [now left|]. right. exists r. split; congruence.
  - right. exists r. split; [|now symmetry].
    now apply (parseExpression_stable _ _ f).
Qed.

Lemma bound_above_counter_is_never_reached_witness :
  (TWO_53 < 9007199254740994)%N
  /\ Evaluates [] [] 0 Empty (Return (Some (empty_match 0)))
  /\ position (empty_match 0) = 0
  /\ forall fuel,
      parseExpression [] [] fuel 0
        (Repetition (Some 0%N) (Some 9007199254740994%N) Empty) = OutOfFuel.
Proof.
  assert (H0 : (TWO_53 < 9007199254740994)%N) by (unfold TWO_53; lia).
  assert (H1 : Evaluates [] [] 0 Empty (Return (Some (empty_match 0))))
    by (exists 1; split; [reflexivity|discriminate]).
  split; [exact H0|split; [exact H1|split; [reflexivity|]]].
  exact (bound_above_counter_is_never_reached [] [] (Some 0%N) _ Empty 0
           (empty_match 0) H0 H1 eq_refl).
Defined.

(** The same from a grammar text: a closing bracket on its own lets
    the bounds reach [parseElement], and the element [?] over a
    terminal never fails. *)
Example bound_above_counter_grammar :
  parseGrammar (str "r ::= ]?{,9007199254740994}")
  = Return {| rules := [(str "r",
                         Repetition (Some 0%N) (Some 9007199254740994%N)
                                    (Optional (Terminal (str "]"))))];
              startRule := Some (str "r") |}
  /\ forall input fuel,
       parse fuel {| rules := [(str "r",
                                Repetition (Some 0%N) (Some 9007199254740994%N)
                                           (Optional (Terminal (str "]"))))];
                     startRule := Some (str "r") |} input = OutOfFuel.
Proof.
  split; [reflexivity|]. intros input fuel.
  unfold parse. simpl startRule. cbv iota.
  unfold parseRule, parseRule_with. simpl map_get. cbv iota.
  destruct fuel as [|fuel]; [reflexivity|]. cbn [parseExpression].
  rewrite (stalled_loop_diverges _ input (fun _ => True) _ _ fuel);
    [reflexivity|unfold TWO_53; lia| |unfold TWO_53; lia|exact I].
  apply optional_never_fails. intros f q e. apply terminal_no_throw.
Qed.

(** *** Leaves *)

Lemma slice_occurs input pos v :
  pos <= length input ->
  (slice input pos (pos + length v) = v <-> occurs_at input pos v).
Proof.
  intro Hpos. unfold slice, occurs_at.
  replace (pos + length v - pos) with (length v) by lia. split.
  - intro H. exists (firstn pos input), (skipn (length v) (skipn pos input)).
    split.
    + rewrite <- H at 1. now rewrite !firstn_skipn.
    + rewrite length_firstn. lia.
  - intros (pre & post & -> & <-).
    rewrite skipn_app, Nat.sub_diag, skipn_all. simpl.
    rewrite firstn_app, Nat.sub_diag, firstn_all. simpl. apply app_nil_r.
Qed.

(** X7. A terminal matches at an offset inside the input exactly when
    its literal occurs there; the match is then a single leaf that
    ends right after the literal, and otherwise the match fails
    without an error. *)
Theorem terminal_matches_where_it_occurs the_rules input fuel pos v :
  pos <= length input ->
  (occurs_at input pos v ->
   parseExpression the_rules input (S fuel) pos (Terminal v)
   = Return (Some (leaf_result "terminal" v pos)))
  /\ (~ occurs_at input pos v ->
      parseExpression the_rules input (S fuel) pos (Terminal v) = Return None).
Proof.
  intro Hpos. pose proof (slice_occurs input pos v Hpos) as Hiff. simpl.
  destruct (str_eqb _ v) eqn:E.
  - apply str_eqb_eq in E. split; [reflexivity|]. intro Hn. now apply Hiff in E.
  - split; [|reflexivity]. intro Ho. apply Hiff, str_eqb_eq in Ho. congruence.
Qed.

Lemma terminal_matches_where_it_occurs_witness :
  2 <= length (str "say hi")
  /\ (occurs_at (str "say hi") 4 (str "hi") /\ 4 <= length (str "say hi"))
  /\ parseExpression [] (str "say hi") 1 4 (Terminal (str "hi"))
     = Return (Some (leaf_result "terminal" (str "hi") 4)).
Proof.
  assert (H1 : 4 <= length (str "say hi")) by (simpl; lia).
  assert (H2 : occurs_at (str "say hi") 4 (str "hi")).
  { exists (str "say "), []. split; reflexivity. }
  split; [simpl; lia|split; [split; [exact H2|exact H1]|]].
  exact (proj1 (terminal_matches_where_it_occurs [] (str "say hi") 0 4 (str "hi") H1)
           H2).
Defined.

Lemma str_leb_units (a b : code_unit) : str_leb [a] [b] = N.leb a b.
Proof.
  simpl. destruct (N.ltb_spec a b) as [H|H].
  - symmetry. apply N.leb_le. lia.
  - destruct (N.eqb_spec a b) as [->|Hne].
    + symmetry. apply N.leb_refl.
    + symmetry. apply N.leb_gt. lia.
Qed.

(** X8. A range between two code units matches exactly the code units
    of the input that lie between them, bounds included, and consumes
    one position; at the end of the input, and for a range whose
    upper end is missing, the match fails. *)
Theorem character_range_matches_between the_rules input fuel pos lo hi :
  parseExpression the_rules input (S fuel) pos (CharacterRange [lo] (Some [hi]))
  = match char_at input pos with
    | Some c =>
        if N.leb lo c && N.leb c hi
        then Return (Some (leaf_result "character" [c] pos))
        else Return None
    | None => Return None
    end
  /\ parseExpression the_rules input (S fuel) pos (CharacterRange [lo] None)
     = Return None.
Proof.
  split; cbn [parseExpression]; destruct (char_at input pos) as [c|];
    try reflexivity.
  unfold in_range. now rewrite !str_leb_units.
Qed.

(** X9. The node of a rule whose root expression is a terminal, a
    character range or a rule reference has no children: the leaf the
    rule matched through is not kept under it. *)
Theorem rule_over_leaf_has_no_children the_rules input fuel pos name e r :
  map_get the_rules name = Some e -> is_leaf e = true ->
  parseRule the_rules input fuel pos name = Return (Some r) ->
  node_children (rule_node r) = [].
Proof. apply parseRule_leaf_children. Qed.

Lemma rule_over_leaf_has_no_children_witness :
  map_get [(str "b", NonTerminal (str "a")); (str "a", Terminal (str "x"))] (str "b")
  = Some (NonTerminal (str "a"))
  /\ is_leaf (NonTerminal (str "a")) = true
  /\ parseRule [(str "b", NonTerminal (str "a")); (str "a", Terminal (str "x"))]
       (str "x") 3 0 (str "b")
     = Return (Some {| rule_node := {| node_type := str "b"; node_value := str "x";
                                      node_start := 0; node_end := 1;
                                      node_children := [] |};
                       rule_position := 1 |})
  /\ node_children {| node_type := str "b"; node_value := str "x";
                      node_start := 0; node_end := 1;
                      node_children := [] |} = [].
Proof.
  assert (H3 : parseRule [(str "b", NonTerminal (str "a")); (str "a", Terminal (str "x"))]
                 (str "x") 3 0 (str "b")
               = Return (Some {| rule_node := {| node_type := str "b";
                                                node_value := str "x";
                                                node_start := 0; node_end := 1;
                                                node_children := [] |};
                                 rule_position := 1 |})) by reflexivity.
  split; [reflexivity|split; [reflexivity|split; [exact H3|]]].
  exact (rule_over_leaf_has_no_children
           [(str "b", NonTerminal (str "a")); (str "a", Terminal (str "x"))]
           (str "x") 3 0 (str "b") (NonTerminal (str "a")) _ eq_refl eq_refl H3).
Defined.

(** *** The tokenizer *)

Lemma visible_app s t : visible (s ++ t) = visible s ++ visible t.
Proof. apply filter_app. Qed.

Lemma visible_dropWhile s : visible (dropWhile is_whitespace s) = visible s.
Proof.
  induction s as [|c s IH]; simpl; [reflexivity|].
  destruct (is_whitespace c) eqn:E; simpl; [exact IH|now rewrite E].
Qed.

Lemma visible_rev s : visible (rev s) = rev (visible s).
Proof.
  induction s as [|c s IH]; simpl; [reflexivity|].
  rewrite visible_app, IH. simpl.
  destruct (is_whitespace c); simpl; [apply app_nil_r|reflexivity].
Qed.

Lemma visible_trim s : visible (trim s) = visible s.
Proof.
  unfold trim.
  now rewrite visible_rev, visible_dropWhile, visible_rev, rev_involutive,
    visible_dropWhile.
Qed.

Lemma blank_visible s : truthy (trim s) = false -> visible s = [].
Proof.
  intro H. rewrite <- visible_trim. now destruct (trim s).
Qed.

Lemma visible_whitespace c : is_whitespace c = true -> visible [c] = [].
Proof. unfold visible. simpl. now intros ->. Qed.

Lemma tokenize_step_visible st c :
  visible (tok_text (tokenize_step st c)) = visible (tok_text st) ++ visible [c].
Proof.
  unfold tokenize_step, tok_text.
  destruct (truthy (trim (current st))) eqn:Et;
    repeat match goal with
           | |- context [if ?b then _ else _] => destruct b eqn:?
           end;
    cbn [tokens current];
    rewrite ?concat_app, ?visible_app, ?visible_trim; cbn [concat];
    rewrite ?app_nil_r, ?visible_app, ?visible_trim, <- ?app_assoc;
    try reflexivity;
    try (rewrite (blank_visible _ Et));
    try (rewrite ?app_nil_r; reflexivity);
    try (rewrite (visible_whitespace c) by assumption; now rewrite ?app_nil_r).
Qed.

Lemma tokenize_fold_visible text st :
  visible (tok_text (fold_left tokenize_step text st))
  = visible (tok_text st) ++ visible text.
Proof.
  revert st; induction text as [|c text IH]; intro st; simpl.
  - now rewrite app_nil_r.
  - rewrite IH, tokenize_step_visible, <- app_assoc.
    f_equal. symmetry. apply (visible_app [c] text).
Qed.

Lemma tokenize_step_nonempty st c :
  Forall (fun t => t <> []) (tokens st) ->
  Forall (fun t => t <> []) (tokens (tokenize_step st c)).
Proof.
  intro H. unfold tokenize_step.
  repeat match goal with
         | |- context [if ?b then _ else _] => destruct b eqn:?
         end;
    cbn [tokens]; try exact H;
    apply Forall_app; (split; [exact H|]); constructor; try constructor;
    try (now destruct (current st));
    match goal with
    | E : truthy ?s = true |- ?s <> [] => now destruct s
    | E : truthy ?s && _ = true |- ?s <> [] =>
        apply andb_true_iff in E as [E _]; now destruct s
    end.
Qed.

Lemma tokenize_fold_nonempty text st :
  Forall (fun t => t <> []) (tokens st) ->
  Forall (fun t => t <> []) (tokens (fold_left tokenize_step text st)).
Proof.
  revert st; induction text as [|c text IH]; intros st H; simpl; [exact H|].
  apply IH. now apply tokenize_step_nonempty.
Qed.

(** X10. [tokenize] neither drops nor reorders a character that is not
    white space: the tokens, put end to end, have the visible
    characters of the text.  No token is empty and none is longer
    than the text. *)
Theorem tokenize_keeps_visible_characters text :
  visible (concat (tokenize text)) = visible text
  /\ Forall (fun t => t <> [] /\ length t <= length text) (tokenize text).
Proof.
  split.
  - unfold tokenize.
    set (st0 := {| tokens := []; current := []; inQuotes := false;
                   quoteChar := None; groupDepth := 0 |}).
    pose proof (tokenize_fold_visible text st0) as H.
    unfold tok_text in H at 1. rewrite visible_app in H.
    destruct (truthy (trim (current (fold_left tokenize_step text st0)))) eqn:Et.
    + now rewrite concat_app, visible_app; cbn [concat];
        rewrite app_nil_r, visible_trim.
    + now rewrite (blank_visible _ Et), app_nil_r in H.
  - apply Forall_forall. intros t Hin. split; [|now apply tokenize_length].
    revert t Hin. apply Forall_forall. unfold tokenize.
    set (st0 := {| tokens := []; current := []; inQuotes := false;
                   quoteChar := None; groupDepth := 0 |}).
    pose proof (tokenize_fold_nonempty text st0 (Forall_nil _)) as H.
    destruct (truthy (trim (current (fold_left tokenize_step text st0)))) eqn:Et;
      [|exact H].
    apply Forall_app. split; [exact H|]. constructor; [|constructor].
    now destruct (trim (current (fold_left tokenize_step text st0))).
Qed.

(** *** The cases of [parseElement] *)

Lemma startsWith_head a s x : startsWith (a :: s) [x] = N.eqb x a.
Proof. simpl. apply andb_true_r. Qed.

Lemma endsWith_last s d r x : rev s = d :: r -> endsWith s [x] = N.eqb x d.
Proof. unfold endsWith. intros ->. simpl. apply andb_true_r. Qed.

Lemma trim_head_last s a s' d r :
  s = a :: s' -> rev s = d :: r ->
  is_whitespace a = false -> is_whitespace d = false -> trim s = s.
Proof.
  intros -> Hrev Ha Hd. unfold trim.
  rewrite (dropWhile_stop _ _ _ Ha), Hrev, (dropWhile_stop _ _ _ Hd), <- Hrev.
  apply rev_involutive.
Qed.

(** [parseElement] on a text that begins and ends with a visible
    character. *)
Lemma parseElement_classify fuel text a s' d r :
  text = a :: s' -> rev text = d :: r ->
  is_whitespace a = false -> is_whitespace d = false ->
  parseElement (S fuel) text = classify (parseElement fuel) text a d.
Proof.
  intros Htext Hrev Ha Hd.
  pose proof (trim_head_last text a s' d r Htext Hrev Ha Hd) as Htrim.
  cbn [parseElement]. rewrite Htrim. unfold classify.
  change (str "*") with [42%N]. change (str "+") with [43%N].
  change (str "?") with [63%N]. change (str "(") with [40%N].
  change (str ")") with [41%N]. change (str "[") with [91%N].
  change (str "]") with [93%N]. change (str "{") with [123%N].
  change (str "}") with [125%N].
  assert (Hs : forall x, startsWith text [x] = N.eqb x a)
    by (intro x; rewrite Htext; apply startsWith_head).
  assert (He : forall x, endsWith text [x] = N.eqb x d)
    by (intro x; now apply (endsWith_last text d r)).
  rewrite !Hs, !He. reflexivity.
Qed.

Lemma dropWhile_idem (q : code_unit -> bool) s :
  dropWhile q (dropWhile q s) = dropWhile q s.
Proof.
  induction s as [|c s IH]; simpl; [reflexivity|].
  destruct (q c) eqn:E; [exact IH|]. simpl. now rewrite E.
Qed.

Lemma dropWhile_head (q : code_unit -> bool) s x u :
  dropWhile q s = x :: u -> q x = false.
Proof.
  induction s as [|c s IH]; simpl; [discriminate|].
  destruct (q c) eqn:E; [exact IH|]. intro H; injection H as <- _. exact E.
Qed.

Lemma dropWhile_snoc (q : code_unit -> bool) s c :
  q c = false -> dropWhile q (s ++ [c]) = dropWhile q s ++ [c].
Proof.
  intro Hc. induction s as [|x s IH]; simpl; [now rewrite Hc|].
  destruct (q x); [exact IH|reflexivity].
Qed.

Lemma trim_snoc s c :
  is_whitespace c = false -> trim (s ++ [c]) = dropWhile is_whitespace s ++ [c].
Proof.
  intro Hc. unfold trim.
  rewrite (dropWhile_snoc _ _ _ Hc), rev_app_distr. simpl.
  rewrite Hc. simpl. now rewrite rev_involutive.
Qed.

Lemma trim_dropWhile s : trim (dropWhile is_whitespace s) = trim s.
Proof. unfold trim. now rewrite dropWhile_idem. Qed.

(** [parseElement] only looks at the trimmed text. *)
Lemma parseElement_ext fuel x y :
  trim x = trim y -> parseElement fuel x = parseElement fuel y.
Proof. intro H. destruct fuel; [reflexivity|]. cbn [parseElement]. now rewrite H. Qed.

Lemma drop_last_snoc (s : jsstring) c : drop_last (s ++ [c]) = s.
Proof.
  unfold drop_last. rewrite length_app. simpl.
  replace (length s + 1 - 1) with (length s) by lia.
  rewrite firstn_app, Nat.sub_diag, firstn_all. simpl. apply app_nil_r.
Qed.

Lemma strip_ends_mid a (mid : jsstring) d : strip_ends (a :: mid ++ [d]) = mid.
Proof.
  unfold strip_ends, slice. simpl. rewrite length_app. simpl.
  replace (length mid + 1 - 0 - 1) with (length mid) by lia.
  rewrite firstn_app, Nat.sub_diag, firstn_all. simpl. apply app_nil_r.
Qed.

Lemma repetitionMatch_last (text : jsstring) (d : code_unit) (r : jsstring) :
  rev text = d :: r -> N.eqb d 125 = false -> repetitionMatch text = None.
Proof. intros H1 H2. unfold repetitionMatch. now rewrite H1, H2. Qed.

Lemma suffix_classify fuel t c :
  is_whitespace c = false ->
  parseElement (S fuel) (t ++ [c])
  = classify (parseElement fuel) (dropWhile is_whitespace t ++ [c])
      (hd c (dropWhile is_whitespace t)) c.
Proof.
  intro Hc.
  rewrite (parseElement_ext (S fuel) (t ++ [c]) (dropWhile is_whitespace t ++ [c])).
  - destruct (dropWhile is_whitespace t) as [|x u] eqn:E.
    + now apply (parseElement_classify fuel [c] c [] c []).
    + apply (parseElement_classify fuel _ x (u ++ [c]) c (rev (x :: u)));
        [reflexivity| |now apply dropWhile_head in E|exact Hc].
      now rewrite rev_app_distr.
  - rewrite !(trim_snoc _ _ Hc). now rewrite dropWhile_idem.
Qed.

(** X11. A trailing [*], [+] or [?] is taken first, whatever precedes
    it: the element compiles to the repetition from 0, the repetition
    from 1, or the optional, of the compilation of the rest. *)
Theorem quantifier_suffix_wraps fuel t :
  parseElement (S fuel) (t ++ str "*")
  = option_map (Repetition (Some 0%N) None) (parseElement fuel t)
  /\ parseElement (S fuel) (t ++ str "+")
     = option_map (Repetition (Some 1%N) None) (parseElement fuel t)
  /\ parseElement (S fuel) (t ++ str "?")
     = option_map Optional (parseElement fuel t).
Proof.
  assert (Hrest : forall c, parseElement fuel
                              (drop_last (dropWhile is_whitespace t ++ [c]))
                            = parseElement fuel t).
  { intro c. rewrite drop_last_snoc. apply parseElement_ext, trim_dropWhile. }
  repeat split.
  - change (str "*") with [42%N]. rewrite suffix_classify by reflexivity.
    unfold classify. simpl N.eqb. cbv iota. now rewrite Hrest.
  - change (str "+") with [43%N]. rewrite suffix_classify by reflexivity.
    unfold classify. simpl N.eqb. cbv iota. now rewrite Hrest.
  - change (str "?") with [63%N]. rewrite suffix_classify by reflexivity.
    unfold classify. simpl N.eqb. cbv iota. now rewrite Hrest.
Qed.

(** X12. Text between two double quotes, or between two single
    quotes, compiles to the terminal of what lies between them,
    whatever that is. *)
Theorem quoted_text_is_terminal fuel body :
  parseElement (S fuel) ([DQUOTE] ++ body ++ [DQUOTE]) = Some (Terminal body)
  /\ parseElement (S fuel) ([SQUOTE] ++ body ++ [SQUOTE]) = Some (Terminal body).
Proof.
  split.
  - rewrite (parseElement_classify fuel _ DQUOTE (body ++ [DQUOTE]) DQUOTE
               (rev (DQUOTE :: body))); try reflexivity.
    + unfold classify. simpl N.eqb. cbv iota.
      rewrite (repetitionMatch_last _ DQUOTE (rev (DQUOTE :: body)));
        [|simpl; now rewrite rev_app_distr|reflexivity].
      simpl app. now rewrite strip_ends_mid.
    + simpl. now rewrite rev_app_distr.
  - rewrite (parseElement_classify fuel _ SQUOTE (body ++ [SQUOTE]) SQUOTE
               (rev (SQUOTE :: body))); try reflexivity.
    + unfold classify. simpl N.eqb. cbv iota.
      rewrite (repetitionMatch_last _ SQUOTE (rev (SQUOTE :: body)));
        [|simpl; now rewrite rev_app_distr|reflexivity].
      simpl app. now rewrite strip_ends_mid.
    + simpl. now rewrite rev_app_distr.
Qed.

Lemma ident_char_not k c :
  is_ident_char c = true ->
  (k < 48 \/ 57 < k < 65 \/ 90 < k < 95 \/ k = 96 \/ 122 < k)%N ->
  N.eqb k c = false.
Proof.
  unfold is_ident_char, is_ident_start, is_digit.
  rewrite !orb_true_iff, !andb_true_iff, !N.leb_le, !N.eqb_eq.
  intros Hc Hk. apply N.eqb_neq. lia.
Qed.

Lemma rev_last_in (s : jsstring) (a : code_unit) (s' : jsstring) :
  s = a :: s' -> exists d r, rev s = d :: r /\ In d s.
Proof.
  intros ->. destruct (rev (a :: s')) as [|d r] eqn:E.
  - apply (f_equal (@length _)) in E. rewrite length_rev in E. discriminate.
  - exists d, r. split; [reflexivity|]. apply in_rev. rewrite E. now left.
Qed.

(** X13. A bare identifier compiles to a reference to the rule of
    that name, except [empty] and [epsilon], which compile to the
    empty expression: no rule of these two names can be referred to. *)
Theorem identifier_is_reference fuel t :
  is_identifier t = true ->
  parseElement (S fuel) t
  = Some (if str_eqb t (str "empty") || str_eqb t (str "epsilon")
          then Empty else NonTerminal t).
Proof.
  intro Hid. destruct t as [|a s'] eqn:Et; [discriminate|]. rewrite <- Et in *.
  assert (Hall : forallb is_ident_char t = true).
  { rewrite Et in *. simpl in *. apply andb_true_iff in Hid as [Ha Hs].
    now rewrite (ident_start_char _ Ha). }
  assert (Ha : is_ident_char a = true)
    by (rewrite Et in Hall; simpl in Hall; now apply andb_true_iff in Hall as [H _]).
  destruct (rev_last_in t a s' Et) as (d & r & Hrev & Hin).
  assert (Hd : is_ident_char d = true)
    by (rewrite forallb_forall in Hall; now apply Hall).
  assert (Hwa : is_whitespace a = false).
  { destruct (is_whitespace a) eqn:E; [|reflexivity].
    apply whitespace_not_ident in E. congruence. }
  assert (Hwd : is_whitespace d = false).
  { destruct (is_whitespace d) eqn:E; [|reflexivity].
    apply whitespace_not_ident in E. congruence. }
  rewrite (parseElement_classify fuel t a s' d r Et Hrev Hwa Hwd).
  unfold classify.
  rewrite (ident_char_not 42 d), (ident_char_not 43 d), (ident_char_not 63 d)
    by (auto; lia).
  rewrite (repetitionMatch_last t d r Hrev)
    by (rewrite N.eqb_sym; apply ident_char_not; [exact Hd|lia]).
  rewrite (ident_char_not 40 a), (ident_char_not 91 a), (ident_char_not 123 a),
    (ident_char_not DQUOTE a), (ident_char_not SQUOTE a)
    by (auto; unfold DQUOTE, SQUOTE; lia).
  cbn [andb orb].
  assert (Hdash : includes t 45%N = false).
  { unfold includes. apply not_true_is_false. intro H.
    apply existsb_exists in H as (x & Hx & Hx').
    rewrite forallb_forall in Hall.
    rewrite (ident_char_not 45 x) in Hx'; [discriminate|now apply Hall|lia]. }
  rewrite Hdash. cbn [andb].
  assert (Heps : str_eqb t [949%N] = false).
  { rewrite Et. simpl. rewrite N.eqb_sym, (ident_char_not 949 a); [reflexivity|exact Ha|lia]. }
  rewrite Heps, orb_false_r, Hid.
  now destruct (str_eqb t (str "empty") || str_eqb t (str "epsilon")).
Qed.

Lemma identifier_is_reference_witness :
  is_identifier (str "digit_2") = true
  /\ parseElement 1 (str "digit_2") = Some (NonTerminal (str "digit_2")).
Proof.
  split; [reflexivity|].
  exact (identifier_is_reference 0 (str "digit_2") eq_refl).
Defined.

Lemma no_brace_match (t : jsstring) :
  includes t 123%N = false ->
  repetitionMatch ([123%N] ++ t ++ [125%N]) = None.
Proof.
  intro H. unfold repetitionMatch.
  change ([123%N] ++ t ++ [125%N]) with ((123%N :: t) ++ [125%N]).
  rewrite rev_app_distr. simpl rev. simpl app. cbv iota. rewrite N.eqb_refl.
  assert (Hq : forallb (fun c => negb (N.eqb c 123)) (rev t) = true).
  { apply forallb_forall. intros x Hx. apply in_rev in Hx.
    apply negb_true_iff. rewrite N.eqb_sym.
    apply not_true_is_false. intro Hx'.
    assert (includes t 123%N = true)
      by (apply existsb_exists; exists x; split; assumption).
    congruence. }
  rewrite dropWhile_app by exact Hq. simpl. reflexivity.
Qed.

(** X14. Parentheses group: [(t)] compiles to the alternation
    compilation of [t].  Square brackets always mean optional, braces
    without a brace inside always mean repetition from 0, whatever
    [t] is. *)
Theorem bracketed_groups fuel t :
  parseElement (S fuel) (str "(" ++ t ++ str ")")
  = parseAlternation_with (parseElement fuel) t
  /\ parseElement (S fuel) (str "[" ++ t ++ str "]")
     = option_map Optional (parseAlternation_with (parseElement fuel) t)
  /\ (includes t 123%N = false ->
      parseElement (S fuel) (str "{" ++ t ++ str "}")
      = option_map (Repetition (Some 0%N) None)
                   (parseAlternation_with (parseElement fuel) t)).
Proof.
  change (str "(") with [40%N]. change (str ")") with [41%N].
  change (str "[") with [91%N]. change (str "]") with [93%N].
  change (str "{") with [123%N]. change (str "}") with [125%N].
  assert (Hrev : forall a d : code_unit,
             rev (a :: t ++ [d]) = d :: rev (a :: t))
    by (intros a d; simpl; now rewrite rev_app_distr).
  simpl app.
  split; [|split].
  - rewrite (parseElement_classify fuel _ 40%N (t ++ [41%N]) 41%N (rev (40%N :: t)));
      try reflexivity; [|apply Hrev].
    unfold classify.
    match goal with
    | |- context [repetitionMatch ?x] =>
        rewrite (repetitionMatch_last x 41%N (rev (40%N :: t)) (Hrev _ _) eq_refl)
    end.
    simpl N.eqb. cbv iota. cbn [andb]. now rewrite strip_ends_mid.
  - rewrite (parseElement_classify fuel _ 91%N (t ++ [93%N]) 93%N (rev (91%N :: t)));
      try reflexivity; [|apply Hrev].
    unfold classify.
    match goal with
    | |- context [repetitionMatch ?x] =>
        rewrite (repetitionMatch_last x 93%N (rev (91%N :: t)) (Hrev _ _) eq_refl)
    end.
    simpl N.eqb. cbv iota. cbn [andb]. now rewrite strip_ends_mid.
  - intro Hno.
    rewrite (parseElement_classify fuel _ 123%N (t ++ [125%N]) 125%N
               (rev (123%N :: t))); try reflexivity; [|apply Hrev].
    unfold classify.
    pose proof (no_brace_match t Hno) as Hnb. simpl app in Hnb.
    match goal with
    | |- context [repetitionMatch ?x] => change (repetitionMatch x) with
          (repetitionMatch (123%N :: t ++ [125%N])); rewrite Hnb
    end.
    simpl N.eqb. cbv iota. cbn [andb]. now rewrite strip_ends_mid.
Qed.

Lemma bracketed_groups_witness :
  includes (str "a") 123%N = false
  /\ parseElement 3 (str "{" ++ str "a" ++ str "}")
     = Some (Repetition (Some 0%N) None (NonTerminal (str "a"))).
Proof.
  split; [reflexivity|].
  exact (proj2 (proj2 (bracketed_groups 2 (str "a"))) eq_refl).
Defined.

(** X15. Two letters, digits or underscores with a hyphen between
    them compile to the character range from the first to the
    second. *)
Theorem alphanumeric_range fuel a b :
  is_ident_char a = true -> is_ident_char b = true ->
  parseElement (S fuel) [a; 45%N; b] = Some (CharacterRange [a] (Some [b])).
Proof.
  intros Ha Hb.
  assert (Hwa : is_whitespace a = false).
  { destruct (is_whitespace a) eqn:E; [|reflexivity].
    apply whitespace_not_ident in E. congruence. }
  assert (Hwb : is_whitespace b = false).
  { destruct (is_whitespace b) eqn:E; [|reflexivity].
    apply whitespace_not_ident in E. congruence. }
  rewrite (parseElement_classify fuel _ a [45%N; b] b [45%N; a] eq_refl eq_refl
             Hwa Hwb).
  unfold classify.
  rewrite (ident_char_not 42 b), (ident_char_not 43 b), (ident_char_not 63 b)
    by (auto; lia).
  rewrite (repetitionMatch_last [a; 45%N; b] b [45%N; a] eq_refl)
    by (rewrite N.eqb_sym; apply ident_char_not; [exact Hb|lia]).
  rewrite (ident_char_not 40 a), (ident_char_not 91 a), (ident_char_not 123 a),
    (ident_char_not DQUOTE a), (ident_char_not SQUOTE a)
    by (auto; unfold DQUOTE, SQUOTE; lia).
  cbn [andb orb].
  unfold includes. cbn [existsb]. rewrite (ident_char_not 45 a) by (auto; lia).
  simpl N.eqb. cbn [orb andb length Nat.eqb]. cbv iota.
  unfold char_range. cbn [code_points].
  assert (Hh : is_high_surrogate a = false).
  { unfold is_high_surrogate. apply is_ident_char_range in Ha.
    apply andb_false_iff. left. apply N.leb_gt. lia. }
  rewrite Hh. reflexivity.
Qed.

Lemma alphanumeric_range_witness :
  is_ident_char 97%N = true /\ is_ident_char 122%N = true
  /\ parseElement 1 (str "a-z") = Some (CharacterRange (str "a") (Some (str "z"))).
Proof.
  split; [reflexivity|split; [reflexivity|]].
  exact (alphanumeric_range 0 97%N 122%N eq_refl eq_refl).
Defined.

(** X16. An element followed by bounds in braces compiles to the
    repetition of the element with the first numeral as lower bound,
    and as upper bound the second numeral when there is one, the
    first otherwise, with or without a comma after it. *)
Theorem bounded_forms fuel e ds sep ms :
  (exists c e', e = c :: e' /\ is_whitespace c = false) ->
  forallb any_char e = true ->
  ds <> [] -> forallb is_digit ds = true -> forallb is_digit ms = true ->
  sep = str "," \/ (sep = [] /\ ms = []) ->
  parseElement (S fuel) (e ++ str "{" ++ (ds ++ sep ++ ms) ++ str "}")
  = option_map
      (Repetition (parseInt ds)
                  (match ms with [] => parseInt ds | _ => parseInt ms end))
      (parseElement fuel e).
Proof. apply parseElement_bounds. Qed.

Lemma bounded_forms_witness :
  (exists c e', str "a" = c :: e' /\ is_whitespace c = false)
  /\ forallb any_char (str "a") = true
  /\ str "12" <> []
  /\ forallb is_digit (str "12") = true
  /\ forallb is_digit [] = true
  /\ (str "," = str "," \/ (str "," = [] /\ @nil code_unit = []))
  /\ parseElement 2 (str "a{12,}")
     = Some (Repetition (Some 12%N) (Some 12%N) (NonTerminal (str "a"))).
Proof.
  assert (H1 : exists c e', str "a" = c :: e' /\ is_whitespace c = false)
    by (exists 97%N, []; split; reflexivity).
  assert (H3 : str "12" <> []) by discriminate.
  split; [exact H1|split; [reflexivity|split; [exact H3|
    split; [reflexivity|split; [reflexivity|split; [now left|]]]]]].
  exact (bounded_forms 1 (str "a") (str "12") (str ",") [] H1 eq_refl H3
           eq_refl eq_refl (or_introl eq_refl)).
Defined.

(** *** Alternatives *)

Lemma split_step_other d st c :
  N.eqb c d = false ->
  parts (split_step d st c) = parts st
  /\ s_current (split_step d st c) = s_current st ++ [c].
Proof.
  intro H. unfold split_step. rewrite H. cbn [andb].
  repeat match goal with
         | |- context [if ?b then _ else _] => destruct b
         end; split; reflexivity.
Qed.

Lemma split_fold_other d text st :
  includes text d = false ->
  parts (fold_left (split_step d) text st) = parts st
  /\ s_current (fold_left (split_step d) text st) = s_current st ++ text.
Proof.
  revert st; induction text as [|c text IH]; intros st H; simpl.
  - now rewrite app_nil_r.
  - unfold includes in H. simpl in H. apply orb_false_iff in H as [Hc Ht].
    rewrite N.eqb_sym in Hc.
    destruct (split_step_other d st c Hc) as [Hp Hs].
    destruct (IH (split_step d st c) Ht) as [Hp' Hs'].
    rewrite Hp', Hs', Hp, Hs, <- app_assoc. now split.
Qed.

(** X17. A text without the delimiter is not split: it comes back as
    one trimmed part, or as no part at all when it is blank.  So a
    definition without a bar compiles as one concatenation, with no
    alternation around it, and a blank definition compiles to the
    alternation of nothing. *)
Theorem undelimited_text_is_one_part rec text d :
  includes text d = false ->
  splitRespectingGroups text d = (if truthy (trim text) then [trim text] else [])
  /\ (d = 124%N ->
      parseAlternation_with rec text
      = if truthy (trim text) then parseConcatenation_with rec (trim text)
        else Some (Alternation [])).
Proof.
  intro H.
  assert (Hs : splitRespectingGroups text d
               = if truthy (trim text) then [trim text] else []).
  { unfold splitRespectingGroups.
    set (st0 := {| parts := []; s_current := []; s_groupDepth := 0;
                   s_inQuotes := false; s_quoteChar := None |}).
    destruct (split_fold_other d text st0 H) as [Hp Hc].
    rewrite Hp, Hc. reflexivity. }
  split; [exact Hs|]. intros ->. unfold parseAlternation_with. rewrite Hs.
  now destruct (truthy (trim text)).
Qed.

Lemma undelimited_text_is_one_part_witness :
  includes (str " a b ") 124%N = false
  /\ splitRespectingGroups (str " a b ") 124%N = [str "a b"].
Proof.
  split; [reflexivity|].
  exact (proj1 (undelimited_text_is_one_part (fun _ => None) (str " a b ") 124%N
                  eq_refl)).
Defined.

(** *** The rule map *)

Lemma str_eqb_sym a b : str_eqb a b = str_eqb b a.
Proof.
  destruct (str_eqb a b) eqn:E, (str_eqb b a) eqn:E'; try reflexivity.
  - apply str_eqb_eq in E. subst. now rewrite str_eqb_refl in E'.
  - apply str_eqb_eq in E'. subst. now rewrite str_eqb_refl in E.
Qed.

Lemma map_get_set m k v k' :
  map_get (map_set m k v) k' = if str_eqb k k' then Some v else map_get m k'.
Proof.
  induction m as [|[k0 v0] m IH]; simpl.
  - reflexivity.
  - destruct (str_eqb k0 k) eqn:E; simpl.
    + apply str_eqb_eq in E. subst k0. now destruct (str_eqb k k').
    + rewrite IH. destruct (str_eqb k0 k') eqn:E0; [|reflexivity].
      apply str_eqb_eq in E0. subst k0.
      rewrite str_eqb_sym in E. now rewrite E.
Qed.

Lemma fold_register_lookup lines p p' name :
  fold_left register_line lines (Some p) = Some p' ->
  map_get (rules p') name
  = match last_definition lines name with
    | Some d => parseRuleDefinition d
    | None => map_get (rules p) name
    end.
Proof.
  revert p; induction lines as [|line lines IH]; intros p; cbn [fold_left].
  - intro H; now injection H as <-.
  - destruct (register_line (Some p) line) as [p1|] eqn:E.
    + intro H. rewrite (IH p1 H). cbn [last_definition].
      destruct (last_definition lines name) as [d|]; [reflexivity|].
      unfold register_line in E.
      destruct (ruleMatch line) as [[n d]|]; [|now injection E as <-].
      destruct (parseRuleDefinition d) as [e|] eqn:Ed; [|discriminate].
      injection E as <-. simpl. rewrite map_get_set.
      destruct (str_eqb n name); [now rewrite Ed|reflexivity].
    + intro H. exfalso. clear -H.
      induction lines as [|l ls IHl]; simpl in H; [discriminate|auto].
Qed.

(** X18. Last write wins: after a successful compilation, looking a
    name up in the rule map gives the compilation of the definition
    on the last line that defines this name, and nothing for a name
    no line defines. *)
Theorem lookup_is_last_definition grammarText p name :
  parseGrammar grammarText = Return p ->
  map_get (rules p) name
  = match last_definition (grammar_lines grammarText) name with
    | Some d => parseRuleDefinition d
    | None => None
    end.
Proof.
  unfold parseGrammar.
  destruct (fold_left register_line (grammar_lines grammarText) _) as [p'|] eqn:E;
    [|discriminate].
  destruct (Nat.eqb _ 0); [discriminate|].
  intro H; injection H as <-.
  now rewrite (fold_register_lookup _ _ _ name E).
Qed.

Lemma lookup_is_last_definition_witness :
  parseGrammar (str "a ::= b" ++ newline ++ str "c ::= d" ++ newline ++ str "a ::= e")
  = Return {| rules := [(str "a", NonTerminal (str "e"));
                        (str "c", NonTerminal (str "d"))];
              startRule := Some (str "a") |}
  /\ map_get [(str "a", NonTerminal (str "e")); (str "c", NonTerminal (str "d"))]
       (str "a")
     = match last_definition
               (grammar_lines (str "a ::= b" ++ newline ++ str "c ::= d"
                                 ++ newline ++ str "a ::= e")) (str "a") with
       | Some d => parseRuleDefinition d
       | None => None
       end.
Proof.
  assert (H : parseGrammar (str "a ::= b" ++ newline ++ str "c ::= d"
                              ++ newline ++ str "a ::= e")
              = Return {| rules := [(str "a", NonTerminal (str "e"));
                                    (str "c", NonTerminal (str "d"))];
                          startRule := Some (str "a") |}) by reflexivity.
  split; [exact H|].
  exact (lookup_is_last_definition _ _ (str "a") H).
Defined.

Lemma map_set_key_list m k v :
  map_keys (map_set m k v) = add_key (map_keys m) k.
Proof.
  unfold add_key. induction m as [|[k0 v0] m IH]; simpl; [reflexivity|].
  rewrite (str_eqb_sym k k0).
  destruct (str_eqb k0 k) eqn:E; simpl.
  - apply str_eqb_eq in E. now subst.
  - rewrite IH. now destruct (existsb (str_eqb k) (map_keys m)).
Qed.

Lemma fold_register_keys lines p p' :
  fold_left register_line lines (Some p) = Some p' ->
  map_keys (rules p') = fold_left add_key (registered lines) (map_keys (rules p)).
Proof.
  revert p; induction lines as [|line lines IH]; intros p; cbn [fold_left].
  - intro H; now injection H as <-.
  - destruct (register_line (Some p) line) as [p1|] eqn:E.
    + intro H. rewrite (IH p1 H). unfold registered. cbn [flat_map].
      rewrite fold_left_app. f_equal.
      unfold register_line in E.
      destruct (ruleMatch line) as [[n d]|]; [|now injection E as <-].
      destruct (parseRuleDefinition d) as [e|]; [|discriminate].
      injection E as <-. simpl. apply map_set_key_list.
    + intro H. exfalso. clear -H.
      induction lines as [|l ls IHl]; simpl in H; [discriminate|auto].
Qed.

Lemma filter_filter {A : Type} (f g : A -> bool) l :
  filter f (filter g l) = filter (fun x => g x && f x) l.
Proof.
  induction l as [|x l IH]; simpl; [reflexivity|].
  destruct (g x); simpl; [destruct (f x)|]; now rewrite IH.
Qed.

Lemma existsb_snoc (f : jsstring -> bool) l x :
  existsb f (l ++ [x]) = existsb f l || f x.
Proof. rewrite existsb_app. simpl. now rewrite orb_false_r. Qed.

Lemma fold_add_key names acc :
  fold_left add_key names acc
  = acc ++ filter (fun m => negb (existsb (str_eqb m) acc)) (first_occurrences names).
Proof.
  revert acc; induction names as [|n ns IH]; intro acc; simpl.
  - now rewrite app_nil_r.
  - rewrite IH. unfold add_key. rewrite filter_filter.
    destruct (existsb (str_eqb n) acc) eqn:E; simpl.
    + f_equal. apply filter_ext_in. intros m _.
      destruct (str_eqb n m) eqn:Enm; [|reflexivity].
      apply str_eqb_eq in Enm. subst m. now rewrite E.
    + rewrite <- app_assoc. simpl. f_equal. f_equal.
      apply filter_ext. intro m.
      rewrite existsb_snoc, negb_orb, (str_eqb_sym m n). apply andb_comm.
Qed.

Lemma first_occurrences_NoDup names : NoDup (first_occurrences names).
Proof.
  induction names as [|n ns IH]; simpl; constructor.
  - intro H. apply filter_In in H as [_ H]. now rewrite str_eqb_refl in H.
  - now apply NoDup_filter.
Qed.

(** X19. The rule names of a compiled grammar, as the key list of its
    map gives them, are the defined names without repetition, each at
    the place of its first definition. *)
Theorem rule_names_in_order_of_first_definition grammarText p :
  parseGrammar grammarText = Return p ->
  map_keys (rules p) = first_occurrences (registered (grammar_lines grammarText))
  /\ NoDup (map_keys (rules p)).
Proof.
  unfold parseGrammar.
  destruct (fold_left register_line (grammar_lines grammarText) _) as [p'|] eqn:E;
    [|discriminate].
  destruct (Nat.eqb _ 0); [discriminate|].
  intro H; injection H as <-.
  assert (Hk : map_keys (rules p')
               = first_occurrences (registered (grammar_lines grammarText))).
  { rewrite (fold_register_keys _ _ _ E), fold_add_key. simpl.
    generalize (first_occurrences (registered (grammar_lines grammarText))).
    intro l. induction l as [|x l IH]; simpl; congruence. }
  split; [exact Hk|]. rewrite Hk. apply first_occurrences_NoDup.
Qed.

Lemma rule_names_in_order_of_first_definition_witness :
  parseGrammar (str "a ::= b" ++ newline ++ str "c ::= d" ++ newline ++ str "a ::= e")
  = Return {| rules := [(str "a", NonTerminal (str "e"));
                        (str "c", NonTerminal (str "d"))];
              startRule := Some (str "a") |}
  /\ map_keys [(str "a", NonTerminal (str "e")); (str "c", NonTerminal (str "d"))]
     = first_occurrences
         (registered (grammar_lines (str "a ::= b" ++ newline ++ str "c ::= d"
                                       ++ newline ++ str "a ::= e")))
  /\ NoDup (map_keys [(str "a", NonTerminal (str "e"));
                      (str "c", NonTerminal (str "d"))]).
Proof.
  assert (H : parseGrammar (str "a ::= b" ++ newline ++ str "c ::= d"
                              ++ newline ++ str "a ::= e")
              = Return {| rules := [(str "a", NonTerminal (str "e"));
                                    (str "c", NonTerminal (str "d"))];
                          startRule := Some (str "a") |}) by reflexivity.
  split; [exact H|].
  exact (rule_names_in_order_of_first_definition _ _ H).
Defined.

(** *** Comments *)

(** X20. A text in which no comment starts, followed by nothing or by
    a line comment ([//] or [#], then any characters except line
    terminators), is read as the text without the white space around
    it: the comment is dropped, and nothing is left of a line that is
    a comment only. *)
Theorem trailing_comment_is_dropped body tail :
  comment_free body tail = true -> line_comment tail ->
  clean_line (body ++ tail) = trim body.
Proof. apply clean_line_free. Qed.

Lemma trailing_comment_is_dropped_witness :
  comment_free (str "  a ::= ( b | c ) ") (str "# or (* d *)") = true
  /\ line_comment (str "# or (* d *)")
  /\ clean_line (str "  a ::= ( b | c ) " ++ str "# or (* d *)")
     = str "a ::= ( b | c )".
Proof.
  assert (H : line_comment (str "# or (* d *)")).
  { right. exists (str "#"), (str " or (* d *)").
    split; [now right|split; reflexivity]. }
  split; [reflexivity|split; [exact H|]].
  exact (trailing_comment_is_dropped (str "  a ::= ( b | c ) ")
           (str "# or (* d *)") eq_refl H).
Defined.

Lemma any_char_snoc_cr t : forallb any_char (t ++ [CR]) = false.
Proof. rewrite forallb_app. apply andb_false_r. Qed.

Lemma strip_line_cr m t :
  line_marker m -> strip_line_comment m (t ++ [CR]) = t ++ [CR].
Proof.
  intro Hm. induction t as [|c t IH]; [now destruct Hm as [-> | ->]|].
  cbn [app strip_line_comment]. rewrite IH.
  destruct Hm as [-> | ->].
  - destruct t as [|d t].
    + cbn [app startsWith str map list_ascii_of_string]. simpl N_of_ascii.
      change (N.eqb 47 CR) with false. now rewrite !andb_false_r.
    + change (skipn (length (str "//")) (c :: (d :: t) ++ [CR])) with (t ++ [CR]).
      now rewrite any_char_snoc_cr, andb_false_r.
  - change (skipn (length (str "#")) (c :: t ++ [CR])) with (t ++ [CR]).
    now rewrite any_char_snoc_cr, andb_false_r.
Qed.

Lemma dropWhile_app_stop (q : code_unit -> bool) s t :
  dropWhile q s <> [] -> dropWhile q (s ++ t) = dropWhile q s ++ t.
Proof.
  induction s as [|x s IH]; simpl; [congruence|].
  destruct (q x); [exact IH|reflexivity].
Qed.

Lemma trim_snoc_whitespace s c : is_whitespace c = true -> trim (s ++ [c]) = trim s.
Proof.
  intro Hc. unfold trim.
  destruct (dropWhile is_whitespace s) as [|x u] eqn:E.
  - rewrite dropWhile_app by now apply dropWhile_nil_forallb.
    simpl. now rewrite Hc.
  - rewrite dropWhile_app_stop by (rewrite E; discriminate).
    rewrite E, rev_app_distr. simpl rev at 1. cbn [app dropWhile].
    now rewrite Hc.
Qed.

(** X22. A line comment has to run up to the end of the line, and a
    carriage return is not a character of the run.  So on a line that
    ends with a carriage return, as the lines of a text with Windows
    line ends do, neither [//] nor [#] comments are removed: without
    block comment, the line is read as it is, trimmed. *)
Theorem carriage_return_keeps_line_comments s :
  free_of COMMENT_OPEN s [CR] = true ->
  clean_line (s ++ [CR]) = trim s.
Proof.
  intro H. unfold clean_line. rewrite strip_block_free by exact H.
  change (strip_block_comments [CR] 0) with [CR].
  rewrite (strip_line_cr (str "//")) by now left.
  rewrite (strip_line_cr (str "#")) by now right.
  now apply trim_snoc_whitespace.
Qed.

Lemma carriage_return_keeps_line_comments_witness :
  free_of COMMENT_OPEN (str "a ::= b // c # d") [CR] = true
  /\ clean_line (str "a ::= b // c # d" ++ [CR]) = str "a ::= b // c # d".
Proof.
  split; [reflexivity|].
  exact (carriage_return_keeps_line_comments (str "a ::= b // c # d") eq_refl).
Defined.

(** The same on a grammar text: with a carriage return before the
    line feed the comment becomes part of the rule. *)
Example carriage_return_grammar :
  parseGrammar (str "a ::= b // c" ++ newline ++ str "b ::= c")
  = Return {| rules := [(str "a", NonTerminal (str "b"));
                        (str "b", NonTerminal (str "c"))];
              startRule := Some (str "a") |}
  /\ parseGrammar (str "a ::= b // c" ++ [CR] ++ newline ++ str "b ::= c")
     = Return {| rules := [(str "a", Concatenation [NonTerminal (str "b");
                                                    Terminal (str "//");
                                                    NonTerminal (str "c")]);
                           (str "b", NonTerminal (str "c"))];
                 startRule := Some (str "a") |}.
Proof. split; reflexivity. Qed.

End Further.
